(** * The sound engine of the BrickPi3 instrument

    A shallow embedding of [project/utils/sound.py]: the note table, the
    waveform generator [gen_custom_freq], the [Sound] and [SoundSeq] classes
    and their transport methods over the audio backend.

    Conventions of the embedding.
    - A Python [float] is read as a real number and [int(x)] as truncation
      toward zero; an [int] is a [Z].
    - A [bytes] or [bytearray] value is a [list Z] of numbers in [0, 256).
    - A raised exception is the [Raise] case of [outcome]; the exception
      classes are the ones the interpreter raises on the paths modelled.
    - A dynamically typed argument (a note name, a number or [None]) is a
      [value].
    - [functools.lru_cache] memoises a pure function of hashable arguments
      and is transparent for the results. *)

From Stdlib Require Import String.
From Stdlib Require Import Reals Lra Lia ZArith List QArith Qreals Bool.
From Stdlib Require Import Sorted Permutation.
Import ListNotations.

Set Implicit Arguments.

(** ** Exceptions and results *)

Inductive error : Type :=
| ValueError | ZeroDivisionError | OverflowError | TypeError
| NameError | AttributeError | IndexError | SimpleaudioError.

Inductive outcome (A : Type) : Type :=
| Ok (a : A)
| Raise (e : error).

Arguments Ok {A} a.
Arguments Raise {A} e.

Definition bind {A B : Type} (m : outcome A) (k : A -> outcome B) : outcome B :=
  match m with
  | Ok a => k a
  | Raise e => Raise e
  end.

Declare Scope py_scope.
Delimit Scope py_scope with py.
Notation "x <- m ;; k" := (bind m (fun x => k))
  (at level 61, m at next level, right associativity) : py_scope.

Local Open Scope py_scope.

(** A list comprehension whose body may raise: the first exception wins. *)
Fixpoint mapM {A B : Type} (f : A -> outcome B) (l : list A) : outcome (list B) :=
  match l with
  | [] => Ok []
  | a :: l' => b <- f a ;; bs <- mapM f l' ;; Ok (b :: bs)
  end.

Definition succeeded {A : Type} (m : outcome A) : Prop := exists a, m = Ok a.

(** ** Dynamically typed arguments *)

Inductive value : Type :=
| VNone
| VStr (s : string)
| VNum (r : R).

(** ** The note table *)

Local Open Scope string_scope.
Local Open Scope Q_scope.

Definition NOTE : list (string * Q) := [
  ("C0", 16.35); ("D0", 18.35); ("E0", 20.60); ("F0", 21.83); ("G0", 24.50);
  ("A0", 27.50); ("B0", 30.87); ("C1", 32.70); ("D1", 36.71); ("E1", 41.20);
  ("F1", 43.65); ("G1", 49.00); ("A1", 55.00); ("B1", 61.74); ("C2", 65.41);
  ("D2", 73.42); ("E2", 82.41); ("F2", 87.31); ("G2", 98.00); ("A2", 110.00);
  ("B2", 123.47); ("C3", 130.81); ("D3", 146.83); ("E3", 164.81);
  ("F3", 174.61); ("G3", 196.00); ("A3", 220.00); ("B3", 246.94);
  ("C4", 261.63); ("D4", 293.66); ("E4", 329.63); ("F4", 349.23);
  ("G4", 392.00); ("A4", 440.00); ("B4", 493.88); ("C5", 523.25);
  ("D5", 587.33); ("E5", 659.25); ("F5", 698.46); ("G5", 783.99);
  ("A5", 880.00); ("B5", 987.77); ("C6", 1046.50); ("D6", 1174.66);
  ("E6", 1318.51); ("F6", 1396.91); ("G6", 1567.98); ("A6", 1760.00);
  ("B6", 1975.53); ("C7", 2093.00); ("D7", 2349.32); ("E7", 2637.02);
  ("F7", 2793.83); ("G7", 3135.96); ("A7", 3520.00); ("B7", 3951.07);
  ("C8", 4186.01); ("D8", 4698.63); ("E8", 5274.04); ("F8", 5587.65);
  ("G8", 6271.93); ("A8", 7040.00); ("B8", 7902.13); ("C#0", 17.32);
  ("Db0", 17.32); ("D#0", 19.45); ("Eb0", 19.45); ("F#0", 23.12);
  ("Gb0", 23.12); ("G#0", 25.96); ("Ab0", 25.96); ("A#0", 29.14);
  ("Bb0", 29.14); ("C#1", 34.65); ("Db1", 34.65); ("D#1", 38.89);
  ("Eb1", 38.89); ("F#1", 46.25); ("Gb1", 46.25); ("G#1", 51.91);
  ("Ab1", 51.91); ("A#1", 58.27); ("Bb1", 58.27); ("C#2", 69.30);
  ("Db2", 69.30); ("D#2", 77.78); ("Eb2", 77.78); ("F#2", 92.50);
  ("Gb2", 92.50); ("G#2", 103.83); ("Ab2", 103.83); ("A#2", 116.54);
  ("Bb2", 116.54); ("C#3", 138.59); ("Db3", 138.59); ("D#3", 155.56);
  ("Eb3", 155.56); ("F#3", 185.00); ("Gb3", 185.00); ("G#3", 207.65);
  ("Ab3", 207.65); ("A#3", 233.08); ("Bb3", 233.08); ("C#4", 277.18);
  ("Db4", 277.18); ("D#4", 311.13); ("Eb4", 311.13); ("F#4", 369.99);
  ("Gb4", 369.99); ("G#4", 415.30); ("Ab4", 415.30); ("A#4", 466.16);
  ("Bb4", 466.16); ("C#5", 554.37); ("Db5", 554.37); ("D#5", 622.25);
  ("Eb5", 622.25); ("F#5", 739.99); ("Gb5", 739.99); ("G#5", 830.61);
  ("Ab5", 830.61); ("A#5", 932.33); ("Bb5", 932.33); ("C#6", 1108.73);
  ("Db6", 1108.73); ("D#6", 1244.51); ("Eb6", 1244.51); ("F#6", 1479.98);
  ("Gb6", 1479.98); ("G#6", 1661.22); ("Ab6", 1661.22); ("A#6", 1864.66);
  ("Bb6", 1864.66); ("C#7", 2217.46); ("Db7", 2217.46); ("D#7", 2489.02);
  ("Eb7", 2489.02); ("F#7", 2959.96); ("Gb7", 2959.96); ("G#7", 3322.44);
  ("Ab7", 3322.44); ("A#7", 3729.31); ("Bb7", 3729.31); ("C#8", 4434.92);
  ("Db8", 4434.92); ("D#8", 4978.03); ("Eb8", 4978.03); ("F#8", 5919.91);
  ("Gb8", 5919.91); ("G#8", 6644.88); ("Ab8", 6644.88); ("A#8", 7458.62);
  ("Bb8", 7458.62)
].

Local Close Scope Q_scope.
Local Close Scope string_scope.

(** [NOTE[k]] where [k in NOTE], and [None] where not. *)
Fixpoint assoc (k : string) (d : list (string * Q)) : option Q :=
  match d with
  | [] => None
  | (k', v) :: d' => if String.eqb k k' then Some v else assoc k d'
  end.

Definition NOTE_get (k : string) : option Q := assoc k NOTE.

Local Open Scope R_scope.

(** ** Numbers, ranges and item assignment *)

(** [int(x)] on a float. *)
Definition py_int (x : R) : Z :=
  if Rle_dec 0 x then Zfloor x else Zceil x.

(** [x / y] on floats. *)
Definition py_div (x y : R) : outcome R :=
  if Req_dec_T y 0 then Raise ZeroDivisionError else Ok (x / y).

(** [range(0, n)]. *)
Definition range (n : Z) : list Z := map Z.of_nat (seq 0 (Z.to_nat n)).

(** [max(l)] on a list of floats. *)
Definition py_max (l : list R) : outcome R :=
  match l with
  | [] => Raise ValueError
  | x :: l' => Ok (fold_left Rmax l' x)
  end.

Fixpoint replace_nth {A : Type} (l : list A) (i : nat) (x : A) : list A :=
  match l, i with
  | [], _ => []
  | _ :: l', O => x :: l'
  | a :: l', S i' => a :: replace_nth l' i' x
  end.

(** [l[i] = x]: a negative index counts from the end, an index out of range
    raises. *)
Definition setitem {A : Type} (l : list A) (i : Z) (x : A) : outcome (list A) :=
  let len := Z.of_nat (length l) in
  let j := (if i <? 0 then i + len else i)%Z in
  if ((0 <=? j) && (j <? len))%Z
  then Ok (replace_nth l (Z.to_nat j) x)
  else Raise IndexError.

(** [v.to_bytes(2, "little", signed=True)]. *)
Definition to_bytes (v : Z) : outcome (list Z) :=
  if ((-32768 <=? v) && (v <=? 32767))%Z
  then Ok [v mod 256; (v / 256) mod 256]%Z
  else Raise OverflowError.

(** ** Waveforms *)

Definition waveform : Type := list R -> value -> outcome (list R).

(** [2 * math.pi * freq * i] where [freq] is an argument of any type. *)
Definition num (v : value) : outcome R :=
  match v with
  | VNum r => Ok r
  | _ => Raise TypeError
  end.

Definition BASE_SOUND : waveform := fun x freq =>
  mapM (fun i => f <- num freq ;; Ok (sin (2 * PI * f * i))) x.

Definition linspace (fs : R) (n : Z) : list R :=
  map (fun i => IZR i / fs) (range n).

(** The closure [strength] of [freq_modulator]: bound only when [k] is a
    number or a note name of the table. *)
Definition strength_of (k : value) : option R :=
  match k with
  | VNum r => Some r
  | VStr s => option_map Q2R (NOTE_get s)
  | VNone => None
  end.

Definition call_strength (st : option R) : outcome R :=
  match st with
  | Some r => Ok r
  | None => Raise NameError
  end.

Definition freq_modulator (mod_ : R) (k : value) : waveform := fun x freq =>
  let strength := strength_of k in
  let carrier := map (fun i => 2 * PI * i * mod_) x in
  modulator <- mapM (fun i => s <- call_strength strength ;;
                              f <- num freq ;;
                              Ok (s * sin (2 * PI * i * f))) x ;;
  let res := map (fun cm => cos (fst cm + snd cm)) (combine carrier modulator) in
  maximum <- py_max (map Rabs res) ;;
  mapM (fun r => py_div r maximum) res.

(** The fade loop of [gen_custom_freq]: for [i] in [range(cutoff)] the same
    value is stored at both ends of [dynamics]. *)
Definition fade_step (n cutoff : Z) (k : R) (dyn : outcome (list R)) (i : Z)
  : outcome (list R) :=
  d <- dyn ;;
  let x := ln (IZR i / IZR cutoff * 7 + 1) * k in
  d1 <- setitem d (n - i - 1)%Z x ;;
  setitem d1 i x.

Definition resolve_instrument (instrument instrument_strength : value) : waveform :=
  match instrument with
  | VStr s =>
      match NOTE_get s with
      | Some q => freq_modulator (Q2R q) instrument_strength
      | None => BASE_SOUND
      end
  | VNum r => freq_modulator (Rabs r) instrument_strength
  | VNone => BASE_SOUND
  end.

(** The integers that [gen_custom_freq] hands to [to_bytes], in order. *)
Definition gen_samples (frequency : value) (seconds vol_factor fs : R)
    (instrument instrument_strength : value) (cutoff_factor : R)
  : outcome (list Z) :=
  let instrument := resolve_instrument instrument instrument_strength in
  let n := py_int (seconds * fs) in
  let t := map (fun i => IZR i / fs) (range n) in
  note <- instrument t frequency ;;
  maximum <- py_max (map Rabs note) ;;
  audio <- mapM (fun i => py_div (IZR (py_int (i * vol_factor * (2 ^ 15 - 1)))) maximum)
                note ;;
  let dynamics := map (fun _ => 1) (range n) in
  let cutoff := Z.min (Z.of_nat (length audio)) (py_int (fs * cutoff_factor)) in
  let k := (1 / 3) * (1 / ln 2) in
  dynamics <- fold_left (fade_step n cutoff k) (range cutoff) (Ok dynamics) ;;
  Ok (map (fun ad => py_int (fst ad * snd ad)) (combine audio dynamics)).

Definition gen_custom_freq (frequency : value) (seconds vol_factor fs : R)
    (instrument instrument_strength : value) (cutoff_factor : R)
  : outcome (list Z) :=
  samples <- gen_samples frequency seconds vol_factor fs
                         instrument instrument_strength cutoff_factor ;;
  chunks <- mapM to_bytes samples ;;
  Ok (concat chunks).

(** ** The audio backend

    [simpleaudio] is an external library.  Its contract, as the classes use
    it: [play_buffer] starts one playback and returns a new handle for it,
    or raises when the backend refuses the buffer; a handle is playing from
    its start until it is stopped or the playback runs to its end;
    [wait_done] returns once the handle no longer plays.

    The backend keeps the [history] of its playbacks, the latest event
    first: a playback started under a handle; [stop] was called on a handle,
    [wait_done] was called on it, or its playback reached the end of the
    buffer.  The order of the calls a method makes is read from it. *)

Definition handle : Type := nat.

Inductive ending : Type :=
| ByStop
| ByWaitDone
| ByItself.

Inductive event : Type :=
| Started (h : handle)
| Finished (how : ending) (h : handle).

Record device : Type := mkDevice {
  playing : list handle;
  next_handle : handle;
  refusing : bool;
  history : list event
}.

Definition play_buffer (dev : device) : device * outcome handle :=
  if refusing dev then (dev, Raise SimpleaudioError)
  else (mkDevice (next_handle dev :: playing dev) (S (next_handle dev)) false
                 (Started (next_handle dev) :: history dev),
        Ok (next_handle dev)).

Definition retire (how : ending) (h : handle) (dev : device) : device :=
  mkDevice (remove Nat.eq_dec h (playing dev)) (next_handle dev) (refusing dev)
           (Finished how h :: history dev).

Definition handle_stop : handle -> device -> device := retire ByStop.
Definition handle_wait_done : handle -> device -> device := retire ByWaitDone.
Definition handle_is_playing (h : handle) (dev : device) : bool :=
  existsb (Nat.eqb h) (playing dev).

(** A step of the backend, not of the program: it starts or stops refusing
    buffers.  (A playback that reaches the end of its buffer is
    [retire ByItself].) *)
Definition backend_refuses (b : bool) (dev : device) : device :=
  mkDevice (playing dev) (next_handle dev) b (history dev).

(** [bytearray(n)]. *)
Definition bytearray (n : Z) : outcome (list Z) :=
  if (n <? 0)%Z then Raise ValueError else Ok (repeat 0%Z (Z.to_nat n)).

(** [for i, a in enumerate(new_audio): audio[i] = a], from index [i]; the
    items stored before an exception stay stored. *)
Fixpoint store_from (audio : list Z) (i : Z) (new_audio : list Z)
  : list Z * outcome unit :=
  match new_audio with
  | [] => (audio, Ok tt)
  | a :: rest =>
      match setitem audio i a with
      | Ok audio' => store_from audio' (i + 1)%Z rest
      | Raise e => (audio, Raise e)
      end
  end.

(** ** class Sound *)

Module Sound.

(** An attribute that a conditional assignment may leave unset is an
    [option]; [player] is read through [getattr(self, 'player', None)], so
    unset and [None] are the same there. *)
Record t : Type := mk {
  pitch : option value;
  instrument : option value;
  vol_factor : R;
  instrument_strength : value;
  cutoff_factor : R;
  seconds : R;
  fs : R;
  size : Z;
  audio : list Z;
  player : option handle
}.

Definition with_audio (self : t) (a : list Z) : t :=
  mk (pitch self) (instrument self) (vol_factor self) (instrument_strength self)
     (cutoff_factor self) (seconds self) (fs self) (size self) a (player self).

Definition with_player (self : t) (p : option handle) : t :=
  mk (pitch self) (instrument self) (vol_factor self) (instrument_strength self)
     (cutoff_factor self) (seconds self) (fs self) (size self) (audio self) p.

Definition set_pitch (self : t) (pitch_ : value) : t :=
  let assign v :=
    mk (Some v) (instrument self) (vol_factor self) (instrument_strength self)
       (cutoff_factor self) (seconds self) (fs self) (size self) (audio self)
       (player self) in
  match pitch_ with
  | VStr s =>
      match NOTE_get s with
      | Some q => assign (VNum (Q2R q))
      | None => self
      end
  | VNum r => assign (VNum (Rabs r))
  | VNone => assign VNone
  end.

Definition set_instrument (self : t) (instrument_ : value) : t :=
  let assign v :=
    mk (pitch self) (Some v) (vol_factor self) (instrument_strength self)
       (cutoff_factor self) (seconds self) (fs self) (size self) (audio self)
       (player self) in
  match instrument_ with
  | VNone => assign VNone
  | VStr s =>
      match NOTE_get s with
      | Some q => assign (VNum (Q2R q))
      | None => self
      end
  | VNum r => assign (VNum (Rabs r))
  end.

Definition set_instrument_strength (self : t) (strength : value) : t :=
  mk (pitch self) (instrument self) (vol_factor self) strength
     (cutoff_factor self) (seconds self) (fs self) (size self) (audio self)
     (player self).

Definition set_volume (self : t) (vol : R) : t :=
  mk (pitch self) (instrument self) vol (instrument_strength self)
     (cutoff_factor self) (seconds self) (fs self) (size self) (audio self)
     (player self).

Definition set_cutoff_factor (self : t) (factor : R) : t :=
  mk (pitch self) (instrument self) (vol_factor self) (instrument_strength self)
     factor (seconds self) (fs self) (size self) (audio self) (player self).

Definition is_playing (self : t) (dev : device) : bool :=
  match player self with
  | Some p => handle_is_playing p dev
  | None => false
  end.

Definition stop (self : t) (dev : device) : t * device :=
  match player self with
  | Some p => (with_player self None, handle_stop p dev)
  | None => (self, dev)
  end.

Definition play (self : t) (dev : device) : (t * device) * outcome unit :=
  let (self, dev) := if is_playing self dev then stop self dev else (self, dev) in
  match play_buffer dev with
  | (dev, Ok p) => ((with_player self (Some p), dev), Ok tt)
  | (dev, Raise e) => ((self, dev), Raise e)
  end.

Definition wait_done (self : t) (dev : device) : t * device :=
  match player self with
  | Some p => (with_player self None, handle_wait_done p dev)
  | None => (self, dev)
  end.

Definition getattr (a : option value) : outcome value :=
  match a with
  | Some v => Ok v
  | None => Raise AttributeError
  end.

(** The default cutoff factor of [gen_custom_freq], which [update_audio]
    leaves in place. *)
Definition default_cutoff_factor : R := 1 / 100.

Definition update_audio (self : t) : t * outcome (list Z) :=
  match
    (frequency <- getattr (pitch self) ;;
     instrument_ <- getattr (instrument self) ;;
     gen_custom_freq frequency (seconds self) (vol_factor self) (fs self)
                     instrument_ (instrument_strength self)
                     default_cutoff_factor)
  with
  | Raise e => (self, Raise e)
  | Ok new_audio =>
      match store_from (audio self) 0 new_audio with
      | (a, Ok _) => (with_audio self a, Ok a)
      | (a, Raise e) => (with_audio self a, Raise e)
      end
  end.

Definition change_duration (self : t) (dev : device) (seconds_ : R) (fs_ : option R)
  : (t * device) * outcome unit :=
  let (self, dev) := if is_playing self dev then stop self dev else (self, dev) in
  let self := with_player self None in
  let fs_ := match fs_ with None => fs self | Some f => f end in
  let size_ := py_int (seconds_ * fs_) in
  let self :=
    mk (pitch self) (instrument self) (vol_factor self) (instrument_strength self)
       (cutoff_factor self) (seconds self) (fs self) size_ (audio self)
       (player self) in
  match bytearray (size_ * 2) with
  | Raise e => ((self, dev), Raise e)
  | Ok zeros =>
      let self :=
        mk (pitch self) (instrument self) (vol_factor self)
           (instrument_strength self) (cutoff_factor self) seconds_ fs_
           (size self) zeros (player self) in
      match update_audio self with
      | (self, Ok _) => ((self, dev), Ok tt)
      | (self, Raise e) => ((self, dev), Raise e)
      end
  end.

(** The object [__init__] receives: no attribute is set.  The attributes
    that are plain fields here hold a placeholder until [__init__] assigns
    them, which it does before anything reads them. *)
Definition blank : t := mk None None 0 VNone 0 0 0 0 [] None.

(** [Sound(pitch, seconds, vol_factor, fs, bg_play, instrument,
    instrument_strength, cutoff_factor)]; the [debug] printing is left out. *)
Definition init (pitch_ : value) (seconds_ vol_factor_ fs_ : R)
    (bg_play : option bool) (instrument_ instrument_strength_ : value)
    (cutoff_factor_ : R) (dev : device) : device * outcome t :=
  let self := set_pitch blank pitch_ in
  let self := set_instrument self instrument_ in
  let self := set_volume self vol_factor_ in
  let self := set_instrument_strength self instrument_strength_ in
  let self := set_cutoff_factor self cutoff_factor_ in
  let self :=
    mk (pitch self) (instrument self) (vol_factor self) (instrument_strength self)
       (cutoff_factor self) seconds_ fs_ (size self) (audio self) (player self) in
  match change_duration self dev seconds_ (Some fs_) with
  | ((_, dev), Raise e) => (dev, Raise e)
  | ((self, dev), Ok _) =>
      match bg_play with
      | None => (dev, Ok self)
      | Some true =>
          match play self dev with
          | ((self, dev), Ok _) => (dev, Ok self)
          | ((_, dev), Raise e) => (dev, Raise e)
          end
      | Some false =>
          match play self dev with
          | ((self, dev), Ok _) =>
              let (self, dev) := wait_done self dev in (dev, Ok self)
          | ((_, dev), Raise e) => (dev, Raise e)
          end
      end
  end.

Definition len (self : t) : Z := size self.

End Sound.

(** ** class SoundSeq *)

Module SoundSeq.

Record t : Type := mk {
  sounds : list Sound.t;
  audio : list Z;
  fs : R;
  size : Z;
  seconds : R;
  player : option handle
}.

Definition with_player (self : t) (p : option handle) : t :=
  mk (sounds self) (audio self) (fs self) (size self) (seconds self) p.

Definition with_audio (self : t) (a : list Z) : t :=
  mk (sounds self) a (fs self) (size self) (seconds self) (player self).

Definition is_playing (self : t) (dev : device) : bool :=
  match player self with
  | Some p => handle_is_playing p dev
  | None => false
  end.

Definition stop (self : t) (dev : device) : t * device :=
  match player self with
  | Some p => (with_player self None, handle_stop p dev)
  | None => (self, dev)
  end.

Definition play (self : t) (dev : device) : (t * device) * outcome unit :=
  let (self, dev) := if is_playing self dev then stop self dev else (self, dev) in
  match play_buffer dev with
  | (dev, Ok p) => ((with_player self (Some p), dev), Ok tt)
  | (dev, Raise e) => ((self, dev), Raise e)
  end.

Definition wait_done (self : t) (dev : device) : t * device :=
  match player self with
  | Some p => (with_player self None, handle_wait_done p dev)
  | None => (self, dev)
  end.

Definition update_audio (self : t) : t * outcome (list Z) :=
  let new_audio := concat (map Sound.audio (sounds self)) in
  match store_from (audio self) 0 new_audio with
  | (a, Ok _) => (with_audio self a, Ok a)
  | (a, Raise e) => (with_audio self a, Raise e)
  end.

Definition change_duration (self : t) (dev : device) : (t * device) * outcome unit :=
  let (self, dev) := if is_playing self dev then stop self dev else (self, dev) in
  let seconds_ := fold_left (fun acc s => acc + Sound.seconds s) (sounds self) 0 in
  let size_ := fold_left (fun acc s => (acc + Sound.size s)%Z) (sounds self) 0%Z in
  match bytearray (size_ * 2) with
  | Raise e => ((self, dev), Raise e)
  | Ok zeros =>
      let self := mk (sounds self) zeros (fs self) size_ seconds_ (player self) in
      match update_audio self with
      | (self, Ok _) => ((self, dev), Ok tt)
      | (self, Raise e) => ((self, dev), Raise e)
      end
  end.

(** [SoundSeq(sounds, fs)] on a list of [Sound] objects; [audio] starts as
    [None], which nothing reads before [change_duration] replaces it. *)
Definition init (sounds_ : list Sound.t) (fs_ : R) (dev : device)
  : device * outcome t :=
  let self := mk [] [] fs_ 0 0 None in
  let self :=
    fold_left (fun self s => mk (sounds self ++ [s]) (audio self) (fs self)
                                (size self) (seconds self) (player self))
              sounds_ self in
  match change_duration self dev with
  | ((self, dev), Ok _) => (dev, Ok self)
  | ((_, dev), Raise e) => (dev, Raise e)
  end.

(** The sample rate of every [SoundSeq] that [+] builds. *)
Definition default_fs : R := 8000.

Definition append (self : t) (other : Sound.t) (dev : device)
  : (t * device) * outcome unit :=
  if Req_dec_T (Sound.fs other) (fs self)
  then
    let self := mk (sounds self ++ [other]) (audio self) (fs self) (size self)
                   (seconds self) (player self) in
    change_duration self dev
  else ((self, dev), Ok tt).

Definition len (self : t) : Z := size self.

End SoundSeq.

(** ** The [+] operator *)

(** The right operand of [+]: a [Sound] or a [SoundSeq]. *)
Inductive operand : Type :=
| OSound (s : Sound.t)
| OSeq (q : SoundSeq.t).

(** [Sound.__add__]: [SoundSeq([self, other])] or
    [SoundSeq([self] + other.sounds)]. *)
Definition Sound_add (self : Sound.t) (other : operand) (dev : device)
  : device * outcome SoundSeq.t :=
  match other with
  | OSound o => SoundSeq.init [self; o] SoundSeq.default_fs dev
  | OSeq q => SoundSeq.init ([self] ++ SoundSeq.sounds q) SoundSeq.default_fs dev
  end.

(** [l + r] for a list [l]: another list is concatenated, anything else
    raises. *)
Inductive addend : Type :=
| AList (l : list Sound.t)
| ASound (s : Sound.t).

Definition list_add (l : list Sound.t) (r : addend) : outcome (list Sound.t) :=
  match r with
  | AList l' => Ok (l ++ l')
  | ASound _ => Raise TypeError
  end.

(** [SoundSeq.__add__]: the argument of the constructor, [self.sounds + other]
    or [self.sounds + other.sounds], is evaluated before the constructor
    runs. *)
Definition SoundSeq_add (self : SoundSeq.t) (other : operand) (dev : device)
  : device * outcome SoundSeq.t :=
  match other with
  | OSound o =>
      match list_add (SoundSeq.sounds self) (ASound o) with
      | Ok l => SoundSeq.init l SoundSeq.default_fs dev
      | Raise e => (dev, Raise e)
      end
  | OSeq q =>
      match list_add (SoundSeq.sounds self) (AList (SoundSeq.sounds q)) with
      | Ok l => SoundSeq.init l SoundSeq.default_fs dev
      | Raise e => (dev, Raise e)
      end
  end.

(** [a + b] on operands of either class. *)
Definition add (a b : operand) (dev : device) : device * outcome SoundSeq.t :=
  match a with
  | OSound s => Sound_add s b dev
  | OSeq q => SoundSeq_add q b dev
  end.

(** ** Exceptions of dictionary lookups *)

(** [d[k]] raises [KeyError] when [k] is no key of [d]; the functions below
    may raise it besides the exceptions of [error]. *)
Inductive exn : Type :=
| KeyError
| Builtin (e : error).

Inductive result (A : Type) : Type :=
| Return (a : A)
| Throw (x : exn).

Arguments Return {A} a.
Arguments Throw {A} x.

Definition bindR {A B : Type} (m : result A) (k : A -> result B) : result B :=
  match m with
  | Return a => k a
  | Throw x => Throw x
  end.

Notation "x <~ m ;; k" := (bindR m (fun x => k))
  (at level 61, m at next level, right associativity) : py_scope.

Definition lift {A : Type} (m : outcome A) : result A :=
  match m with
  | Ok a => Return a
  | Raise e => Throw (Builtin e)
  end.

Fixpoint mapR {A B : Type} (f : A -> result B) (l : list A) : result (list B) :=
  match l with
  | [] => Return []
  | a :: l' => b <~ f a ;; bs <~ mapR f l' ;; Return (b :: bs)
  end.

(** [d[k]] on a dictionary written as the list of its items. *)
Fixpoint getitem {A : Type} (d : list (string * A)) (k : string) : result A :=
  match d with
  | [] => Throw KeyError
  | (k', v) :: d' => if String.eqb k k' then Return v else getitem d' k
  end.

(** ** The note names in pitch order *)

Definition _note_order : list (string * string) :=
  [("b", "x"); ("", "y"); ("#", "z");
   ("C", "0"); ("D", "1"); ("E", "2"); ("F", "3"); ("G", "4"); ("A", "5");
   ("B", "6")]%string.

(** [x[i]] for [i] equal to [0] or [-1]: the first or the last character,
    as a string. *)
Definition first_char (x : string) : result string :=
  match String.get 0 x with
  | Some c => Return (String c EmptyString)
  | None => Throw (Builtin IndexError)
  end.

Definition last_char (x : string) : result string :=
  match String.get (String.length x - 1) x with
  | Some c => Return (String c EmptyString)
  | None => Throw (Builtin IndexError)
  end.

(** [x[1:-1]] *)
Definition middle (x : string) : string :=
  substring 1 (String.length x - 2) x.

(** The sort key of [NOTE_NAMES]:
    [x[-1] + _note_order[x[0]] + _note_order[x[1:-1]]]. *)
Definition note_key (x : string) : result string :=
  octave <~ last_char x ;;
  letter <~ first_char x ;;
  l <~ getitem _note_order letter ;;
  a <~ getitem _note_order (middle x) ;;
  Return (octave ++ l ++ a)%string.

(** [sorted(l, key=...)] on items already paired with their keys: a stable
    sort by [<] on the keys. *)
Fixpoint insert_by_key (kx : string * string) (l : list (string * string))
  : list (string * string) :=
  match l with
  | [] => [kx]
  | ky :: l' =>
      if String.ltb (fst kx) (fst ky) then kx :: l
      else ky :: insert_by_key kx l'
  end.

Definition sort_by_key (l : list (string * string)) : list (string * string) :=
  fold_left (fun acc kx => insert_by_key kx acc) l [].

Definition sorted_by (key : string -> result string) (l : list string)
  : result (list string) :=
  keyed <~ mapR (fun x => k <~ key x ;; Return (k, x)) l ;;
  Return (map snd (sort_by_key keyed)).

Definition NOTE_NAMES : result (list string) := sorted_by note_key (map fst NOTE).

(** ** Playing without an object *)

(** [play_freq]; the call of [gen_custom_freq] passes no cutoff factor. *)
Definition play_freq (frequency : value) (seconds vol_factor fs : R)
    (bg_play : bool) (instrument instrument_strength : value) (dev : device)
  : device * outcome (option handle) :=
  match gen_custom_freq frequency seconds vol_factor fs instrument
                        instrument_strength Sound.default_cutoff_factor with
  | Raise e => (dev, Raise e)
  | Ok audio =>
      match play_buffer dev with
      | (dev, Raise e) => (dev, Raise e)
      | (dev, Ok play_obj) =>
          if bg_play then (dev, Ok (Some play_obj))
          else (handle_wait_done play_obj dev, Ok None)
      end
  end.

(** The buffer of [play_many_freq]: the buffers of the [(freq, sec, vol)]
    items one after the other. *)
Definition many_freq_audio (frequencies : list (value * R * R)) (fs : R)
    (instrument instrument_strength : value) : outcome (list Z) :=
  chunks <- mapM (fun fsv =>
                    gen_custom_freq (fst (fst fsv)) (snd (fst fsv)) (snd fsv) fs
                                    instrument instrument_strength
                                    Sound.default_cutoff_factor)
                 frequencies ;;
  Ok (concat chunks).

Definition play_many_freq (frequencies : list (value * R * R)) (fs : R)
    (bg_play : bool) (instrument instrument_strength : value) (dev : device)
  : device * outcome (option handle) :=
  match many_freq_audio frequencies fs instrument instrument_strength with
  | Raise e => (dev, Raise e)
  | Ok audio =>
      match play_buffer dev with
      | (dev, Raise e) => (dev, Raise e)
      | (dev, Ok play_obj) =>
          if bg_play then (dev, Ok (Some play_obj))
          else (handle_wait_done play_obj dev, Ok None)
      end
  end.

(** The buffer of [play_many_notes], with [NOTE[n]] for the frequency. *)
Definition many_notes_audio (notes : list (string * R * R)) (fs : R)
    (instrument instrument_strength : value) : result (list Z) :=
  chunks <~ mapR (fun nsv =>
                    q <~ getitem NOTE (fst (fst nsv)) ;;
                    lift (gen_custom_freq (VNum (Q2R q)) (snd (fst nsv)) (snd nsv)
                                          fs instrument instrument_strength
                                          Sound.default_cutoff_factor))
                 notes ;;
  Return (concat chunks).

Definition play_many_notes (notes : list (string * R * R)) (fs : R)
    (bg_play : bool) (instrument instrument_strength : value) (dev : device)
  : device * result (option handle) :=
  match many_notes_audio notes fs instrument instrument_strength with
  | Throw x => (dev, Throw x)
  | Return audio =>
      match play_buffer dev with
      | (dev, Raise e) => (dev, Throw (Builtin e))
      | (dev, Ok play_obj) =>
          if bg_play then (dev, Return (Some play_obj))
          else (handle_wait_done play_obj dev, Return None)
      end
  end.

(** [play_note]: [NOTE[note_name]] is evaluated first; [play_freq] is called
    with [bg_play=True] and the waiting is done here. *)
Definition play_note (note_name : string) (seconds vol_factor fs : R)
    (bg_play : bool) (instrument instrument_strength : value) (dev : device)
  : device * result (option handle) :=
  match getitem NOTE note_name with
  | Throw x => (dev, Throw x)
  | Return q =>
      match play_freq (VNum (Q2R q)) seconds vol_factor fs true instrument
                      instrument_strength dev with
      | (dev, Raise e) => (dev, Throw (Builtin e))
      | (dev, Ok None) =>
          if bg_play then (dev, Return None)
          else (dev, Throw (Builtin AttributeError))
      | (dev, Ok (Some play_obj)) =>
          if bg_play then (dev, Return (Some play_obj))
          else (handle_wait_done play_obj dev, Return None)
      end
  end.

(** ** The [*] operator *)

(** The right operand of [*]: an [int], or anything else. *)
Inductive factor : Type :=
| FInt (z : Z)
| FOther.

(** [Sound.__mul__]: [SoundSeq([self] * abs(factor))] for an [int], and
    [None] otherwise. *)
Definition Sound_mul (self : Sound.t) (f : factor) (dev : device)
  : device * outcome (option SoundSeq.t) :=
  match f with
  | FInt z =>
      match SoundSeq.init (repeat self (Z.to_nat (Z.abs z)))
                          SoundSeq.default_fs dev with
      | (dev, Ok q) => (dev, Ok (Some q))
      | (dev, Raise e) => (dev, Raise e)
      end
  | FOther => (dev, Ok None)
  end.

(** [SoundSeq.__mul__]: [SoundSeq(self.sounds * abs(factor))]. *)
Definition SoundSeq_mul (self : SoundSeq.t) (f : factor) (dev : device)
  : device * outcome (option SoundSeq.t) :=
  match f with
  | FInt z =>
      match SoundSeq.init (concat (repeat (SoundSeq.sounds self)
                                          (Z.to_nat (Z.abs z))))
                          SoundSeq.default_fs dev with
      | (dev, Ok q) => (dev, Ok (Some q))
      | (dev, Raise e) => (dev, Raise e)
      end
  | FOther => (dev, Ok None)
  end.

(** ** The tables of sounds

    The module builds [BASIC_SOUNDS] and [ORGAN_SOUNDS] when it cannot load
    them from its file; the loading and the saving are left out. *)

(** [{note: Sound(seconds=0.5, pitch=note, cutoff_factor=0.01,
    instrument=..., instrument_strength=1) for note in names}], as the list
    of its items. *)
Fixpoint sounds_for (instrument_ : value) (names : list string) (dev : device)
  : device * outcome (list (string * Sound.t)) :=
  match names with
  | [] => (dev, Ok [])
  | note :: rest =>
      match Sound.init (VStr note) (1 / 2) (1 / 5) 8000 None instrument_ (VNum 1)
                       (1 / 100) dev with
      | (dev, Raise e) => (dev, Raise e)
      | (dev, Ok s) =>
          match sounds_for instrument_ rest dev with
          | (dev, Ok l) => (dev, Ok ((note, s) :: l))
          | (dev, Raise e) => (dev, Raise e)
          end
      end
  end.

Definition sound_table (instrument_ : value) (dev : device)
  : device * result (list (string * Sound.t)) :=
  match NOTE_NAMES with
  | Throw x => (dev, Throw x)
  | Return names =>
      match sounds_for instrument_ names dev with
      | (dev, Ok l) => (dev, Return l)
      | (dev, Raise e) => (dev, Throw (Builtin e))
      end
  end.

Definition BASIC_SOUNDS : device -> device * result (list (string * Sound.t)) :=
  sound_table VNone.

Definition ORGAN_SOUNDS : device -> device * result (list (string * Sound.t)) :=
  sound_table (VNum 1).

(** ** The instrument: distance to note

    One pass of the loop of [collect_discrete_us_data] with the touch sensor
    pressed: the notes of [ORGAN_SOUNDS] whose [play] the reading [us_data]
    reaches, in order. *)

Definition Rltb (x y : R) : bool := if Rlt_dec x y then true else false.
Definition Rgeb (x y : R) : bool := if Rge_dec x y then true else false.

Definition triggered_notes (us_data : R) : list string :=
  (if Rltb us_data 6.5 && Rgeb us_data 2.5 then ["E4"%string] else []) ++
  (if Rltb us_data 14 && Rgeb us_data 6.5 then ["G4"%string] else []) ++
  (if Rltb us_data 21 && Rgeb us_data 14 then ["A4"%string] else []) ++
  (if Rltb us_data 28.25 && Rgeb us_data 21 then ["B4"%string] else []).

(** * Vocabulary of the properties *)

(** ** The note table *)

(** No string occurs twice. *)
Fixpoint distinct (l : list string) : bool :=
  match l with
  | [] => true
  | k :: l' => negb (existsb (String.eqb k) l') && distinct l'
  end.

(** The sharp and flat spellings of one pitch: the sharp of a letter and the
    flat of the next one, in the same octave.  The table has no [B#], [E#],
    [Cb] or [Fb]. *)
Definition enharmonic_letters : list (string * string) :=
  [("C", "D"); ("D", "E"); ("F", "G"); ("G", "A"); ("A", "B")]%string.

(** The octaves of the table. *)
Definition octaves : list string :=
  ["0"; "1"; "2"; "3"; "4"; "5"; "6"; "7"; "8"]%string.

Definition enharmonic_pairs : list (string * string) :=
  flat_map (fun o => map (fun p => (fst p ++ "#" ++ o, snd p ++ "b" ++ o)%string)
                         enharmonic_letters)
           octaves.

(** Two different keys of the table with the same entry. *)
Definition same_pitch (p : string * string) : bool :=
  negb (String.eqb (fst p) (snd p)) &&
  match NOTE_get (fst p), NOTE_get (snd p) with
  | Some a, Some b => Z.eqb (Qnum a) (Qnum b) && Pos.eqb (Qden a) (Qden b)
  | _, _ => false
  end.

(** ** Transport *)

(** The transport methods of the two classes are the same text; their effect
    on the handle an object holds and on the backend is told once, by
    [settle], [start] and [release]. *)

(** [if self.is_playing(): self.stop()] *)
Definition settle (p : option handle) (dev : device) : option handle * device :=
  match p with
  | Some h => if handle_is_playing h dev then (None, handle_stop h dev) else (p, dev)
  | None => (p, dev)
  end.

(** [play] *)
Definition start (p : option handle) (dev : device)
  : (option handle * device) * outcome unit :=
  let (p1, dev1) := settle p dev in
  match play_buffer dev1 with
  | (dev2, Ok h) => ((Some h, dev2), Ok tt)
  | (dev2, Raise e) => ((p1, dev2), Raise e)
  end.

(** [stop] ([how] is [ByStop]) and [wait_done] ([ByWaitDone]) *)
Definition release (how : ending) (p : option handle) (dev : device)
  : option handle * device :=
  match p with
  | Some h => (None, retire how h dev)
  | None => (p, dev)
  end.

(** What happens on the backend apart from the calls of the object under
    study: another client of the backend, such as another [Sound] of the
    instrument, submits a buffer of its own; a playback finishes, by
    reaching its end or because it is stopped or waited for; the backend
    starts or stops refusing buffers. *)
Inductive backend_step : Type :=
| OtherPlays
| PlaybackFinishes (how : ending) (h : handle)
| BackendRefuses (b : bool).

Definition backend_run (s : backend_step) (dev : device) : device :=
  match s with
  | OtherPlays => fst (play_buffer dev)
  | PlaybackFinishes how h => retire how h dev
  | BackendRefuses b => backend_refuses b dev
  end.

(** What may happen to a [Sound] and its backend, one step at a time. *)
Inductive sound_call : Type :=
| SPlay
| SStop
| SWaitDone
| SChangeDuration (seconds_ : R) (fs_ : option R)
| SBackend (s : backend_step).

Definition sound_step (st : Sound.t * device) (c : sound_call) : Sound.t * device :=
  let (self, dev) := st in
  match c with
  | SPlay => fst (Sound.play self dev)
  | SStop => Sound.stop self dev
  | SWaitDone => Sound.wait_done self dev
  | SChangeDuration s f => fst (Sound.change_duration self dev s f)
  | SBackend s => (self, backend_run s dev)
  end.

(** What may happen to a [SoundSeq] and its backend. *)
Inductive seq_call : Type :=
| QPlay
| QStop
| QWaitDone
| QChangeDuration
| QAppend (s : Sound.t)
| QBackend (s : backend_step).

Definition seq_step (st : SoundSeq.t * device) (c : seq_call) : SoundSeq.t * device :=
  let (self, dev) := st in
  match c with
  | QPlay => fst (SoundSeq.play self dev)
  | QStop => SoundSeq.stop self dev
  | QWaitDone => SoundSeq.wait_done self dev
  | QChangeDuration => fst (SoundSeq.change_duration self dev)
  | QAppend s => fst (SoundSeq.append self s dev)
  | QBackend s => (self, backend_run s dev)
  end.

(** The handles an object has held: [mine], and the one it holds now. *)
Definition held (p : option handle) (mine : list handle) : list handle :=
  match p with
  | Some h => h :: mine
  | None => mine
  end.

(** A step of a run together with the handles the object has held so far. *)
Definition sound_track (st : (Sound.t * device) * list handle) (c : sound_call)
  : (Sound.t * device) * list handle :=
  let st' := sound_step (fst st) c in
  (st', held (Sound.player (fst st')) (snd st)).

Definition seq_track (st : (SoundSeq.t * device) * list handle) (c : seq_call)
  : (SoundSeq.t * device) * list handle :=
  let st' := seq_step (fst st) c in
  (st', held (SoundSeq.player (fst st')) (snd st)).

(** The handles that play after the events of a history. *)
Fixpoint live (hist : list event) : list handle :=
  match hist with
  | [] => []
  | Started h :: past => h :: live past
  | Finished _ h :: past => remove Nat.eq_dec h (live past)
  end.

(** The handles of [l] that are among [mine]. *)
Definition owned (mine : list handle) (h : handle) : bool :=
  existsb (Nat.eqb h) mine.

Definition live_of (mine l : list handle) : list handle :=
  filter (owned mine) l.

(** At no moment of the history did two handles of [mine] play: after each
    of its events, at most one of them was live. *)
Fixpoint never_two (mine : list handle) (hist : list event) : Prop :=
  match hist with
  | [] => True
  | _ :: past => (length (live_of mine (live hist)) <= 1)%nat /\ never_two mine past
  end.

(** The events a [play] adds to the history, latest first, for an object
    that holds [p]: the stop of [p] when it plays, and then the start of
    the new playback unless the backend refuses the buffer. *)
Definition play_events (p : option handle) (dev : device) : list event :=
  (if refusing dev then [] else [Started (next_handle dev)]) ++
  match p with
  | Some h => if handle_is_playing h dev then [Finished ByStop h] else []
  | None => []
  end.

(** The invariant of an object that has held the handles [mine] and holds
    [p], on a backend it may share: the handles that play are those of the
    history, each once and each issued; the handles of the object were
    issued; the only one of them that may play is the one it holds; and no
    two of them ever played at the same moment. *)
Definition transport_ok (mine : list handle) (p : option handle) (dev : device)
  : Prop :=
  playing dev = live (history dev) /\
  NoDup (playing dev) /\
  (forall h, In (Started h) (history dev) -> (h < next_handle dev)%nat) /\
  (forall h, In h mine -> (h < next_handle dev)%nat) /\
  (forall h, p = Some h -> In h mine) /\
  (forall h, In h mine -> In h (playing dev) -> p = Some h) /\
  never_two mine (history dev).

(** A backend on which nothing plays yet. *)
Definition idle : device := mkDevice [] 0%nat false [].

(** ** Samples and their encoding *)

(** The envelope value the fade loop stores at its step [i]. *)
Definition ramp (cutoff : Z) (k : R) (i : Z) : R :=
  ln (IZR i / IZR cutoff * 7 + 1) * k.

(** The sample [s] scaled by the volume, truncated, and divided by the peak. *)
Definition scaled (vol_factor maximum s : R) : R :=
  IZR (py_int (s * vol_factor * (2 ^ 15 - 1))) / maximum.

(** The integer emitted for the sample [s] under the envelope value [d]. *)
Definition emitted (vol_factor maximum s d : R) : Z :=
  py_int (scaled vol_factor maximum s * d).

(** The range of a signed 16-bit number. *)
Definition int16 (v : Z) : Prop := (-32768 <= v <= 32767)%Z.

(** Two bytes read back as a signed little-endian number. *)
Definition from_bytes (lo hi : Z) : Z :=
  let u := (lo + 256 * hi)%Z in
  if (u <? 32768)%Z then u else (u - 65536)%Z.

(** The two bytes of [v], low byte first, in two's complement. *)
Definition le16 (v : Z) : list Z := [v mod 256; (v / 256) mod 256]%Z.

(** The formula of the specification: round to the nearest integer (ties to
    the even one, as [round] does), then clamp to 16 bits. *)
Definition py_round (x : R) : Z :=
  let f := Zfloor x in
  if Rlt_dec (x - IZR f) (1 / 2) then f
  else if Rlt_dec (1 / 2) (x - IZR f) then (f + 1)%Z
  else if Z.even f then f else (f + 1)%Z.

Definition clamp16 (v : Z) : Z := Z.max (-32768) (Z.min 32767 v).

Definition spec_emitted (vol_factor maximum s d : R) : Z :=
  clamp16 (py_round (s / maximum * vol_factor * d * 32767)).

(** ** Buffers and objects *)

(** The buffer of zeros that [change_duration] allocates. *)
Definition zeroed (self : Sound.t) : Prop :=
  Sound.audio self
    = repeat 0%Z (Z.to_nat (py_int (Sound.seconds self * Sound.fs self) * 2)).

(** The object [change_duration] hands to [update_audio]. *)
Definition resized (self : Sound.t) (seconds_ fs_ : R) : Sound.t :=
  Sound.mk (Sound.pitch self) (Sound.instrument self) (Sound.vol_factor self)
           (Sound.instrument_strength self) (Sound.cutoff_factor self)
           seconds_ fs_ (py_int (seconds_ * fs_))
           (repeat 0%Z (Z.to_nat (py_int (seconds_ * fs_) * 2))) None.

(** The buffer is what [gen_custom_freq] returns for the attributes the
    object holds now, the cutoff factor among them. *)
Definition consistent (self : Sound.t) : Prop :=
  exists p i,
    Sound.pitch self = Some p /\ Sound.instrument self = Some i /\
    gen_custom_freq p (Sound.seconds self) (Sound.vol_factor self) (Sound.fs self)
                    i (Sound.instrument_strength self) (Sound.cutoff_factor self)
      = Ok (Sound.audio self).

(** The same with the cutoff factor [update_audio] leaves at its default. *)
Definition regenerated (self : Sound.t) : Prop :=
  exists p i,
    Sound.pitch self = Some p /\ Sound.instrument self = Some i /\
    gen_custom_freq p (Sound.seconds self) (Sound.vol_factor self) (Sound.fs self)
                    i (Sound.instrument_strength self)
                    Sound.default_cutoff_factor
      = Ok (Sound.audio self).

(** [Sound(pitch=1, seconds=1, vol_factor=0.2, fs=4)] *)
Definition sound4 : Sound.t :=
  Sound.mk (Some (VNum 1)) (Some VNone) (1 / 5) (VNum 1) (1 / 100) 1 4 4
           [0; 0; 153; 25; 0; 0; 103; 230]%Z None.

(** [SoundSeq([], fs=5)] *)
Definition seq5 : SoundSeq.t := SoundSeq.mk [] [] 5 0 0 None.

(** ** The envelope *)

(** The constant [k] of the fade. *)
Definition fade_constant : R := (1 / 3) * (1 / ln 2).

(** The list [dynamics] after the fade loop of [gen_custom_freq], for [n]
    samples and [cutoff] steps. *)
Definition envelope (n cutoff : Z) : outcome (list R) :=
  fold_left (fade_step n cutoff fade_constant) (range cutoff)
            (Ok (map (fun _ => 1) (range n))).

(** The number of fade steps of a run. *)
Definition fade_steps (seconds fs cutoff_factor : R) : Z :=
  Z.min (py_int (seconds * fs)) (py_int (fs * cutoff_factor)).

(** The value the fade loop leaves at index [j] of [dynamics], for [n] items
    and [cutoff] steps.  Step [i] stores its ramp value at [n - 1 - i] and
    then at [i], and a later step overwrites an earlier one: of the steps
    [j] and [n - 1 - j], the last one the loop runs decides, and an index
    that no step reaches keeps its 1. *)
Definition fade (n cutoff j : Z) : R :=
  let near := Z.min j (n - 1 - j) in
  let far := Z.max j (n - 1 - j) in
  if (far <? cutoff)%Z then ramp cutoff fade_constant far
  else if (near <? cutoff)%Z then ramp cutoff fade_constant near
  else 1.

(** A byte. *)
Definition byte_range (b : Z) : Prop := (0 <= b < 256)%Z.

(** ** Sequences *)

(** The buffer of a sound has two bytes for each of its [size] samples, as
    [change_duration] leaves it. *)
Definition buffered (s : Sound.t) : Prop :=
  (0 <= Sound.size s)%Z /\
  length (Sound.audio s) = Z.to_nat (Sound.size s * 2).

Definition total_size (sounds : list Sound.t) : Z :=
  fold_left (fun acc s => (acc + Sound.size s)%Z) sounds 0%Z.

Definition total_seconds (sounds : list Sound.t) : R :=
  fold_left (fun acc s => acc + Sound.seconds s) sounds 0.

(** The sequence [SoundSeq(sounds, fs)] builds from buffered sounds. *)
Definition sequence_of (sounds : list Sound.t) (fs : R) : SoundSeq.t :=
  SoundSeq.mk sounds (concat (map Sound.audio sounds)) fs (total_size sounds)
              (total_seconds sounds) None.

(** The handles that play were all issued by the backend. *)
Definition device_ok (dev : device) : Prop :=
  Forall (fun h => (h < next_handle dev)%nat) (playing dev).

(** ** Pitch order *)

(** The note [a] is not higher than the note [b]. *)
Definition pitch_le (a b : string) : Prop :=
  exists fa fb, NOTE_get a = Some fa /\ NOTE_get b = Some fb /\ (fa <= fb)%Q.

(** The key of [a] sorts before the key of [b]. *)
Definition key_lt (a b : string) : Prop :=
  exists ka kb, note_key a = Return ka /\ note_key b = Return kb /\
                String.ltb ka kb = true.

(** ** Runs and objects *)

(** The modulated instrument of a run: a number, or a note of the table. *)
Definition modulated (instrument : value) : Prop :=
  match instrument with
  | VNum _ => True
  | VStr s => NOTE_get s <> None
  | VNone => False
  end.

(** The attribute [set_pitch] leaves on a new object. *)
Definition pitch_of (pitch_ : value) : option value :=
  Sound.pitch (Sound.set_pitch Sound.blank pitch_).

(** The attribute [set_instrument] leaves on a new object. *)
Definition instrument_of (instrument_ : value) : option value :=
  Sound.instrument (Sound.set_instrument Sound.blank instrument_).

(** The object [__init__] hands to [change_duration]. *)
Definition prepared (pitch_ : value) (seconds_ vol_factor_ fs_ : R)
    (instrument_ k : value) (cutoff_factor_ : R) : Sound.t :=
  Sound.mk (pitch_of pitch_) (instrument_of instrument_) vol_factor_ k
           cutoff_factor_ seconds_ fs_ 0 [] None.

(** The samples of a list of [(freq, sec, vol)] items at the rate [fs]. *)
Definition many_samples (frequencies : list (value * R * R)) (fs : R) : Z :=
  fold_right (fun fsv acc => (py_int (snd (fst fsv) * fs) + acc)%Z) 0%Z
             frequencies.

(** The items of [play_many_notes] with the note names replaced by their
    frequencies, when every name is a key of the note table. *)
Fixpoint notes_as_freqs (notes : list (string * R * R))
  : option (list (value * R * R)) :=
  match notes with
  | [] => Some []
  | (n, s, v) :: rest =>
      match NOTE_get n, notes_as_freqs rest with
      | Some q, Some l => Some ((VNum (Q2R q), s, v) :: l)
      | _, _ => None
      end
  end.

(** ** Tests on the note table *)

(** Every item of the list is in the relation with every later one. *)
Fixpoint ascending {A : Type} (r : A -> A -> bool) (l : list A) : bool :=
  match l with
  | [] => true
  | a :: l' => forallb (r a) l' && ascending r l'
  end.

(** [key_lt] and [pitch_le] as tests. *)
Definition key_ltb (a b : string) : bool :=
  match note_key a, note_key b with
  | Return ka, Return kb => String.ltb ka kb
  | _, _ => false
  end.

Definition pitch_leb (a b : string) : bool :=
  match NOTE_get a, NOTE_get b with
  | Some fa, Some fb => Qle_bool fa fb
  | _, _ => false
  end.

(** A frequency that is not strictly between 0 and 8000, or is 4000. *)
Definition out_of_band (q : Q) : bool :=
  (Qle_bool q 0 || Qle_bool 8000 q || Qeq_bool q 4000)%bool.

(** * Properties *)

(** ** The note table *)

Lemma distinct_NoDup (l : list string) : distinct l = true -> NoDup l.
Proof.
  induction l as [|k l IH]; simpl; intros H.
  - constructor.
  - apply andb_prop in H as [Hk Hl].
    constructor; [|now apply IH].
    intros Hin.
    assert (E : existsb (String.eqb k) l = true).
    { apply existsb_exists. exists k. split; [assumption|apply String.eqb_refl]. }
    rewrite E in Hk. discriminate.
Qed.

Lemma assoc_In (k : string) (v : Q) (d : list (string * Q)) :
  NoDup (map fst d) -> In (k, v) d -> assoc k d = Some v.
Proof.
  induction d as [|[k' v'] d IH]; simpl; intros Hnd Hin; [contradiction|].
  inversion Hnd as [|? ? Hk Hd]; subst.
  destruct Hin as [E|Hin].
  - inversion E; subst. now rewrite String.eqb_refl.
  - destruct (String.eqb_spec k k') as [->|_].
    + exfalso. apply Hk. change k' with (fst (k', v)). now apply in_map.
    + now apply IH.
Qed.

(** C8. [NOTE["A4"]] is 440.0; [NOTE["Bb4"]] and [NOTE["A#4"]] are both
    466.16; the sharp and the flat spelling of a pitch are two different keys
    with one frequency, in every octave of the table; no key occurs twice,
    so each name has exactly the one frequency written next to it. *)
Theorem note_table_enharmonic :
  NOTE_get "A4" = Some 440.00%Q /\
  (440.00 == 440.0)%Q /\
  NOTE_get "Bb4" = Some 466.16%Q /\
  NOTE_get "A#4" = Some 466.16%Q /\
  Forall (fun p => fst p <> snd p /\
                   exists f, NOTE_get (fst p) = Some f /\
                             NOTE_get (snd p) = Some f)
         enharmonic_pairs /\
  length enharmonic_pairs = 45%nat /\
  NoDup (map fst NOTE) /\
  (forall k v, In (k, v) NOTE -> NOTE_get k = Some v).
Proof.
  assert (Hnd : NoDup (map fst NOTE)) by (apply distinct_NoDup; vm_compute; reflexivity).
  repeat split; try reflexivity; try assumption.
  - assert (H : forallb same_pitch enharmonic_pairs = true) by (vm_compute; reflexivity).
    rewrite forallb_forall in H. apply Forall_forall. intros p Hp.
    specialize (H p Hp). unfold same_pitch in H.
    apply andb_prop in H as [Hne Heq]. split.
    + intros E. rewrite E, String.eqb_refl in Hne. discriminate.
    + destruct (NOTE_get (fst p)) as [a|]; [|discriminate].
      destruct (NOTE_get (snd p)) as [b|]; [|discriminate].
      exists a. split; [reflexivity|].
      apply andb_prop in Heq as [Gn Gd].
      apply Z.eqb_eq in Gn. apply Pos.eqb_eq in Gd.
      destruct a, b; simpl in *. now subst.
  - intros k v Hin. now apply assoc_In.
Qed.

(** ** Setters and unknown note names *)

(** C10. [set_pitch] and [set_instrument] called with a string that is not
    a key of [NOTE] assign nothing: the object they return is the object
    they received, [pitch] and [instrument] included, and no exception is
    raised (the setters are total functions on objects). *)
Theorem setters_ignore_unknown_note (self : Sound.t) (name : string) :
  NOTE_get name = None ->
  Sound.set_pitch self (VStr name) = self /\
  Sound.set_instrument self (VStr name) = self.
Proof.
  intros H. unfold Sound.set_pitch, Sound.set_instrument. now rewrite H.
Qed.

Lemma setters_ignore_unknown_note_witness :
  NOTE_get "H2" = None /\
  Sound.set_pitch Sound.blank (VStr "H2") = Sound.blank /\
  Sound.set_instrument Sound.blank (VStr "H2") = Sound.blank.
Proof.
  split; [reflexivity|].
  apply (setters_ignore_unknown_note Sound.blank "H2"). reflexivity.
Defined.

(** ** Composition with [+] *)

(** C5. A [SoundSeq] on the left of [+] and a [Sound] on the right raise
    [TypeError]: so does [(A + B) + C] for three sounds, whatever [A + B]
    evaluated to. *)
Theorem seq_plus_sound_raises (ab : SoundSeq.t) (c : Sound.t) (dev : device) :
  add (OSeq ab) (OSound c) dev = (dev, Raise TypeError).
Proof. reflexivity. Qed.

(** ** Transport *)

Lemma owned_In (mine : list handle) (h : handle) :
  owned mine h = true <-> In h mine.
Proof.
  unfold owned. rewrite existsb_exists. split.
  - intros [x [Hx E]]. apply Nat.eqb_eq in E. now subst.
  - intros H. exists h. split; [assumption|apply Nat.eqb_refl].
Qed.

Lemma owned_not_In (mine : list handle) (h : handle) :
  ~ In h mine -> owned mine h = false.
Proof.
  intros H. destruct (owned mine h) eqn:E; [|reflexivity].
  apply owned_In in E. contradiction.
Qed.

Lemma live_of_In (mine l : list handle) (h : handle) :
  In h (live_of mine l) <-> In h mine /\ In h l.
Proof. unfold live_of. rewrite filter_In, owned_In. tauto. Qed.

Lemma handle_is_playing_In (h : handle) (dev : device) :
  handle_is_playing h dev = true <-> In h (playing dev).
Proof. apply (owned_In (playing dev) h). Qed.

Lemma handle_not_playing (h : handle) (dev : device) :
  ~ In h (playing dev) -> handle_is_playing h dev = false.
Proof. apply (@owned_not_In (playing dev) h). Qed.

(** A handle that plays was started. *)
Lemma live_started (hist : list event) (h : handle) :
  In h (live hist) -> In (Started h) hist.
Proof.
  induction hist as [|[h'|how h'] past IH]; simpl; intros H.
  - contradiction.
  - destruct H as [->|H]; auto.
  - apply in_remove in H as [H _]. auto.
Qed.

Lemma live_of_fresh (mine l : list handle) (x : handle) :
  ~ In x l -> live_of (x :: mine) l = live_of mine l.
Proof.
  intros H. unfold live_of. apply filter_ext_in. intros h Hh.
  unfold owned. simpl.
  destruct (Nat.eqb_spec h x); [subst; contradiction|reflexivity].
Qed.

Lemma live_of_same (mine mine' l : list handle) :
  (forall h, In h mine' <-> In h mine) -> live_of mine' l = live_of mine l.
Proof.
  intros H. unfold live_of. apply filter_ext. intros h.
  apply Bool.eq_iff_eq_true. rewrite !owned_In. apply H.
Qed.

Lemma live_of_remove (mine : list handle) (h : handle) (l : list handle) :
  (length (live_of mine (remove Nat.eq_dec h l)) <= length (live_of mine l))%nat.
Proof.
  unfold live_of. induction l as [|x l IH]; simpl; [lia|].
  destruct (Nat.eq_dec h x); simpl; destruct (owned mine x); simpl; lia.
Qed.

Lemma single_length (l : list handle) (h : handle) :
  NoDup l -> (forall x, In x l -> x = h) -> (length l <= 1)%nat.
Proof.
  intros N H. destruct l as [|a [|b l]]; simpl; try lia.
  exfalso. inversion N as [|? ? Na _]; subst. apply Na. left.
  rewrite (H a), (H b); simpl; auto.
Qed.

(** When the only handle of the object that may play is the one it holds,
    at most one of its handles plays. *)
Lemma live_of_held (mine : list handle) (p : option handle) (l : list handle) :
  NoDup l -> (forall h, In h mine -> In h l -> p = Some h) ->
  (length (live_of mine l) <= 1)%nat.
Proof.
  intros N H. destruct p as [h0|].
  - apply single_length with h0.
    + now apply NoDup_filter.
    + intros x Hx. apply live_of_In in Hx as [Hm Hl].
      specialize (H x Hm Hl). now inversion H.
  - destruct (live_of mine l) as [|x r] eqn:E; [simpl; lia|]. exfalso.
    assert (Hx : In x (live_of mine l)) by (rewrite E; now left).
    apply live_of_In in Hx as [Hm Hl]. specialize (H x Hm Hl). discriminate.
Qed.

Lemma filter_none {A : Type} (f : A -> bool) (l : list A) :
  (forall x, In x l -> f x = false) -> filter f l = [].
Proof.
  induction l as [|a l IH]; intros H; simpl; [reflexivity|].
  rewrite (H a) by now left. apply IH. intros x Hx. apply H. now right.
Qed.

Lemma NoDup_remove_handle (h : handle) (l : list handle) :
  NoDup l -> NoDup (remove Nat.eq_dec h l).
Proof.
  induction 1 as [|x l Hx N IH]; simpl; [constructor|].
  destruct (Nat.eq_dec h x); [assumption|].
  constructor; [|assumption]. intros Hin. apply in_remove in Hin as [Hin _].
  contradiction.
Qed.

(** A handle that no event of the history started can join [mine]. *)
Lemma never_two_fresh (mine : list handle) (hist : list event) (x : handle) :
  (forall h, In (Started h) hist -> h <> x) ->
  never_two mine hist -> never_two (x :: mine) hist.
Proof.
  induction hist as [|e past IH]; intros Hf H; [exact I|].
  destruct H as [H1 H2]. split.
  - rewrite live_of_fresh; [assumption|].
    intros Hin. apply live_started in Hin. now apply (Hf x).
  - apply IH; [|assumption]. intros h Hh. apply Hf. now right.
Qed.

Lemma never_two_same (mine mine' : list handle) (hist : list event) :
  (forall h, In h mine' <-> In h mine) ->
  never_two mine hist -> never_two mine' hist.
Proof.
  intros S. induction hist as [|e past IH]; intros H; [exact I|].
  destruct H as [H1 H2]. split; [|auto].
  now rewrite (@live_of_same mine mine' _ S).
Qed.

(** *** The invariant *)

Lemma transport_ok_new (n : handle) (b : bool) :
  transport_ok [] None (mkDevice [] n b []).
Proof.
  unfold transport_ok. cbn [playing next_handle history].
  split; [reflexivity|]. split; [constructor|].
  split; [intros h []|]. split; [intros h []|].
  split; [discriminate|]. split; [intros h []|exact I].
Qed.

Lemma transport_ok_same (mine mine' : list handle) (p : option handle)
    (dev : device) :
  (forall h, In h mine' <-> In h mine) ->
  transport_ok mine p dev -> transport_ok mine' p dev.
Proof.
  intros S [E [N [Hs [Hm [Hp [Hl T]]]]]].
  split; [assumption|]. split; [assumption|]. split; [assumption|].
  split; [intros h Hh; apply Hm; now apply S|].
  split; [intros h Hh; apply S; now apply Hp|].
  split; [intros h Hh; apply Hl; now apply S|].
  now apply (@never_two_same mine mine' _ S).
Qed.

Lemma transport_ok_held (mine : list handle) (p : option handle) (dev : device) :
  transport_ok mine p dev -> transport_ok (held p mine) p dev.
Proof.
  intros H. apply transport_ok_same with mine; [|assumption].
  destruct H as [_ [_ [_ [_ [Hp _]]]]].
  destruct p as [h0|]; simpl; [|tauto].
  intros h. split; [|now right].
  intros [<-|Hh]; [now apply Hp|assumption].
Qed.

(** Nothing of the object plays: it may as well hold no handle. *)
Lemma transport_ok_drop (mine : list handle) (p : option handle) (dev : device) :
  transport_ok mine p dev ->
  (forall h, In h mine -> ~ In h (playing dev)) ->
  transport_ok mine None dev.
Proof.
  intros [E [N [Hs [Hm [Hp [Hl T]]]]]] Hn.
  split; [assumption|]. split; [assumption|]. split; [assumption|].
  split; [assumption|]. split; [discriminate|]. split; [|assumption].
  intros h Hh Hin. exfalso. now apply (Hn h).
Qed.

Lemma transport_ok_retire (mine : list handle) (p : option handle)
    (how : ending) (h : handle) (dev : device) :
  transport_ok mine p dev -> transport_ok mine p (retire how h dev).
Proof.
  intros [E [N [Hs [Hm [Hp [Hl T]]]]]].
  unfold transport_ok, retire. cbn [playing next_handle history].
  split; [cbn [live]; now rewrite E|].
  split; [now apply NoDup_remove_handle|].
  split; [intros x [Hx|Hx]; [discriminate|now apply Hs]|].
  split; [assumption|]. split; [assumption|]. split.
  - intros x Hx Hin. apply in_remove in Hin as [Hin _]. now apply Hl.
  - split; [|assumption]. cbn [live].
    eapply Nat.le_trans; [apply live_of_remove|].
    rewrite <- E. now apply live_of_held with p.
Qed.

Lemma transport_ok_refuses (mine : list handle) (p : option handle) (b : bool)
    (dev : device) :
  transport_ok mine p dev -> transport_ok mine p (backend_refuses b dev).
Proof. intros H. exact H. Qed.

(** A handle of the object that is retired while the object holds it. *)
Lemma release_ok (mine : list handle) (how : ending) (p : option handle)
    (dev : device) :
  transport_ok mine p dev ->
  let st := release how p dev in
  fst st = None /\ transport_ok mine None (snd st) /\
  (forall h, In h mine -> ~ In h (playing (snd st))).
Proof.
  intros H. unfold release. destruct p as [h0|]; cbn [fst snd].
  - assert (Hn : forall h, In h mine -> ~ In h (playing (retire how h0 dev))).
    { intros h Hh Hin. cbn [retire playing] in Hin.
      apply in_remove in Hin as [Hin Ne].
      destruct H as [_ [_ [_ [_ [_ [Hl _]]]]]].
      specialize (Hl h Hh Hin). inversion Hl. congruence. }
    split; [reflexivity|]. split; [|assumption].
    apply transport_ok_drop with (Some h0); [|assumption].
    now apply transport_ok_retire.
  - split; [reflexivity|]. split; [assumption|].
    intros h Hh Hin. destruct H as [_ [_ [_ [_ [_ [Hl _]]]]]].
    specialize (Hl h Hh Hin). discriminate.
Qed.

(** After [if self.is_playing(): self.stop()] no handle of the object
    plays. *)
Lemma settle_ok (mine : list handle) (p : option handle) (dev : device) :
  transport_ok mine p dev ->
  let st := settle p dev in
  transport_ok mine (fst st) (snd st) /\
  (forall h, In h mine -> ~ In h (playing (snd st))) /\
  next_handle (snd st) = next_handle dev /\ refusing (snd st) = refusing dev /\
  history (snd st)
    = match p with
      | Some h => if handle_is_playing h dev then [Finished ByStop h] else []
      | None => []
      end ++ history dev.
Proof.
  intros H. unfold settle. destruct p as [h0|].
  - destruct (handle_is_playing h0 dev) eqn:E; cbn [fst snd].
    + destruct (release_ok ByStop H) as [_ [R1 R2]].
      split; [exact R1|]. split; [exact R2|]. now repeat split.
    + split; [assumption|]. split; [|now repeat split].
      intros h Hh Hin. destruct H as [_ [_ [_ [_ [_ [Hl _]]]]]].
      specialize (Hl h Hh Hin). inversion Hl; subst h0.
      apply handle_is_playing_In in Hin. congruence.
  - cbn [fst snd]. split; [assumption|]. split; [|now repeat split].
    intros h Hh Hin. destruct H as [_ [_ [_ [_ [_ [Hl _]]]]]].
    specialize (Hl h Hh Hin). discriminate.
Qed.

(** The object submits a buffer while none of its handles plays. *)
Lemma submit_ok (mine : list handle) (p : option handle) (dev : device) :
  transport_ok mine p dev ->
  (forall h, In h mine -> ~ In h (playing dev)) ->
  let dev' := mkDevice (next_handle dev :: playing dev) (S (next_handle dev))
                       false (Started (next_handle dev) :: history dev) in
  transport_ok (next_handle dev :: mine) (Some (next_handle dev)) dev' /\
  live_of (next_handle dev :: mine) (playing dev') = [next_handle dev].
Proof.
  intros [E [N [Hs [Hm [Hp [Hl T]]]]]] Hn dev'. subst dev'.
  set (nh := next_handle dev).
  assert (Hf : ~ In nh (playing dev)).
  { intros Hin. rewrite E in Hin. apply live_started, Hs in Hin. unfold nh in Hin. lia. }
  assert (Hone : live_of (nh :: mine) (nh :: playing dev) = [nh]).
  { unfold live_of. cbn [filter]. unfold owned at 1. cbn [existsb].
    rewrite Nat.eqb_refl. cbn [orb]. f_equal. apply filter_none.
    intros x Hx. apply owned_not_In. intros [<-|Hm']; [contradiction|].
    now apply (Hn x). }
  split; [|exact Hone].
  unfold transport_ok. cbn [playing next_handle history].
  split; [cbn [live]; now rewrite E|].
  split; [now constructor|].
  split; [intros x [Hx|Hx]; [inversion Hx; lia|apply Hs in Hx; fold nh in Hx; lia]|].
  split; [intros x [<-|Hx]; [lia|apply Hm in Hx; fold nh in Hx; lia]|].
  split; [intros x Hx; inversion Hx; now left|].
  split.
  - intros x [<-|Hx] Hin; [reflexivity|].
    destruct Hin as [<-|Hin]; [reflexivity|]. exfalso. now apply (Hn x).
  - split.
    + cbn [live]. rewrite <- E, Hone. simpl. lia.
    + apply never_two_fresh; [|assumption].
      intros h Hh. apply Hs in Hh. fold nh in Hh. lia.
Qed.

(** Another client submits a buffer. *)
Lemma other_plays_ok (mine : list handle) (p : option handle) (dev : device) :
  transport_ok mine p dev -> transport_ok mine p (fst (play_buffer dev)).
Proof.
  intros H. unfold play_buffer. destruct (refusing dev); [exact H|].
  destruct H as [E [N [Hs [Hm [Hp [Hl T]]]]]]. cbn [fst].
  set (nh := next_handle dev).
  assert (Hf : ~ In nh (playing dev)).
  { intros Hin. rewrite E in Hin. apply live_started, Hs in Hin. unfold nh in Hin. lia. }
  assert (Ho : ~ In nh mine).
  { intros Hin. apply Hm in Hin. unfold nh in Hin. lia. }
  unfold transport_ok. cbn [playing next_handle history].
  split; [cbn [live]; now rewrite E|].
  split; [now constructor|].
  split; [intros x [Hx|Hx]; [inversion Hx; lia|apply Hs in Hx; fold nh in Hx; lia]|].
  split; [intros x Hx; apply Hm in Hx; fold nh in Hx; lia|].
  split; [assumption|]. split.
  - intros x Hx [<-|Hin]; [contradiction|now apply Hl].
  - split; [|assumption]. cbn [live]. unfold live_of. cbn [filter].
    rewrite (owned_not_In _ _ Ho). rewrite <- E.
    now apply live_of_held with p.
Qed.

Lemma backend_run_ok (mine : list handle) (p : option handle) (s : backend_step)
    (dev : device) :
  transport_ok mine p dev -> transport_ok mine p (backend_run s dev).
Proof.
  intros H. destruct s as [|how h|b]; cbn [backend_run].
  - now apply other_plays_ok.
  - now apply transport_ok_retire.
  - now apply transport_ok_refuses.
Qed.

(** [play], told on the handle: the handle held before is silent
    afterwards; when the call returns the new handle is the only one of the
    object that plays; the call returns when the backend accepts the
    buffer; and the stop of the handle held before comes before the start
    of the new playback. *)
Lemma start_ok (mine : list handle) (p : option handle) (dev : device) :
  transport_ok mine p dev ->
  let r := start p dev in
  transport_ok (held (fst (fst r)) mine) (fst (fst r)) (snd (fst r)) /\
  (forall h, p = Some h -> handle_is_playing h (snd (fst r)) = false) /\
  (snd r = Ok tt ->
   exists h, fst (fst r) = Some h /\
             live_of (h :: mine) (playing (snd (fst r))) = [h]) /\
  (refusing dev = false -> snd r = Ok tt) /\
  history (snd (fst r)) = play_events p dev ++ history dev.
Proof.
  intros H. pose proof (settle_ok H) as S.
  assert (Hp : forall h, p = Some h -> In h mine)
    by (destruct H as [_ [_ [_ [_ [Hp _]]]]]; exact Hp).
  assert (Hm : forall h, In h mine -> (h < next_handle dev)%nat)
    by (destruct H as [_ [_ [_ [Hm _]]]]; exact Hm).
  unfold start, play_events. destruct (settle p dev) as [p1 dev1].
  cbn [fst snd] in S. destruct S as [S1 [S2 [Sn [Sr Sh]]]].
  unfold play_buffer. rewrite Sr, Sn.
  destruct (refusing dev) eqn:Er; cbn [fst snd].
  - split; [now apply transport_ok_held|].
    split; [|split; [discriminate|split; [discriminate|exact Sh]]].
    intros h Eh. apply handle_not_playing, S2, Hp, Eh.
  - destruct (submit_ok S1 S2) as [B1 B2]. rewrite Sn in B1, B2.
    split; [exact B1|]. split; [|split; [|split]].
    + intros h Eh. apply handle_not_playing. cbn [playing].
      intros [E|Hin].
      * apply Hp, Hm in Eh. lia.
      * now apply (S2 h (Hp h Eh)).
    + intros _. exists (next_handle dev). split; [reflexivity|exact B2].
    + reflexivity.
    + cbn [history]. rewrite Sh. reflexivity.
Qed.

(** *** The methods of [Sound], told on the handle *)

Lemma sound_settle (self : Sound.t) (dev : device) :
  let st := if Sound.is_playing self dev then Sound.stop self dev
            else (self, dev) in
  Sound.player (fst st) = fst (settle (Sound.player self) dev) /\
  snd st = snd (settle (Sound.player self) dev).
Proof.
  unfold Sound.is_playing, Sound.stop, settle.
  destruct (Sound.player self) as [h|] eqn:E; simpl.
  - destruct (handle_is_playing h dev); simpl; auto.
  - auto.
Qed.

Lemma sound_play_start (self : Sound.t) (dev : device) :
  let r := Sound.play self dev in
  Sound.player (fst (fst r)) = fst (fst (start (Sound.player self) dev)) /\
  snd (fst r) = snd (fst (start (Sound.player self) dev)) /\
  snd r = snd (start (Sound.player self) dev).
Proof.
  unfold Sound.play, start.
  destruct (sound_settle self dev) as [Hp Hd].
  destruct (if Sound.is_playing self dev then _ else _) as [self1 dev1].
  destruct (settle (Sound.player self) dev) as [p1 d1].
  simpl in Hp, Hd. subst p1 d1.
  destruct (play_buffer dev1) as [dev2 [h|e]]; simpl; auto.
Qed.

Lemma sound_release (self : Sound.t) (dev : device) :
  Sound.player (fst (Sound.stop self dev))
    = fst (release ByStop (Sound.player self) dev) /\
  snd (Sound.stop self dev) = snd (release ByStop (Sound.player self) dev) /\
  Sound.player (fst (Sound.wait_done self dev))
    = fst (release ByWaitDone (Sound.player self) dev) /\
  snd (Sound.wait_done self dev)
    = snd (release ByWaitDone (Sound.player self) dev).
Proof.
  unfold Sound.stop, Sound.wait_done, release.
  destruct (Sound.player self) as [h|] eqn:E; simpl; auto.
Qed.

Lemma sound_update_audio_player (self : Sound.t) :
  Sound.player (fst (Sound.update_audio self)) = Sound.player self.
Proof.
  unfold Sound.update_audio.
  destruct (bind _ _) as [new_audio|e]; [|reflexivity].
  now destruct (store_from _ _ _) as [a [[]|e]].
Qed.

Lemma sound_change_duration_settles (self : Sound.t) (dev : device)
    (seconds_ : R) (fs_ : option R) :
  let st := fst (Sound.change_duration self dev seconds_ fs_) in
  Sound.player (fst st) = None /\
  snd st = snd (settle (Sound.player self) dev).
Proof.
  unfold Sound.change_duration.
  destruct (sound_settle self dev) as [_ Hd].
  destruct (if Sound.is_playing self dev then _ else _) as [self1 dev1].
  cbn [snd] in Hd.
  destruct (bytearray _) as [zeros|e]; simpl; [|auto].
  match goal with |- context [Sound.update_audio ?s] =>
    pose proof (sound_update_audio_player s) as U;
    destruct (Sound.update_audio s) as [s2 [a|e]] end; simpl in *; auto.
Qed.

Lemma sound_track_ok (st : (Sound.t * device) * list handle) (c : sound_call) :
  transport_ok (snd st) (Sound.player (fst (fst st))) (snd (fst st)) ->
  let st' := sound_track st c in
  transport_ok (snd st') (Sound.player (fst (fst st'))) (snd (fst st')).
Proof.
  destruct st as [[self dev] mine]. cbn [fst snd]. intros H.
  unfold sound_track. cbn [fst snd sound_step].
  destruct c as [| | |s f|s]; cbn [fst snd].
  - destruct (sound_play_start self dev) as [Ep [Ed _]]. rewrite Ep, Ed.
    now apply start_ok.
  - destruct (sound_release self dev) as [Ep [Ed _]].
    destruct (release_ok ByStop H) as [Rp [Rd _]]. rewrite Ep, Ed, Rp.
    exact Rd.
  - destruct (sound_release self dev) as [_ [_ [Ep Ed]]].
    destruct (release_ok ByWaitDone H) as [Rp [Rd _]]. rewrite Ep, Ed, Rp.
    exact Rd.
  - destruct (sound_change_duration_settles self dev s f) as [Ep Ed].
    rewrite Ep, Ed. destruct (settle_ok H) as [S1 [S2 _]].
    now apply transport_ok_drop with (fst (settle (Sound.player self) dev)).
  - apply transport_ok_held. now apply backend_run_ok.
Qed.

Lemma sound_run_ok (calls : list sound_call)
    (st : (Sound.t * device) * list handle) :
  transport_ok (snd st) (Sound.player (fst (fst st))) (snd (fst st)) ->
  let st' := fold_left sound_track calls st in
  transport_ok (snd st') (Sound.player (fst (fst st'))) (snd (fst st')).
Proof.
  revert st. induction calls as [|c calls IH]; intros st H; simpl; [assumption|].
  apply IH. now apply sound_track_ok.
Qed.

(** *** The methods of [SoundSeq], told on the handle *)

Lemma seq_settle (self : SoundSeq.t) (dev : device) :
  let st := if SoundSeq.is_playing self dev then SoundSeq.stop self dev
            else (self, dev) in
  SoundSeq.player (fst st) = fst (settle (SoundSeq.player self) dev) /\
  snd st = snd (settle (SoundSeq.player self) dev).
Proof.
  unfold SoundSeq.is_playing, SoundSeq.stop, settle.
  destruct (SoundSeq.player self) as [h|] eqn:E; simpl.
  - destruct (handle_is_playing h dev); simpl; auto.
  - auto.
Qed.

Lemma seq_play_start (self : SoundSeq.t) (dev : device) :
  let r := SoundSeq.play self dev in
  SoundSeq.player (fst (fst r)) = fst (fst (start (SoundSeq.player self) dev)) /\
  snd (fst r) = snd (fst (start (SoundSeq.player self) dev)) /\
  snd r = snd (start (SoundSeq.player self) dev).
Proof.
  unfold SoundSeq.play, start.
  destruct (seq_settle self dev) as [Hp Hd].
  destruct (if SoundSeq.is_playing self dev then _ else _) as [self1 dev1].
  destruct (settle (SoundSeq.player self) dev) as [p1 d1].
  simpl in Hp, Hd. subst p1 d1.
  destruct (play_buffer dev1) as [dev2 [h|e]]; simpl; auto.
Qed.

Lemma seq_release (self : SoundSeq.t) (dev : device) :
  SoundSeq.player (fst (SoundSeq.stop self dev))
    = fst (release ByStop (SoundSeq.player self) dev) /\
  snd (SoundSeq.stop self dev) = snd (release ByStop (SoundSeq.player self) dev) /\
  SoundSeq.player (fst (SoundSeq.wait_done self dev))
    = fst (release ByWaitDone (SoundSeq.player self) dev) /\
  snd (SoundSeq.wait_done self dev)
    = snd (release ByWaitDone (SoundSeq.player self) dev).
Proof.
  unfold SoundSeq.stop, SoundSeq.wait_done, release.
  destruct (SoundSeq.player self) as [h|] eqn:E; simpl; auto.
Qed.

Lemma seq_update_audio_player (self : SoundSeq.t) :
  SoundSeq.player (fst (SoundSeq.update_audio self)) = SoundSeq.player self.
Proof.
  unfold SoundSeq.update_audio.
  now destruct (store_from _ _ _) as [a [[]|e]].
Qed.

Lemma seq_change_duration_settles (self : SoundSeq.t) (dev : device) :
  let st := fst (SoundSeq.change_duration self dev) in
  SoundSeq.player (fst st) = fst (settle (SoundSeq.player self) dev) /\
  snd st = snd (settle (SoundSeq.player self) dev).
Proof.
  unfold SoundSeq.change_duration.
  destruct (seq_settle self dev) as [Hp Hd].
  destruct (if SoundSeq.is_playing self dev then _ else _) as [self1 dev1].
  cbn [fst snd] in Hp, Hd.
  destruct (bytearray _) as [zeros|e]; simpl; [|auto].
  match goal with |- context [SoundSeq.update_audio ?s] =>
    pose proof (seq_update_audio_player s) as U;
    destruct (SoundSeq.update_audio s) as [s2 [a|e]] end; simpl in *;
    rewrite U; auto.
Qed.

Lemma seq_track_ok (st : (SoundSeq.t * device) * list handle) (c : seq_call) :
  transport_ok (snd st) (SoundSeq.player (fst (fst st))) (snd (fst st)) ->
  let st' := seq_track st c in
  transport_ok (snd st') (SoundSeq.player (fst (fst st'))) (snd (fst st')).
Proof.
  destruct st as [[self dev] mine]. cbn [fst snd]. intros H.
  assert (C : forall self0, SoundSeq.player self0 = SoundSeq.player self ->
            let st := fst (SoundSeq.change_duration self0 dev) in
            transport_ok (held (SoundSeq.player (fst st)) mine)
                         (SoundSeq.player (fst st)) (snd st)).
  { intros self0 E0. destruct (seq_change_duration_settles self0 dev) as [Ep Ed].
    cbn zeta. rewrite Ep, Ed, E0. destruct (settle_ok H) as [S1 _].
    now apply transport_ok_held. }
  unfold seq_track. cbn [fst snd seq_step].
  destruct c as [| | | |s|s]; cbn [fst snd].
  - destruct (seq_play_start self dev) as [Ep [Ed _]]. rewrite Ep, Ed.
    now apply start_ok.
  - destruct (seq_release self dev) as [Ep [Ed _]].
    destruct (release_ok ByStop H) as [Rp [Rd _]]. rewrite Ep, Ed, Rp.
    exact Rd.
  - destruct (seq_release self dev) as [_ [_ [Ep Ed]]].
    destruct (release_ok ByWaitDone H) as [Rp [Rd _]]. rewrite Ep, Ed, Rp.
    exact Rd.
  - now apply C.
  - unfold SoundSeq.append. destruct (Req_dec_T _ _); cbn [fst snd].
    + now apply C.
    + now apply transport_ok_held.
  - apply transport_ok_held. now apply backend_run_ok.
Qed.

Lemma seq_run_ok (calls : list seq_call)
    (st : (SoundSeq.t * device) * list handle) :
  transport_ok (snd st) (SoundSeq.player (fst (fst st))) (snd (fst st)) ->
  let st' := fold_left seq_track calls st in
  transport_ok (snd st') (SoundSeq.player (fst (fst st'))) (snd (fst st')).
Proof.
  revert st. induction calls as [|c calls IH]; intros st H; simpl; [assumption|].
  apply IH. now apply seq_track_ok.
Qed.

(** What the invariant gives at the end of a run, and for one more
    [play]. *)
Lemma transport_ok_facts (mine : list handle) (p : option handle) (dev : device) :
  transport_ok mine p dev ->
  let r := start p dev in
  playing dev = live (history dev) /\
  never_two mine (history dev) /\
  (length (live_of mine (playing dev)) <= 1)%nat /\
  (forall h, In h (live_of mine (playing dev)) -> p = Some h) /\
  (forall h, p = Some h -> In h mine) /\
  (forall h, p = Some h -> handle_is_playing h (snd (fst r)) = false) /\
  (snd r = Ok tt ->
   exists h, fst (fst r) = Some h /\
             live_of (h :: mine) (playing (snd (fst r))) = [h]) /\
  (refusing dev = false -> snd r = Ok tt).
Proof.
  intros H r. destruct (start_ok H) as [_ [S1 [S2 [S3 _]]]].
  destruct H as [E [N [Hs [Hm [Hp [Hl T]]]]]].
  split; [assumption|]. split; [assumption|].
  split; [now apply live_of_held with p|].
  split; [intros h Hin; apply live_of_In in Hin as [Hi Hj]; now apply Hl|].
  split; [assumption|]. split; [assumption|]. split; assumption.
Qed.

(** C7. A [Sound], and likewise a [SoundSeq], that starts without a handle
    on a backend that other clients may use too.  Take any sequence of its
    [play], [stop], [wait_done], [change_duration] ([append]) calls,
    interleaved with other clients submitting buffers, playbacks finishing
    and the backend starting or stopping to refuse buffers, and let [mine]
    be the handles the object has held.  The handles that play are those of
    the history; at no moment of the history, the moments inside the calls
    included, did two handles of the object play; now at most one plays and
    it is the one the object holds.  A further [play] leaves the handle held
    before silent, and when it returns the new handle is the only one of
    the object that plays (it returns whenever the backend accepts the
    buffer).  For every object and backend, [play] adds to the history the
    stop of the handle it holds, if that one plays, and only then the start
    of the new playback; [is_playing] is false right after [stop], and a
    second [stop] changes nothing. *)
Theorem one_playback_handle :
  (forall (self : Sound.t) (n : handle) (b : bool) (calls : list sound_call),
     let run := fold_left sound_track calls
                          ((Sound.with_player self None, mkDevice [] n b []), []) in
     let self' := fst (fst run) in
     let dev := snd (fst run) in
     let mine := snd run in
     let r := Sound.play self' dev in
     playing dev = live (history dev) /\
     never_two mine (history dev) /\
     (length (live_of mine (playing dev)) <= 1)%nat /\
     (forall h, In h (live_of mine (playing dev)) -> Sound.player self' = Some h) /\
     (forall h, Sound.player self' = Some h -> In h mine) /\
     (forall h, Sound.player self' = Some h ->
                handle_is_playing h (snd (fst r)) = false) /\
     (snd r = Ok tt ->
      exists h, Sound.player (fst (fst r)) = Some h /\
                live_of (h :: mine) (playing (snd (fst r))) = [h]) /\
     (refusing dev = false -> snd r = Ok tt)) /\
  (forall (self : Sound.t) (dev : device),
     let r := Sound.play self dev in
     let st := Sound.stop self dev in
     history (snd (fst r)) = play_events (Sound.player self) dev ++ history dev /\
     Sound.is_playing (fst st) (snd st) = false /\
     Sound.stop (fst st) (snd st) = st) /\
  (forall (self : SoundSeq.t) (n : handle) (b : bool) (calls : list seq_call),
     let run := fold_left seq_track calls
                          ((SoundSeq.with_player self None, mkDevice [] n b []), []) in
     let self' := fst (fst run) in
     let dev := snd (fst run) in
     let mine := snd run in
     let r := SoundSeq.play self' dev in
     playing dev = live (history dev) /\
     never_two mine (history dev) /\
     (length (live_of mine (playing dev)) <= 1)%nat /\
     (forall h, In h (live_of mine (playing dev)) ->
                SoundSeq.player self' = Some h) /\
     (forall h, SoundSeq.player self' = Some h -> In h mine) /\
     (forall h, SoundSeq.player self' = Some h ->
                handle_is_playing h (snd (fst r)) = false) /\
     (snd r = Ok tt ->
      exists h, SoundSeq.player (fst (fst r)) = Some h /\
                live_of (h :: mine) (playing (snd (fst r))) = [h]) /\
     (refusing dev = false -> snd r = Ok tt)) /\
  (forall (self : SoundSeq.t) (dev : device),
     let r := SoundSeq.play self dev in
     let st := SoundSeq.stop self dev in
     history (snd (fst r))
       = play_events (SoundSeq.player self) dev ++ history dev /\
     SoundSeq.is_playing (fst st) (snd st) = false /\
     SoundSeq.stop (fst st) (snd st) = st).
Proof.
  split; [|split; [|split]].
  - intros self n b calls run self' dev mine r.
    assert (H : transport_ok mine (Sound.player self') dev).
    { apply sound_run_ok. apply transport_ok_new. }
    destruct (sound_play_start self' dev) as [Ep [Ed Er]].
    fold r in Ep, Ed, Er. rewrite Ep, Ed, Er.
    exact (transport_ok_facts H).
  - intros self dev r st. split.
    + destruct (sound_play_start self dev) as [_ [Ed _]]. fold r in Ed.
      rewrite Ed. unfold start, play_events, settle, play_buffer.
      destruct (Sound.player self) as [h|]; [destruct (handle_is_playing h dev)|];
        cbn [handle_stop retire refusing next_handle];
        destruct (refusing dev); reflexivity.
    + subst st. unfold Sound.stop.
      destruct (Sound.player self) as [h|] eqn:Ep; simpl.
      * split; reflexivity.
      * unfold Sound.is_playing. rewrite Ep. split; reflexivity.
  - intros self n b calls run self' dev mine r.
    assert (H : transport_ok mine (SoundSeq.player self') dev).
    { apply seq_run_ok. apply transport_ok_new. }
    destruct (seq_play_start self' dev) as [Ep [Ed Er]].
    fold r in Ep, Ed, Er. rewrite Ep, Ed, Er.
    exact (transport_ok_facts H).
  - intros self dev r st. split.
    + destruct (seq_play_start self dev) as [_ [Ed _]]. fold r in Ed.
      rewrite Ed. unfold start, play_events, settle, play_buffer.
      destruct (SoundSeq.player self) as [h|];
        [destruct (handle_is_playing h dev)|];
        cbn [handle_stop retire refusing next_handle];
        destruct (refusing dev); reflexivity.
    + subst st. unfold SoundSeq.stop.
      destruct (SoundSeq.player self) as [h|] eqn:Ep; simpl.
      * split; reflexivity.
      * unfold SoundSeq.is_playing. rewrite Ep. split; reflexivity.
Qed.

(** ** Arithmetic of [int] *)

Lemma py_int_IZR (z : Z) : py_int (IZR z) = z.
Proof.
  unfold py_int. destruct (Rle_dec 0 (IZR z)).
  - apply Zfloor_eq. lra.
  - apply Zceil_eq. lra.
Qed.

Lemma py_int_nonneg (x : R) (z : Z) :
  IZR z <= x < IZR z + 1 -> 0 <= x -> py_int x = z.
Proof.
  intros H H0. unfold py_int. destruct (Rle_dec 0 x); [|contradiction].
  now apply Zfloor_eq.
Qed.

Lemma py_int_neg (x : R) (z : Z) :
  IZR z - 1 < x <= IZR z -> x < 0 -> py_int x = z.
Proof.
  intros H H0. unfold py_int. destruct (Rle_dec 0 x); [lra|].
  now apply Zceil_eq.
Qed.

(** Truncation moves toward zero. *)
Lemma py_int_toward_zero (x : R) : Rabs (IZR (py_int x)) <= Rabs x.
Proof.
  unfold py_int. destruct (Rle_dec 0 x) as [H|H].
  - pose proof (Zfloor_bound x) as B.
    assert (0 <= Zfloor x)%Z by (apply Zfloor_lub; simpl; lra).
    assert (0 <= IZR (Zfloor x)) by (apply IZR_le; assumption).
    rewrite !Rabs_pos_eq; lra.
  - pose proof (Zceil_bound x) as B.
    assert (Hc : (Zceil x <= 0)%Z).
    { destruct (Z_le_gt_dec (Zceil x) 0) as [L|G]; [assumption|].
      assert (1 <= Zceil x)%Z by lia.
      assert (1 <= IZR (Zceil x)) by (apply IZR_le; assumption). lra. }
    assert (IZR (Zceil x) <= 0) by (apply IZR_le; assumption).
    rewrite !Rabs_left1; lra.
Qed.

Lemma py_int_range (x : R) (b : Z) :
  (0 <= b)%Z -> Rabs x <= IZR b -> (- b <= py_int x <= b)%Z.
Proof.
  intros Hb Hx.
  pose proof (py_int_toward_zero x) as T.
  assert (A : Rabs (IZR (py_int x)) <= IZR b) by lra.
  assert (A' : - IZR b <= IZR (py_int x) <= IZR b).
  { revert A. unfold Rabs. destruct (Rcase_abs _); lra. }
  destruct A' as [A1 A2].
  rewrite <- opp_IZR in A1. apply le_IZR in A1, A2. lia.
Qed.

Lemma py_int_small (x : R) : x < 1 -> (py_int x <= 0)%Z.
Proof.
  intros H. unfold py_int. destruct (Rle_dec 0 x).
  - assert (Zfloor x = 0%Z) by (apply Zfloor_eq; simpl; lra). lia.
  - pose proof (Zceil_bound x) as B.
    destruct (Z_le_gt_dec (Zceil x) 0) as [L|G]; [assumption|].
    assert (1 <= Zceil x)%Z by lia.
    assert (1 <= IZR (Zceil x)) by (apply IZR_le; assumption). lra.
Qed.

Lemma py_int_floor (x : R) : 0 <= x -> py_int x = Zfloor x.
Proof. intros H. unfold py_int. now destruct (Rle_dec 0 x). Qed.

(** ** List comprehensions *)

Lemma mapM_length {A B : Type} (f : A -> outcome B) (l : list A) (l' : list B) :
  mapM f l = Ok l' -> length l' = length l.
Proof.
  revert l'. induction l as [|a l IH]; simpl; intros l' H.
  - now inversion H.
  - destruct (f a) as [b|e]; simpl in H; [|discriminate].
    destruct (mapM f l) as [bs|e]; simpl in H; [|discriminate].
    inversion H; subst. simpl. f_equal. now apply IH.
Qed.

Lemma mapM_pure {A B : Type} (f : A -> outcome B) (g : A -> B) (l : list A) :
  (forall a, In a l -> f a = Ok (g a)) -> mapM f l = Ok (map g l).
Proof.
  induction l as [|a l IH]; simpl; intros H; [reflexivity|].
  rewrite (H a) by now left. simpl. rewrite IH by (intros; apply H; now right).
  reflexivity.
Qed.

Lemma range_nonpos (n : Z) : (n <= 0)%Z -> range n = [].
Proof.
  intros H. unfold range. replace (Z.to_nat n) with 0%nat by lia. reflexivity.
Qed.

Lemma range_length (n : Z) : length (range n) = Z.to_nat n.
Proof. unfold range. now rewrite length_map, length_seq. Qed.

Lemma range_In (n i : Z) : In i (range n) -> (0 <= i < n)%Z.
Proof.
  unfold range. rewrite in_map_iff. intros [k [<- Hk]].
  apply in_seq in Hk. lia.
Qed.

(** ** [max] *)

Lemma fold_Rmax_ge (l : list R) (x : R) :
  x <= fold_left Rmax l x /\ Forall (fun y => y <= fold_left Rmax l x) l.
Proof.
  revert x. induction l as [|a l IH]; intros x; simpl.
  - split; [lra|constructor].
  - destruct (IH (Rmax x a)) as [H1 H2].
    pose proof (Rmax_l x a). pose proof (Rmax_r x a).
    split; [lra|]. constructor; [lra|assumption].
Qed.

Lemma py_max_ge (l : list R) (m : R) :
  py_max l = Ok m -> Forall (fun y => y <= m) l.
Proof.
  destruct l as [|x l]; simpl; intros H; [discriminate|].
  inversion H; subst. destruct (fold_Rmax_ge l x) as [H1 H2].
  constructor; assumption.
Qed.

(** ** Item assignment and the fade loop *)

Lemma replace_nth_length {A : Type} (l : list A) (i : nat) (x : A) :
  length (replace_nth l i x) = length l.
Proof.
  revert i. induction l as [|a l IH]; intros [|i]; simpl; auto.
Qed.

Lemma replace_nth_Forall {A : Type} (P : A -> Prop) (l : list A) (i : nat) (x : A) :
  Forall P l -> P x -> Forall P (replace_nth l i x).
Proof.
  intros Hl Hx. revert i.
  induction Hl as [|a l Ha Hl IH]; intros [|i]; simpl; constructor; auto.
Qed.

Lemma setitem_inv {A : Type} (l l' : list A) (i : Z) (x : A) :
  setitem l i x = Ok l' ->
  length l' = length l /\ forall P : A -> Prop, Forall P l -> P x -> Forall P l'.
Proof.
  unfold setitem. destruct (_ && _)%bool; [|discriminate].
  intros H. inversion H; subst. split.
  - apply replace_nth_length.
  - intros P. apply replace_nth_Forall.
Qed.

Lemma setitem_in_range {A : Type} (l : list A) (i : Z) (x : A) :
  (0 <= i < Z.of_nat (length l))%Z ->
  setitem l i x = Ok (replace_nth l (Z.to_nat i) x).
Proof.
  intros H. unfold setitem.
  destruct (Z.ltb_spec i 0); [lia|].
  destruct (Z.leb_spec 0 i); [|lia].
  destruct (Z.ltb_spec i (Z.of_nat (length l))); [|lia].
  reflexivity.
Qed.

Lemma fade_raise (n cutoff : Z) (k : R) (idx : list Z) (e : error) :
  fold_left (fade_step n cutoff k) idx (Raise e) = Raise e.
Proof. induction idx as [|i idx IH]; simpl; auto. Qed.

Lemma fade_inv (n cutoff : Z) (k : R) (idx : list Z) (d d' : list R) :
  fold_left (fade_step n cutoff k) idx (Ok d) = Ok d' ->
  length d' = length d /\
  forall P : R -> Prop,
    Forall P d -> (forall i, In i idx -> P (ramp cutoff k i)) -> Forall P d'.
Proof.
  revert d. induction idx as [|i idx IH]; simpl; intros d H.
  - inversion H; subst. auto.
  - destruct (setitem d (n - i - 1) (ramp cutoff k i)) as [d1|e] eqn:E1;
      unfold ramp in E1; rewrite E1 in H; simpl in H;
      [|rewrite fade_raise in H; discriminate].
    destruct (setitem d1 i (ln (IZR i / IZR cutoff * 7 + 1) * k)) as [d2|e] eqn:E2;
      [|rewrite fade_raise in H; discriminate].
    apply setitem_inv in E1 as [L1 F1]. apply setitem_inv in E2 as [L2 F2].
    destruct (IH _ H) as [L F]. split; [congruence|].
    intros P Hd Hr. apply F.
    + apply F2; [apply F1|]; auto; apply (Hr i); now left.
    + intros j Hj. apply Hr. now right.
Qed.

Lemma fade_total (n cutoff : Z) (k : R) (idx : list Z) (d : list R) :
  Z.of_nat (length d) = n ->
  (forall i, In i idx -> (0 <= i < n)%Z) ->
  exists d', fold_left (fade_step n cutoff k) idx (Ok d) = Ok d'.
Proof.
  revert d. induction idx as [|i idx IH]; simpl; intros d Hn Hi; [eauto|].
  assert (Hr : (0 <= i < n)%Z) by (apply Hi; now left).
  rewrite setitem_in_range by lia. simpl.
  rewrite setitem_in_range by (rewrite replace_nth_length; lia).
  apply IH.
  - now rewrite !replace_nth_length.
  - intros j Hj. apply Hi. now right.
Qed.

(** The ramp stays within [0, 1] on the indices of the loop. *)
Lemma ramp_bounds (cutoff i : Z) :
  (0 <= i < cutoff)%Z -> 0 <= ramp cutoff ((1 / 3) * (1 / ln 2)) i <= 1.
Proof.
  intros [H0 H1]. unfold ramp.
  assert (C : 0 < IZR cutoff) by (apply IZR_lt; lia).
  assert (I0 : 0 <= IZR i) by (apply IZR_le; assumption).
  assert (I1 : IZR i < IZR cutoff) by (apply IZR_lt; assumption).
  set (x := IZR i / IZR cutoff * 7 + 1).
  assert (Q0 : 0 <= IZR i / IZR cutoff).
  { apply Rmult_le_pos; [assumption|]. apply Rlt_le, Rinv_0_lt_compat, C. }
  assert (Q1 : IZR i / IZR cutoff < 1).
  { apply Rmult_lt_reg_r with (IZR cutoff); [assumption|].
    unfold Rdiv. rewrite Rmult_assoc, Rinv_l by lra. lra. }
  assert (X1 : 1 <= x) by (unfold x; lra).
  assert (X8 : x < 8) by (unfold x; lra).
  assert (L2 : 0 < ln 2) by (pose proof ln_lt_2; lra).
  assert (L8 : ln 8 = 3 * ln 2).
  { replace 8 with (2 ^ 3) by lra. rewrite ln_pow by lra. simpl. lra. }
  assert (Lx0 : 0 <= ln x).
  { destruct X1 as [X1|X1].
    - rewrite <- ln_1. apply Rlt_le, ln_increasing; lra.
    - rewrite <- X1, ln_1. lra. }
  assert (Lx8 : ln x < 3 * ln 2).
  { rewrite <- L8. apply ln_increasing; lra. }
  assert (K : (1 / 3) * (1 / ln 2) = / (3 * ln 2)) by (field; lra).
  rewrite K. split.
  - apply Rmult_le_pos; [assumption|]. apply Rlt_le, Rinv_0_lt_compat. lra.
  - apply Rmult_le_reg_r with (3 * ln 2); [lra|].
    rewrite Rmult_assoc, Rinv_l by lra. lra.
Qed.

(** ** Waveforms *)

Lemma BASE_SOUND_num (x : list R) (f : R) :
  BASE_SOUND x (VNum f) = Ok (map (fun i => sin (2 * PI * f * i)) x).
Proof. unfold BASE_SOUND. apply mapM_pure. reflexivity. Qed.

Lemma py_div_inv (x y q : R) : py_div x y = Ok q -> y <> 0 /\ q = x / y.
Proof.
  unfold py_div. destruct (Req_dec_T y 0); intros H; inversion H. auto.
Qed.

Lemma py_div_nonzero (x y : R) : y <> 0 -> py_div x y = Ok (x / y).
Proof. intros H. unfold py_div. now destruct (Req_dec_T y 0). Qed.

Lemma waveform_length (instrument k : value) (x : list R) (freq : value)
    (note : list R) :
  resolve_instrument instrument k x freq = Ok note -> length note = length x.
Proof.
  assert (B : BASE_SOUND x freq = Ok note -> length note = length x)
    by apply mapM_length.
  assert (M : forall m, freq_modulator m k x freq = Ok note ->
                        length note = length x).
  { intros m. unfold freq_modulator.
    destruct (mapM _ x) as [modulator|e] eqn:E; simpl; [|discriminate].
    apply mapM_length in E.
    destruct (py_max _) as [maximum|e]; simpl; [|discriminate].
    intros H. apply mapM_length in H.
    rewrite H, length_map, length_combine, length_map, E. lia. }
  unfold resolve_instrument.
  destruct instrument as [|s|r]; [exact B| |exact (M _)].
  destruct (NOTE_get s); [exact (M _)|exact B].
Qed.

(** With no time point the waveform is empty or its own [max] has raised;
    [gen_custom_freq] then stops at a [max] of nothing. *)
Lemma waveform_empty (instrument k : value) (freq : value) :
  (note <- resolve_instrument instrument k [] freq ;;
   py_max (map Rabs note)) = Raise ValueError.
Proof.
  unfold resolve_instrument.
  destruct instrument as [|s|r]; [reflexivity| |reflexivity].
  destruct (NOTE_get s); reflexivity.
Qed.

(** ** What [gen_custom_freq] computes *)

Lemma to_bytes_inv (v : Z) (bs : list Z) :
  to_bytes v = Ok bs ->
  int16 v /\
  exists lo hi, bs = [lo; hi] /\ (0 <= lo < 256)%Z /\ (0 <= hi < 256)%Z /\
                from_bytes lo hi = v.
Proof.
  unfold to_bytes, int16.
  destruct (Z.leb_spec (-32768) v); simpl; [|discriminate].
  destruct (Z.leb_spec v 32767); [|discriminate].
  intros E. inversion E; subst. split; [lia|].
  exists (v mod 256)%Z, ((v / 256) mod 256)%Z.
  repeat split; try (apply Z.mod_pos_bound; lia).
  unfold from_bytes.
  assert (D : v = (256 * (v / 256) + v mod 256)%Z) by (apply Z_div_mod_eq_full).
  assert (Q : (-128 <= v / 256 < 128)%Z).
  { split; [apply Z.div_le_lower_bound|apply Z.div_lt_upper_bound]; lia. }
  pose proof (Z.mod_pos_bound v 256 ltac:(lia)) as B.
  destruct (Z_lt_le_dec (v / 256) 0) as [N|P].
  - replace ((v / 256) mod 256)%Z with (v / 256 + 256)%Z.
    + destruct (Z.ltb_spec (v mod 256 + 256 * (v / 256 + 256)) 32768); lia.
    + apply Z.mod_unique with (-1)%Z; lia.
  - rewrite (Z.mod_small (v / 256) 256) by lia.
    destruct (Z.ltb_spec (v mod 256 + 256 * (v / 256)) 32768); lia.
Qed.

Lemma to_bytes_int16 (v : Z) :
  int16 v -> to_bytes v = Ok [v mod 256; (v / 256) mod 256]%Z.
Proof.
  unfold int16, to_bytes. intros H.
  destruct (Z.leb_spec (-32768) v); [|lia].
  destruct (Z.leb_spec v 32767); [|lia]. reflexivity.
Qed.

Lemma to_bytes_overflow (v : Z) : ~ int16 v -> to_bytes v = Raise OverflowError.
Proof.
  unfold int16, to_bytes. intros H.
  destruct (Z.leb_spec (-32768) v); [|reflexivity].
  destruct (Z.leb_spec v 32767); [lia|reflexivity].
Qed.

(** A successful run of [gen_samples], read backwards. *)
Lemma gen_samples_inv (frequency : value) (seconds vol_factor fs : R)
    (instrument k : value) (cutoff_factor : R) (samples : list Z) :
  gen_samples frequency seconds vol_factor fs instrument k cutoff_factor
    = Ok samples ->
  let n := py_int (seconds * fs) in
  exists note maximum dynamics,
    resolve_instrument instrument k (linspace fs n) frequency = Ok note /\
    py_max (map Rabs note) = Ok maximum /\
    maximum <> 0 /\
    length note = Z.to_nat n /\
    length dynamics = Z.to_nat n /\
    samples = map (fun sd => emitted vol_factor maximum (fst sd) (snd sd))
                  (combine note dynamics).
Proof.
  intros H n. unfold gen_samples in H. unfold linspace. fold n in H.
  destruct (resolve_instrument _ _ _ _) as [note|e] eqn:En; simpl in H;
    [|discriminate].
  destruct (py_max _) as [maximum|e] eqn:Em; simpl in H; [|discriminate].
  destruct (mapM _ note) as [audio|e] eqn:Ea; simpl in H; [|discriminate].
  destruct (fold_left _ _ _) as [dynamics|e] eqn:Ed; simpl in H; [|discriminate].
  inversion H; subst samples; clear H.
  pose proof (waveform_length _ _ _ _ En) as Ln.
  rewrite length_map, range_length in Ln.
  apply fade_inv in Ed as [Ld _]. rewrite length_map, range_length in Ld.
  assert (Hm : maximum <> 0).
  { destruct note as [|s note]; [discriminate|].
    simpl in Ea. destruct (py_div _ maximum) as [q|e] eqn:Eq; [|discriminate].
    now apply py_div_inv in Eq. }
  exists note, maximum, dynamics. repeat split; auto.
  assert (Ha : audio = map (scaled vol_factor maximum) note).
  { rewrite (mapM_pure _ (scaled vol_factor maximum)) in Ea.
    - now inversion Ea.
    - intros s _. now apply py_div_nonzero. }
  subst audio. clear. revert dynamics.
  induction note as [|s note IH]; intros [|d dynamics]; simpl; auto.
  f_equal. apply IH.
Qed.

Lemma full_scale : 2 ^ 15 - 1 = 32767.
Proof. lra. Qed.

Lemma scaled_bound (vol_factor maximum s : R) :
  0 <= vol_factor <= 1 -> 0 < maximum -> Rabs s <= maximum ->
  Rabs (scaled vol_factor maximum s) <= 32767.
Proof.
  intros Hv Hm Hs. unfold scaled. rewrite full_scale.
  pose proof (py_int_toward_zero (s * vol_factor * 32767)) as T.
  assert (A : Rabs (s * vol_factor * 32767) <= maximum * 32767).
  { rewrite !Rabs_mult, (Rabs_pos_eq vol_factor), (Rabs_pos_eq 32767) by lra.
    pose proof (Rabs_pos s). nra. }
  unfold Rdiv. rewrite Rabs_mult, (Rabs_pos_eq (/ maximum)).
  - apply Rmult_le_reg_r with maximum; [assumption|].
    rewrite Rmult_assoc, Rinv_l by lra. lra.
  - apply Rlt_le, Rinv_0_lt_compat, Hm.
Qed.

Lemma emitted_int16 (vol_factor maximum s d : R) :
  0 <= vol_factor <= 1 -> 0 < maximum -> Rabs s <= maximum -> 0 <= d <= 1 ->
  int16 (emitted vol_factor maximum s d).
Proof.
  intros Hv Hm Hs Hd. unfold emitted, int16.
  pose proof (scaled_bound s Hv Hm Hs) as B.
  assert (A : Rabs (scaled vol_factor maximum s * d) <= IZR 32767).
  { rewrite Rabs_mult, (Rabs_pos_eq d) by lra.
    pose proof (Rabs_pos (scaled vol_factor maximum s)). nra. }
  apply py_int_range in A; lia.
Qed.

(** A run of [gen_samples] that has a waveform with a non-zero peak, and a
    volume in [0, 1], reaches the end, and what it emits fits 16 bits. *)
Lemma gen_samples_total (frequency : value) (seconds vol_factor fs : R)
    (instrument k : value) (cutoff_factor : R) (note : list R) (maximum : R) :
  0 <= vol_factor <= 1 ->
  resolve_instrument instrument k (linspace fs (py_int (seconds * fs))) frequency
    = Ok note ->
  py_max (map Rabs note) = Ok maximum ->
  0 < maximum ->
  exists samples,
    gen_samples frequency seconds vol_factor fs instrument k cutoff_factor
      = Ok samples /\
    Forall int16 samples.
Proof.
  intros Hv En Em Hm. unfold linspace in En.
  pose proof (waveform_length _ _ _ _ En) as Ln.
  rewrite length_map, range_length in Ln.
  assert (Hle : Forall (fun s => Rabs s <= maximum) note).
  { apply py_max_ge in Em. rewrite Forall_forall in *. intros s Hs.
    apply Em. now apply in_map. }
  unfold gen_samples. rewrite En. simpl. rewrite Em. simpl.
  rewrite (mapM_pure _ (scaled vol_factor maximum))
    by (intros s _; apply py_div_nonzero; lra).
  simpl. rewrite length_map.
  set (n := py_int (seconds * fs)) in *.
  set (cutoff := Z.min (Z.of_nat (length note)) (py_int (fs * cutoff_factor))).
  set (k0 := 1 / 3 * (1 / ln 2)).
  assert (Hn : (0 < n)%Z).
  { destruct note as [|s note]; [discriminate|]. simpl in Ln. lia. }
  assert (Hc : (cutoff <= n)%Z) by (unfold cutoff; lia).
  destruct (@fade_total n cutoff k0 (range cutoff) (map (fun _ => 1) (range n)))
    as [dynamics Ed].
  { rewrite length_map, range_length. lia. }
  { intros i Hi. apply range_In in Hi. lia. }
  rewrite Ed. simpl. eexists. split; [reflexivity|].
  apply fade_inv in Ed as [_ Fd].
  specialize (Fd (fun d => 0 <= d <= 1)). simpl in Fd.
  assert (Hd : Forall (fun d => 0 <= d <= 1) dynamics).
  { apply Fd.
    - apply Forall_forall. intros d Hin. apply in_map_iff in Hin as [? [<- _]]. lra.
    - intros i Hi. apply range_In in Hi. now apply ramp_bounds. }
  apply Forall_forall. intros v Hin.
  apply in_map_iff in Hin as [[a d] [<- Hin]]. simpl.
  pose proof (in_combine_l _ _ _ _ Hin) as Ha.
  pose proof (in_combine_r _ _ _ _ Hin) as Hdd.
  apply in_map_iff in Ha as [s [<- Hs]].
  rewrite Forall_forall in Hle, Hd.
  apply emitted_int16; auto.
Qed.

(** ** Runs without a fade

    When [int(fs * cutoff_factor)] is not positive the fade loop has no
    iteration and every envelope value is 1. *)

Lemma combine_constant {A B C : Type} (f : A -> B) (g : B * R -> C)
    (l : list A) (r : list Z) :
  length l = length r ->
  map g (combine (map f l) (map (fun _ => 1) r)) = map (fun s => g (f s, 1)) l.
Proof.
  revert r. induction l as [|a l IH]; intros [|z r]; simpl; intros H;
    try discriminate; [reflexivity|].
  f_equal. apply IH. now inversion H.
Qed.

Lemma gen_samples_unfaded (frequency : value) (seconds vol_factor fs : R)
    (instrument k : value) (cutoff_factor : R) (note : list R) (maximum : R) :
  resolve_instrument instrument k (linspace fs (py_int (seconds * fs))) frequency
    = Ok note ->
  py_max (map Rabs note) = Ok maximum ->
  maximum <> 0 ->
  (py_int (fs * cutoff_factor) <= 0)%Z ->
  gen_samples frequency seconds vol_factor fs instrument k cutoff_factor
    = Ok (map (fun s => emitted vol_factor maximum s 1) note).
Proof.
  intros En Em Hm Hc. unfold linspace in En.
  pose proof (waveform_length _ _ _ _ En) as Ln. rewrite length_map in Ln.
  unfold gen_samples. rewrite En. simpl. rewrite Em. simpl.
  rewrite (mapM_pure _ (scaled vol_factor maximum))
    by (intros s _; now apply py_div_nonzero).
  simpl. rewrite range_nonpos by lia. simpl.
  now rewrite combine_constant.
Qed.

Lemma emitted_unit (vol_factor : R) (z : Z) :
  IZR z <= vol_factor * 32767 < IZR z + 1 -> (0 <= z)%Z ->
  emitted vol_factor 1 0 1 = 0%Z /\
  emitted vol_factor 1 1 1 = z /\
  emitted vol_factor 1 (-1) 1 = (- z)%Z.
Proof.
  intros H Hz. apply IZR_le in Hz. unfold emitted, scaled. rewrite full_scale.
  repeat split.
  - replace (0 * vol_factor * 32767) with (IZR 0) by lra. rewrite py_int_IZR.
    replace (0 / 1 * 1) with (IZR 0) by lra. apply py_int_IZR.
  - rewrite (@py_int_nonneg (1 * vol_factor * 32767) z) by lra.
    replace (IZR z / 1 * 1) with (IZR z) by lra. apply py_int_IZR.
  - assert (E : py_int (-1 * vol_factor * 32767) = (- z)%Z).
    { destruct (Req_dec_T (vol_factor * 32767) 0) as [E0|N0].
      - assert (z = 0%Z) by (apply eq_IZR; lra). subst z.
        replace (-1 * vol_factor * 32767) with (IZR 0) by lra. apply py_int_IZR.
      - apply py_int_neg; try rewrite opp_IZR; lra. }
    rewrite E. replace (IZR (- z) / 1 * 1) with (IZR (- z)) by lra.
    apply py_int_IZR.
Qed.

(** Four time points a quarter of a period apart. *)
Lemma quarter_times : linspace 4 (py_int (1 * 4)) = [0 / 4; 1 / 4; 2 / 4; 3 / 4].
Proof.
  replace (1 * 4) with (IZR 4) by lra. rewrite py_int_IZR. reflexivity.
Qed.

Lemma quarter_sines_up :
  map (fun i => sin (2 * PI * 1 * i)) [0 / 4; 1 / 4; 2 / 4; 3 / 4] = [0; 1; 0; -1].
Proof.
  simpl.
  replace (2 * PI * 1 * (0 / 4)) with 0 by lra.
  replace (2 * PI * 1 * (1 / 4)) with (PI / 2) by lra.
  replace (2 * PI * 1 * (2 / 4)) with PI by lra.
  replace (2 * PI * 1 * (3 / 4)) with (3 * (PI / 2)) by lra.
  now rewrite sin_0, sin_PI2, sin_PI, sin_3PI2.
Qed.

Lemma quarter_sines_down :
  map (fun i => sin (2 * PI * -1 * i)) [0 / 4; 1 / 4; 2 / 4; 3 / 4] = [0; -1; 0; 1].
Proof.
  simpl.
  replace (2 * PI * -1 * (0 / 4)) with 0 by lra.
  replace (2 * PI * -1 * (1 / 4)) with (- (PI / 2)) by lra.
  replace (2 * PI * -1 * (2 / 4)) with (- PI) by lra.
  replace (2 * PI * -1 * (3 / 4)) with (- (3 * (PI / 2))) by lra.
  rewrite !sin_neg, sin_0, sin_PI2, sin_PI, sin_3PI2.
  repeat f_equal; lra.
Qed.

Lemma Rmax_unit_up : py_max (map Rabs [0; 1; 0; -1]) = Ok 1.
Proof.
  simpl. rewrite Rabs_R0, Rabs_R1. replace (Rabs (-1)) with 1
    by (rewrite Rabs_left1; lra).
  rewrite (Rmax_right 0 1), (Rmax_left 1 0), (Rmax_left 1 1) by lra. reflexivity.
Qed.

Lemma Rmax_unit_down : py_max (map Rabs [0; -1; 0; 1]) = Ok 1.
Proof.
  simpl. rewrite Rabs_R0, Rabs_R1. replace (Rabs (-1)) with 1
    by (rewrite Rabs_left1; lra).
  rewrite (Rmax_right 0 1), (Rmax_left 1 0), (Rmax_left 1 1) by lra. reflexivity.
Qed.

Lemma no_fade_at_4 : (py_int (4 * (1 / 100)) <= 0)%Z.
Proof. apply py_int_small. lra. Qed.

(** One period of a 1 Hz sine at 4 samples per second. *)
Lemma gen_samples_quarter_up (vol_factor : R) (k : value) (z : Z) :
  IZR z <= vol_factor * 32767 < IZR z + 1 -> (0 <= z)%Z ->
  gen_samples (VNum 1) 1 vol_factor 4 VNone k (1 / 100) = Ok [0; z; 0; - z]%Z.
Proof.
  intros H Hz. destruct (emitted_unit H Hz) as [E0 [E1 E2]].
  rewrite (@gen_samples_unfaded _ _ _ _ _ _ _ [0; 1; 0; -1] 1).
  - simpl. now rewrite E0, E1, E2.
  - simpl. rewrite quarter_times, BASE_SOUND_num. f_equal. apply quarter_sines_up.
  - apply Rmax_unit_up.
  - lra.
  - apply no_fade_at_4.
Qed.

(** The same with the frequency negated. *)
Lemma gen_samples_quarter_down (vol_factor : R) (k : value) (z : Z) :
  IZR z <= vol_factor * 32767 < IZR z + 1 -> (0 <= z)%Z ->
  gen_samples (VNum (-1)) 1 vol_factor 4 VNone k (1 / 100) = Ok [0; - z; 0; z]%Z.
Proof.
  intros H Hz. destruct (emitted_unit H Hz) as [E0 [E1 E2]].
  rewrite (@gen_samples_unfaded _ _ _ _ _ _ _ [0; -1; 0; 1] 1).
  - simpl. now rewrite E0, E1, E2.
  - simpl. rewrite quarter_times, BASE_SOUND_num. f_equal. apply quarter_sines_down.
  - apply Rmax_unit_down.
  - lra.
  - apply no_fade_at_4.
Qed.

(** ** Encoding *)

Lemma int16_dec (v : Z) : {int16 v} + {~ int16 v}.
Proof.
  unfold int16.
  destruct (Z_le_dec (-32768) v); [|right; lia].
  destruct (Z_le_dec v 32767); [left|right]; lia.
Qed.

Lemma mapM_to_bytes_cases (l : list Z) :
  (Forall int16 l /\ mapM to_bytes l = Ok (map le16 l)) \/
  (~ Forall int16 l /\ mapM to_bytes l = Raise OverflowError).
Proof.
  induction l as [|v l IH].
  - left. split; [constructor|reflexivity].
  - destruct (int16_dec v) as [Hv|Hv].
    + simpl. rewrite (to_bytes_int16 Hv). simpl.
      destruct IH as [[Hl E]|[Hl E]]; rewrite E; simpl.
      * left. split; [now constructor|reflexivity].
      * right. split; [|reflexivity]. intros H. inversion H; contradiction.
    + right. split.
      * intros H. inversion H; contradiction.
      * simpl. now rewrite (to_bytes_overflow Hv).
Qed.

Lemma gen_custom_freq_cases (frequency : value) (seconds vol_factor fs : R)
    (instrument k : value) (cutoff_factor : R) (samples : list Z) :
  gen_samples frequency seconds vol_factor fs instrument k cutoff_factor
    = Ok samples ->
  (Forall int16 samples /\
   gen_custom_freq frequency seconds vol_factor fs instrument k cutoff_factor
     = Ok (concat (map le16 samples))) \/
  (~ Forall int16 samples /\
   gen_custom_freq frequency seconds vol_factor fs instrument k cutoff_factor
     = Raise OverflowError).
Proof.
  intros H. unfold gen_custom_freq. rewrite H. simpl.
  destruct (mapM_to_bytes_cases samples) as [[F E]|[F E]]; rewrite E; simpl; auto.
Qed.

Lemma concat_le16_length (l : list Z) :
  length (concat (map le16 l)) = (2 * length l)%nat.
Proof. induction l as [|v l IH]; simpl; [reflexivity|]. rewrite IH. lia. Qed.

Lemma gen_custom_freq_inv (frequency : value) (seconds vol_factor fs : R)
    (instrument k : value) (cutoff_factor : R) (bytes : list Z) :
  gen_custom_freq frequency seconds vol_factor fs instrument k cutoff_factor
    = Ok bytes ->
  exists samples,
    gen_samples frequency seconds vol_factor fs instrument k cutoff_factor
      = Ok samples /\
    Forall int16 samples /\ bytes = concat (map le16 samples).
Proof.
  intros H.
  destruct (gen_samples frequency seconds vol_factor fs instrument k cutoff_factor)
    as [samples|e] eqn:E.
  - exists samples. split; [reflexivity|].
    destruct (gen_custom_freq_cases _ _ _ _ _ _ _ E) as [[F G]|[F G]];
      rewrite G in H; [|discriminate].
    inversion H. auto.
  - unfold gen_custom_freq in H. rewrite E in H. discriminate.
Qed.

Lemma gen_samples_length (frequency : value) (seconds vol_factor fs : R)
    (instrument k : value) (cutoff_factor : R) (samples : list Z) :
  gen_samples frequency seconds vol_factor fs instrument k cutoff_factor
    = Ok samples ->
  (0 < py_int (seconds * fs))%Z /\
  length samples = Z.to_nat (py_int (seconds * fs)).
Proof.
  intros H. apply gen_samples_inv in H.
  destruct H as [note [maximum [dynamics [En [Em [Hm [Ln [Ld E]]]]]]]].
  split.
  - destruct note as [|s note]; [discriminate|]. simpl in Ln. lia.
  - subst samples. rewrite length_map, length_combine. lia.
Qed.

(** ** A waveform that is zero throughout *)

Lemma fold_Rmax_zeros (l : list R) :
  Forall (fun s => s = 0) l -> fold_left Rmax (map Rabs l) 0 = 0.
Proof.
  induction 1 as [|s l Hs Hl IH]; simpl; [reflexivity|].
  subst s. rewrite Rabs_R0, (Rmax_left 0 0) by lra. assumption.
Qed.

Lemma silent_waveform_raises (frequency : value) (seconds vol_factor fs : R)
    (instrument k : value) (cutoff_factor : R) (note : list R) :
  resolve_instrument instrument k (linspace fs (py_int (seconds * fs))) frequency
    = Ok note ->
  note <> [] -> Forall (fun s => s = 0) note ->
  gen_custom_freq frequency seconds vol_factor fs instrument k cutoff_factor
    = Raise ZeroDivisionError.
Proof.
  intros En Hne Hz. unfold linspace in En.
  unfold gen_custom_freq, gen_samples. rewrite En. simpl.
  destruct note as [|s note]; [contradiction|].
  inversion Hz as [|? ? Hs Hn]; subst.
  simpl. rewrite Rabs_R0, (fold_Rmax_zeros Hn). simpl.
  unfold py_div at 1. destruct (Req_dec_T 0 0); [reflexivity|contradiction].
Qed.

(** ** Copying into the buffer *)

Lemma replace_nth_app {A : Type} (pre : list A) (b a : A) (rest : list A) :
  replace_nth (pre ++ b :: rest) (length pre) a = pre ++ a :: rest.
Proof. induction pre as [|p pre IH]; simpl; [reflexivity|]. now rewrite IH. Qed.

Lemma store_from_full (new_audio pre buf : list Z) :
  length buf = length new_audio ->
  store_from (pre ++ buf) (Z.of_nat (length pre)) new_audio
    = (pre ++ new_audio, Ok tt).
Proof.
  revert pre buf. induction new_audio as [|a rest IH]; intros pre [|b buf] H;
    simpl in H; try discriminate.
  - reflexivity.
  - simpl. rewrite setitem_in_range by (rewrite length_app; simpl; lia).
    rewrite Nat2Z.id, replace_nth_app.
    replace (pre ++ a :: buf) with ((pre ++ [a]) ++ buf)
      by (now rewrite <- app_assoc).
    replace (Z.of_nat (length pre) + 1)%Z with (Z.of_nat (length (pre ++ [a])))
      by (rewrite length_app; simpl; lia).
    rewrite IH by (now inversion H). now rewrite <- app_assoc.
Qed.

Lemma store_from_zeros (new_audio : list Z) :
  store_from (repeat 0%Z (length new_audio)) 0 new_audio = (new_audio, Ok tt).
Proof.
  apply (@store_from_full new_audio [] (repeat 0%Z (length new_audio))).
  apply repeat_length.
Qed.

(** ** Parameters that are not positive *)

(** C1 as stated fails here: a negative frequency with a positive duration
    and sample rate is synthesized, and the bytes are returned. *)
Lemma negative_frequency_is_synthesized :
  -1 <= 0 /\
  gen_custom_freq (VNum (-1)) 1 (1 / 5) 4 VNone (VNum 1) (1 / 100)
    = Ok [0; 0; 103; 230; 0; 0; 153; 25]%Z.
Proof.
  split; [lra|].
  unfold gen_custom_freq.
  rewrite (@gen_samples_quarter_down (1 / 5) (VNum 1) 6553) by (simpl; lra || lia).
  reflexivity.
Qed.

(** C1, amended.  [gen_custom_freq] checks none of its parameters.  When
    [seconds * fs] is below 1 (so when one of the two is zero or negative
    and the other is not negative) there is no time point and the call
    raises [ValueError], from [max] of an empty sequence.  With frequency 0,
    the plain sine and at least one time point it raises
    [ZeroDivisionError]. *)
Theorem gen_custom_freq_unchecked (frequency : value) (seconds vol_factor fs : R)
    (instrument k : value) (cutoff_factor : R) :
  (seconds * fs < 1 ->
   gen_custom_freq frequency seconds vol_factor fs instrument k cutoff_factor
     = Raise ValueError) /\
  (1 <= seconds * fs ->
   gen_custom_freq (VNum 0) seconds vol_factor fs VNone k cutoff_factor
     = Raise ZeroDivisionError).
Proof.
  split; intros H.
  - unfold gen_custom_freq, gen_samples.
    rewrite range_nonpos by (now apply py_int_small). simpl.
    pose proof (waveform_empty instrument k frequency) as E.
    destruct (resolve_instrument instrument k [] frequency) as [note|e];
      simpl in *.
    + destruct (py_max (map Rabs note)); simpl; [discriminate|]. now inversion E.
    + now inversion E.
  - assert (Hn : (1 <= py_int (seconds * fs))%Z).
    { rewrite py_int_floor by lra. apply Zfloor_lub. simpl. lra. }
    apply silent_waveform_raises
      with (note := map (fun i => sin (2 * PI * 0 * i))
                        (linspace fs (py_int (seconds * fs)))).
    + apply BASE_SOUND_num.
    + unfold linspace. intros E. apply (f_equal (@length R)) in E.
      rewrite !length_map, range_length in E. simpl in E. lia.
    + apply Forall_forall. intros s Hs. apply in_map_iff in Hs as [i [<- _]].
      replace (2 * PI * 0 * i) with 0 by lra. apply sin_0.
Qed.

Lemma gen_custom_freq_unchecked_witness :
  gen_custom_freq (VNum 440) 0 (1 / 5) 8000 VNone (VNum 1) (1 / 100)
    = Raise ValueError /\
  gen_custom_freq (VNum 0) 1 (1 / 5) 8000 VNone (VNum 1) (1 / 100)
    = Raise ZeroDivisionError.
Proof.
  split.
  - apply (gen_custom_freq_unchecked (VNum 440) 0 (1 / 5) 8000 VNone (VNum 1)
                                     (1 / 100)). lra.
  - apply (gen_custom_freq_unchecked (VNum 0) 1 (1 / 5) 8000 VNone (VNum 1)
                                     (1 / 100)). lra.
Defined.

(** ** Length and peak *)

(** C2 as stated fails here: one second at one sample per second is a valid
    request; its only sample is [sin 0], the peak is 0, and the division by
    the peak raises. *)
Lemma zero_peak_raises :
  0 < 440 /\ 0 < 1 /\
  gen_custom_freq (VNum 440) 1 (1 / 5) 1 VNone (VNum 1) (1 / 100)
    = Raise ZeroDivisionError.
Proof.
  split; [lra|]. split; [lra|].
  apply silent_waveform_raises with (note := [0]).
  - replace (1 * 1) with (IZR 1) by lra. rewrite py_int_IZR. simpl.
    rewrite BASE_SOUND_num. simpl.
    replace (2 * PI * 440 * (0 / 1)) with 0 by lra. now rewrite sin_0.
  - discriminate.
  - repeat constructor.
Qed.

Lemma py_max_abs_nonneg (l : list R) (m : R) :
  py_max (map Rabs l) = Ok m -> 0 <= m.
Proof.
  intros H. pose proof (py_max_ge _ H) as G.
  destruct l as [|s l]; [discriminate|].
  inversion G as [|? ? Hs _]; subst. pose proof (Rabs_pos s). lra.
Qed.

(** ** The envelope of a run *)

Lemma nth_replace_nth_eq {A : Type} (l : list A) (i : nat) (x d : A) :
  (i < length l)%nat -> nth i (replace_nth l i x) d = x.
Proof.
  revert i. induction l as [|a l IH]; intros [|i] H; simpl in *; try lia.
  - reflexivity.
  - apply IH. lia.
Qed.

Lemma nth_replace_nth_neq {A : Type} (l : list A) (i j : nat) (x d : A) :
  i <> j -> nth j (replace_nth l i x) d = nth j l d.
Proof.
  revert i j. induction l as [|a l IH]; intros [|i] [|j] H; simpl; auto.
  - contradiction.
Qed.

Lemma range_snoc (m : nat) :
  range (Z.of_nat (S m)) = range (Z.of_nat m) ++ [Z.of_nat m].
Proof.
  unfold range. rewrite !Nat2Z.id, seq_S, map_app. reflexivity.
Qed.

Lemma nth_ones (n : Z) (j : nat) : nth j (map (fun _ : Z => 1) (range n)) 1 = 1.
Proof.
  generalize (range n). intros l. revert j.
  induction l as [|a l IH]; intros [|j]; simpl; auto.
Qed.

(** One step of the fade loop on a list of [n] items, for [0 <= i < n]. *)
Lemma fade_step_in_range (n cutoff : Z) (k : R) (d : list R) (i : nat) :
  Z.of_nat (length d) = n -> (i < length d)%nat ->
  fade_step n cutoff k (Ok d) (Z.of_nat i)
    = Ok (replace_nth (replace_nth d (length d - 1 - i) (ramp cutoff k (Z.of_nat i)))
                      i (ramp cutoff k (Z.of_nat i))).
Proof.
  intros Hn Hi. unfold fade_step, ramp. cbn [bind].
  rewrite setitem_in_range by lia. cbn [bind].
  rewrite setitem_in_range by (rewrite replace_nth_length; lia).
  rewrite Nat2Z.id. do 3 f_equal. lia.
Qed.

Lemma nth_map_combine {A B C : Type} (f : A * B -> C) (a : list A) (b : list B)
    (j : nat) (da : A) (db : B) (dc : C) :
  (j < length a)%nat -> length a = length b ->
  nth j (map f (combine a b)) dc = f (nth j a da, nth j b db).
Proof.
  revert b j. induction a as [|x a IH]; intros [|y b] [|j] Hj Hl;
    simpl in *; try lia; [reflexivity|].
  apply IH; lia.
Qed.

(** The envelope after the first [m] steps of the fade loop: at each index
    the last step that stored there decides. *)
Lemma fade_loop (n cutoff : Z) (k : R) (m : nat) :
  (Z.of_nat m <= n)%Z ->
  exists d,
    fold_left (fade_step n cutoff k) (range (Z.of_nat m))
              (Ok (map (fun _ => 1) (range n))) = Ok d /\
    length d = Z.to_nat n /\
    forall j, (j < Z.to_nat n)%nat ->
      nth j d 1 =
        if (Nat.max j (Z.to_nat n - 1 - j) <? m)%nat
        then ramp cutoff k (Z.of_nat (Nat.max j (Z.to_nat n - 1 - j)))
        else if (Nat.min j (Z.to_nat n - 1 - j) <? m)%nat
             then ramp cutoff k (Z.of_nat (Nat.min j (Z.to_nat n - 1 - j)))
             else 1.
Proof.
  intros Hm. induction m as [|m IH].
  - exists (map (fun _ => 1) (range n)). split; [reflexivity|].
    split; [now rewrite length_map, range_length|].
    intros j Hj. apply nth_ones.
  - destruct IH as [d [Ed [Ld Hd]]]; [lia|].
    rewrite range_snoc, fold_left_app, Ed. cbn [fold_left].
    rewrite fade_step_in_range by lia.
    eexists. split; [reflexivity|]. split; [now rewrite !replace_nth_length|].
    intros j Hj. rewrite Ld.
    destruct (Nat.eq_dec j m) as [->|Nm].
    + rewrite nth_replace_nth_eq by (rewrite replace_nth_length; lia).
      destruct (Nat.ltb_spec (Nat.max m (Z.to_nat n - 1 - m)) (S m)).
      * f_equal. lia.
      * destruct (Nat.ltb_spec (Nat.min m (Z.to_nat n - 1 - m)) (S m)); [|lia].
        f_equal. lia.
    + rewrite nth_replace_nth_neq by auto.
      destruct (Nat.eq_dec j (Z.to_nat n - 1 - m)) as [->|Nr].
      * rewrite nth_replace_nth_eq by lia.
        destruct (Nat.ltb_spec (Nat.max (Z.to_nat n - 1 - m)
                                        (Z.to_nat n - 1 - (Z.to_nat n - 1 - m)))
                               (S m)).
        -- f_equal. lia.
        -- destruct (Nat.ltb_spec (Nat.min (Z.to_nat n - 1 - m)
                                           (Z.to_nat n - 1 - (Z.to_nat n - 1 - m)))
                                  (S m)); [|lia].
           f_equal. lia.
      * rewrite nth_replace_nth_neq by auto. rewrite Hd by assumption.
        destruct (Nat.ltb_spec (Nat.max j (Z.to_nat n - 1 - j)) m),
                 (Nat.ltb_spec (Nat.max j (Z.to_nat n - 1 - j)) (S m));
          try lia; auto.
        destruct (Nat.ltb_spec (Nat.min j (Z.to_nat n - 1 - j)) m),
                 (Nat.ltb_spec (Nat.min j (Z.to_nat n - 1 - j)) (S m));
          try lia; auto.
Qed.

(** The envelope of the fade loop, index by index, whenever the loop has at
    most as many steps as there are items. *)
Lemma envelope_values (n cutoff : Z) :
  (0 <= n)%Z -> (cutoff <= n)%Z ->
  exists d,
    envelope n cutoff = Ok d /\ length d = Z.to_nat n /\
    forall j, (0 <= j < n)%Z -> nth (Z.to_nat j) d 1 = fade n cutoff j.
Proof.
  intros Hn Hc. unfold envelope. destruct (Z.le_gt_cases cutoff 0) as [H0|H0].
  - rewrite range_nonpos by assumption. cbn [fold_left].
    eexists. split; [reflexivity|].
    split; [now rewrite length_map, range_length|].
    intros j Hj. rewrite nth_ones. unfold fade.
    destruct (Z.ltb_spec (Z.max j (n - 1 - j)) cutoff); [lia|].
    destruct (Z.ltb_spec (Z.min j (n - 1 - j)) cutoff); [lia|reflexivity].
  - destruct (@fade_loop n cutoff fade_constant (Z.to_nat cutoff))
      as [d [Ed [Ld Hd]]]; [lia|].
    rewrite Z2Nat.id in Ed by lia.
    exists d. split; [exact Ed|]. split; [assumption|].
    intros j Hj. rewrite Hd by lia. unfold fade.
    destruct (Nat.ltb_spec (Nat.max (Z.to_nat j) (Z.to_nat n - 1 - Z.to_nat j))
                           (Z.to_nat cutoff)),
             (Z.ltb_spec (Z.max j (n - 1 - j)) cutoff); try lia.
    + f_equal. lia.
    + destruct (Nat.ltb_spec (Nat.min (Z.to_nat j) (Z.to_nat n - 1 - Z.to_nat j))
                             (Z.to_nat cutoff)),
               (Z.ltb_spec (Z.min j (n - 1 - j)) cutoff); try lia; [|reflexivity].
      f_equal. lia.
Qed.

(** A successful run, with the envelope it used. *)
Lemma gen_samples_run (frequency : value) (seconds vol_factor fs : R)
    (instrument k : value) (cutoff_factor : R) (samples : list Z) :
  gen_samples frequency seconds vol_factor fs instrument k cutoff_factor
    = Ok samples ->
  let n := py_int (seconds * fs) in
  exists note maximum dynamics,
    resolve_instrument instrument k (linspace fs n) frequency = Ok note /\
    py_max (map Rabs note) = Ok maximum /\
    0 < maximum /\
    length note = Z.to_nat n /\ (0 < n)%Z /\
    envelope n (fade_steps seconds fs cutoff_factor) = Ok dynamics /\
    length dynamics = Z.to_nat n /\
    Forall (fun d => 0 <= d <= 1) dynamics /\
    samples = map (fun sd => emitted vol_factor maximum (fst sd) (snd sd))
                  (combine note dynamics).
Proof.
  intros H n. unfold gen_samples in H. fold n in H.
  unfold linspace.
  destruct (resolve_instrument _ _ _ _) as [note|e] eqn:En; simpl in H;
    [|discriminate].
  destruct (py_max _) as [maximum|e] eqn:Em; simpl in H; [|discriminate].
  destruct (mapM _ note) as [audio|e] eqn:Ea; simpl in H; [|discriminate].
  pose proof (waveform_length _ _ _ _ En) as Ln.
  rewrite length_map, range_length in Ln.
  pose proof (mapM_length _ _ Ea) as La.
  assert (Hn : (0 < n)%Z).
  { destruct note as [|s note]; [discriminate|]. simpl in Ln. lia. }
  assert (Hc : Z.min (Z.of_nat (length audio)) (py_int (fs * cutoff_factor))
               = fade_steps seconds fs cutoff_factor).
  { unfold fade_steps. fold n. rewrite La, Ln. f_equal. lia. }
  rewrite Hc in H.
  destruct (fold_left _ _ _) as [dynamics|e] eqn:Ed; simpl in H; [|discriminate].
  assert (Hm : maximum <> 0).
  { destruct note as [|s note]; [discriminate|].
    simpl in Ea. destruct (py_div _ maximum) as [q|e] eqn:Eq; [|discriminate].
    now apply py_div_inv in Eq. }
  pose proof (py_max_abs_nonneg _ Em) as Hp.
  pose proof (fade_inv _ _ _ _ _ Ed) as [Ld Fd].
  rewrite length_map, range_length in Ld.
  exists note, maximum, dynamics.
  split; [reflexivity|]. split; [assumption|]. split; [lra|].
  split; [assumption|]. split; [assumption|].
  split; [exact Ed|]. split; [assumption|]. split.
  - apply (Fd (fun d => 0 <= d <= 1)).
    + apply Forall_forall. intros d Hin. apply in_map_iff in Hin as [? [<- _]]. lra.
    + intros i Hi. apply range_In in Hi. now apply ramp_bounds.
  - inversion H.
    assert (Ha : audio = map (scaled vol_factor maximum) note).
    { rewrite (mapM_pure _ (scaled vol_factor maximum)) in Ea.
      - now inversion Ea.
      - intros s _. now apply py_div_nonzero. }
    subst audio. clear. revert dynamics.
    induction note as [|s note IH]; intros [|d dynamics]; simpl; auto.
    f_equal. apply IH.
Qed.

Lemma nth_map_range {C : Type} (g : Z -> C) (n : Z) (i : nat) (d : C) :
  (i < Z.to_nat n)%nat -> nth i (map g (range n)) d = g (Z.of_nat i).
Proof.
  intros H. unfold range. rewrite map_map.
  rewrite (nth_indep _ d (g (Z.of_nat 0)))
    by now rewrite length_map, length_seq.
  rewrite (map_nth (fun x => g (Z.of_nat x))), seq_nth by assumption.
  reflexivity.
Qed.

(** The integers of a successful run, index by index: the sample scaled by
    the volume, truncated, divided by the peak, multiplied by the envelope
    value of its index, and truncated again. *)
Lemma gen_samples_values (frequency : value) (seconds vol_factor fs : R)
    (instrument k : value) (cutoff_factor : R) (samples : list Z) :
  gen_samples frequency seconds vol_factor fs instrument k cutoff_factor
    = Ok samples ->
  let n := py_int (seconds * fs) in
  exists note maximum,
    resolve_instrument instrument k (linspace fs n) frequency = Ok note /\
    py_max (map Rabs note) = Ok maximum /\
    0 < maximum /\
    length note = Z.to_nat n /\ (0 < n)%Z /\
    samples = map (fun j => emitted vol_factor maximum (nth (Z.to_nat j) note 0)
                                    (fade n (fade_steps seconds fs cutoff_factor) j))
                  (range n).
Proof.
  intros H n. apply gen_samples_run in H. fold n in H.
  destruct H as [note [maximum [dynamics
    [En [Em [Hm [Ln [Hn [Ee [Ld [_ ->]]]]]]]]]]].
  exists note, maximum. repeat (split; [assumption|]).
  destruct (@envelope_values n (fade_steps seconds fs cutoff_factor))
    as [d [Ed [_ Hd]]]; [lia|unfold fade_steps; fold n; lia|].
  rewrite Ee in Ed. inversion Ed; subst d.
  apply (nth_ext _ _ 0%Z 0%Z).
  - rewrite !length_map, length_combine, range_length. lia.
  - intros i Hi. rewrite length_map, length_combine in Hi.
    rewrite (@nth_map_combine _ _ _ _ note dynamics i 0 1) by lia.
    rewrite (nth_map_range _ _ 0%Z) by lia. cbn [fst snd].
    rewrite <- Hd by lia. now rewrite !Nat2Z.id.
Qed.

(** C2, amended.  For a positive duration and sample rate the waveform has
    [floor(seconds * fs)] samples.  When its peak is not 0, every run that
    returns emits as many integers, the one at index [j] being
    [int(int(s * vol_factor * 32767) / peak * d)] for the sample [s] at [j]
    and the value [d] the fade loop leaves at [j], and a call with a volume
    in [0, 1] does return.  When the peak is 0 nothing replaces it and the
    call raises [ZeroDivisionError]. *)
Theorem length_and_peak (frequency : value) (seconds vol_factor fs : R)
    (instrument k : value) (cutoff_factor : R) (note : list R) (maximum : R) :
  0 < seconds -> 0 < fs ->
  resolve_instrument instrument k (linspace fs (py_int (seconds * fs))) frequency
    = Ok note ->
  py_max (map Rabs note) = Ok maximum ->
  py_int (seconds * fs) = Zfloor (seconds * fs) /\
  length note = Z.to_nat (Zfloor (seconds * fs)) /\
  (maximum = 0 ->
   gen_custom_freq frequency seconds vol_factor fs instrument k cutoff_factor
     = Raise ZeroDivisionError) /\
  (maximum <> 0 ->
   (0 <= vol_factor <= 1 ->
    succeeded (gen_samples frequency seconds vol_factor fs instrument k
                           cutoff_factor) /\
    succeeded (gen_custom_freq frequency seconds vol_factor fs instrument k
                               cutoff_factor)) /\
   forall samples,
     gen_samples frequency seconds vol_factor fs instrument k cutoff_factor
       = Ok samples ->
     length samples = Z.to_nat (Zfloor (seconds * fs)) /\
     samples
       = map (fun j => emitted vol_factor maximum (nth (Z.to_nat j) note 0)
                               (fade (Zfloor (seconds * fs))
                                     (fade_steps seconds fs cutoff_factor) j))
             (range (Zfloor (seconds * fs)))).
Proof.
  intros Hs Hf En Em.
  assert (Hfl : py_int (seconds * fs) = Zfloor (seconds * fs)).
  { apply py_int_floor. apply Rlt_le, Rmult_lt_0_compat; assumption. }
  pose proof (waveform_length _ _ _ _ En) as Ln.
  unfold linspace in Ln. rewrite length_map, range_length, Hfl in Ln.
  split; [assumption|]. split; [assumption|]. split.
  - intros Hz. subst maximum.
    apply silent_waveform_raises with (note := note); [assumption| |].
    + intros E. subst note. discriminate.
    + apply py_max_ge in Em. rewrite Forall_forall in *. intros s Hin.
      assert (Rabs s <= 0) by (apply Em; now apply in_map).
      pose proof (Rabs_pos s). destruct (Req_dec_T s 0); [assumption|].
      pose proof (Rabs_pos_lt s ltac:(assumption)). lra.
  - intros Hm. split.
    + intros Hv. pose proof (py_max_abs_nonneg _ Em) as Hp.
      destruct (@gen_samples_total frequency seconds vol_factor fs instrument k
                                   cutoff_factor note maximum)
        as [samples [E F]]; auto; [lra|].
      split; [now exists samples|].
      destruct (gen_custom_freq_cases _ _ _ _ _ _ _ E) as [[_ G]|[N _]];
        [|contradiction].
      eexists. exact G.
    + intros samples E. apply gen_samples_values in E.
      destruct E as [note' [maximum' [En' [Em' [_ [_ [_ E]]]]]]].
      rewrite En in En'. inversion En'; subst note'.
      rewrite Em in Em'. inversion Em'; subst maximum'.
      rewrite Hfl in E. split; [|exact E].
      rewrite E, length_map. apply range_length.
Qed.

Lemma length_and_peak_witness :
  py_int (1 * 4) = Zfloor (1 * 4) /\
  length [0; 1; 0; -1] = Z.to_nat (Zfloor (1 * 4)).
Proof.
  pose proof (@length_and_peak (VNum 1) 1 (1 / 5) 4 VNone (VNum 1) (1 / 100)
                               [0; 1; 0; -1] 1) as H.
  destruct H as [H1 [H2 _]]; try lra.
  - simpl. rewrite quarter_times, BASE_SOUND_num. f_equal. apply quarter_sines_up.
  - apply Rmax_unit_up.
  - split; assumption.
Defined.

(** ** Quantisation *)

(** C6 as stated fails here: one period of a 1 Hz sine at 4 samples per
    second has the samples 0, 1, 0, -1, the peak 1 and no fade; at volume
    0.1 the run emits [int(3276.7) = 3276] for the sample 1, where rounding
    gives 3277. *)
Lemma truncated_not_rounded :
  BASE_SOUND (linspace 4 (py_int (1 * 4))) (VNum 1) = Ok [0; 1; 0; -1] /\
  py_max (map Rabs [0; 1; 0; -1]) = Ok 1 /\
  gen_samples (VNum 1) 1 (1 / 10) 4 VNone (VNum 1) (1 / 100)
    = Ok [0; 3276; 0; -3276]%Z /\
  map (fun s => spec_emitted (1 / 10) 1 s 1) [0; 1; 0; -1]
    <> [0; 3276; 0; -3276]%Z.
Proof.
  split; [|split; [|split]].
  - rewrite quarter_times, BASE_SOUND_num. f_equal. apply quarter_sines_up.
  - apply Rmax_unit_up.
  - apply (@gen_samples_quarter_up (1 / 10) (VNum 1) 3276); simpl; lra || lia.
  - simpl. intros E. inversion E as [[E0 E1 E2]]. clear E E0 E2.
    revert E1. unfold spec_emitted, py_round.
    replace (1 / 1 * (1 / 10) * 1 * 32767) with (32767 / 10) by lra.
    assert (F : Zfloor (32767 / 10) = 3276%Z) by (apply Zfloor_eq; simpl; lra).
    rewrite F.
    destruct (Rlt_dec (32767 / 10 - 3276) (1 / 2)); [lra|].
    destruct (Rlt_dec (1 / 2) (32767 / 10 - 3276)); [|lra].
    vm_compute. discriminate.
Qed.

Lemma to_bytes_le16 (v : Z) :
  int16 v ->
  to_bytes v = Ok (le16 v) /\
  exists lo hi, le16 v = [lo; hi] /\ (0 <= lo < 256)%Z /\ (0 <= hi < 256)%Z /\
                from_bytes lo hi = v.
Proof.
  intros H. pose proof (to_bytes_int16 H) as E. split; [assumption|].
  destruct (to_bytes_inv _ E) as [_ G]. exact G.
Qed.

(** C6, amended.  The integer a returning run emits at index [j] is
    [int(int(s * vol_factor * 32767) / peak * d)], truncated toward zero at
    both conversions, for the sample [s] at [j] and the value [d] the fade
    loop leaves at [j].  Nothing clamps it: when all of them fit 16 bits the
    result is their two-byte little-endian two's-complement encodings in
    order, and otherwise the call raises [OverflowError]. *)
Theorem emitted_values (frequency : value) (seconds vol_factor fs : R)
    (instrument k : value) (cutoff_factor : R) (samples : list Z) :
  gen_samples frequency seconds vol_factor fs instrument k cutoff_factor
    = Ok samples ->
  (exists note maximum,
     resolve_instrument instrument k (linspace fs (py_int (seconds * fs)))
                        frequency = Ok note /\
     py_max (map Rabs note) = Ok maximum /\
     length samples = Z.to_nat (py_int (seconds * fs)) /\
     forall j, (0 <= j < py_int (seconds * fs))%Z ->
       nth (Z.to_nat j) samples 0%Z
       = py_int (IZR (py_int (nth (Z.to_nat j) note 0 * vol_factor * 32767))
                 / maximum
                 * fade (py_int (seconds * fs))
                        (fade_steps seconds fs cutoff_factor) j)) /\
  ((Forall int16 samples /\
    gen_custom_freq frequency seconds vol_factor fs instrument k cutoff_factor
      = Ok (concat (map le16 samples)) /\
    Forall (fun v => exists lo hi, le16 v = [lo; hi] /\
                                   (0 <= lo < 256)%Z /\ (0 <= hi < 256)%Z /\
                                   from_bytes lo hi = v) samples) \/
   (~ Forall int16 samples /\
    gen_custom_freq frequency seconds vol_factor fs instrument k cutoff_factor
      = Raise OverflowError)).
Proof.
  intros H. split.
  - destruct (gen_samples_values _ _ _ _ _ _ _ H)
      as [note [maximum [En [Em [_ [_ [_ E]]]]]]].
    exists note, maximum. split; [assumption|]. split; [assumption|].
    split; [rewrite E, length_map; apply range_length|].
    intros j Hj. rewrite E, (nth_map_range _ _ 0%Z) by lia.
    rewrite Z2Nat.id by lia. unfold emitted, scaled. now rewrite full_scale.
  - destruct (gen_custom_freq_cases _ _ _ _ _ _ _ H) as [[F G]|[F G]];
      [left|right]; repeat split; try assumption.
    rewrite Forall_forall in *. intros v Hv. now apply to_bytes_le16, F.
Qed.

Lemma emitted_values_witness :
  Forall int16 [0; 6553; 0; -6553]%Z /\
  gen_custom_freq (VNum 1) 1 (1 / 5) 4 VNone (VNum 1) (1 / 100)
    = Ok [0; 0; 153; 25; 0; 0; 103; 230]%Z.
Proof.
  assert (E : gen_samples (VNum 1) 1 (1 / 5) 4 VNone (VNum 1) (1 / 100)
              = Ok [0; 6553; 0; -6553]%Z)
    by (apply (@gen_samples_quarter_up (1 / 5) (VNum 1) 6553); simpl; lra || lia).
  destruct (emitted_values _ _ _ _ _ _ _ E) as [_ [[F [G _]]|[F _]]].
  - split; [exact F|exact G].
  - exfalso. apply F. unfold int16. repeat constructor; lia.
Defined.

(** ** No overflow at volumes up to 1 *)

(** C9. With a volume in [0, 1] and a waveform whose peak is above 0, the
    run reaches the encoding, every integer [int(a * d)] it emits lies in
    [-32768, 32767], and the encoding returns the bytes: [to_bytes] does not
    raise. *)
Theorem no_overflow (frequency : value) (seconds vol_factor fs : R)
    (instrument k : value) (cutoff_factor : R) (note : list R) (maximum : R) :
  0 <= vol_factor <= 1 ->
  resolve_instrument instrument k (linspace fs (py_int (seconds * fs))) frequency
    = Ok note ->
  py_max (map Rabs note) = Ok maximum ->
  0 < maximum ->
  exists samples,
    gen_samples frequency seconds vol_factor fs instrument k cutoff_factor
      = Ok samples /\
    Forall int16 samples /\
    mapM to_bytes samples = Ok (map le16 samples) /\
    gen_custom_freq frequency seconds vol_factor fs instrument k cutoff_factor
      = Ok (concat (map le16 samples)).
Proof.
  intros Hv En Em Hm.
  destruct (@gen_samples_total frequency seconds vol_factor fs instrument k
                               cutoff_factor note maximum Hv En Em Hm)
    as [samples [E F]].
  exists samples. split; [assumption|]. split; [assumption|].
  destruct (mapM_to_bytes_cases samples) as [[_ B]|[N _]]; [|contradiction].
  split; [assumption|].
  unfold gen_custom_freq. rewrite E. simpl. now rewrite B.
Qed.

Lemma no_overflow_witness :
  exists samples,
    gen_samples (VNum 1) 1 1 4 VNone (VNum 1) (1 / 100) = Ok samples /\
    Forall int16 samples /\
    mapM to_bytes samples = Ok (map le16 samples) /\
    gen_custom_freq (VNum 1) 1 1 4 VNone (VNum 1) (1 / 100)
      = Ok (concat (map le16 samples)).
Proof.
  apply (@no_overflow (VNum 1) 1 1 4 VNone (VNum 1) (1 / 100) [0; 1; 0; -1] 1).
  - lra.
  - simpl. rewrite quarter_times, BASE_SOUND_num. f_equal. apply quarter_sines_up.
  - apply Rmax_unit_up.
  - lra.
Defined.

(** ** Regeneration of the buffer *)

Lemma gen_custom_freq_length (frequency : value) (seconds vol_factor fs : R)
    (instrument k : value) (cutoff_factor : R) (bytes : list Z) :
  gen_custom_freq frequency seconds vol_factor fs instrument k cutoff_factor
    = Ok bytes ->
  (0 < py_int (seconds * fs))%Z /\
  length bytes = Z.to_nat (py_int (seconds * fs) * 2).
Proof.
  intros H. apply gen_custom_freq_inv in H as [samples [E [_ ->]]].
  apply gen_samples_length in E as [Hn L]. split; [assumption|].
  rewrite concat_le16_length, L. lia.
Qed.

Lemma sound_update_audio_inv (self self' : Sound.t) (a : list Z) :
  zeroed self ->
  Sound.update_audio self = (self', Ok a) ->
  exists p i,
    Sound.pitch self = Some p /\ Sound.instrument self = Some i /\
    gen_custom_freq p (Sound.seconds self) (Sound.vol_factor self) (Sound.fs self)
                    i (Sound.instrument_strength self)
                    Sound.default_cutoff_factor = Ok a /\
    self' = Sound.with_audio self a.
Proof.
  unfold zeroed, Sound.update_audio. intros Hz.
  destruct (Sound.pitch self) as [p|]; simpl; [|discriminate].
  destruct (Sound.instrument self) as [i|]; simpl; [|discriminate].
  destruct (gen_custom_freq _ _ _ _ _ _ _) as [new_audio|e] eqn:G; [|discriminate].
  destruct (gen_custom_freq_length _ _ _ _ _ _ _ G) as [_ L].
  rewrite Hz, <- L, store_from_zeros. intros H. inversion H; subst.
  exists p, i. auto.
Qed.

Lemma sound_update_audio_total (self : Sound.t) (p i : value) (a : list Z) :
  zeroed self ->
  Sound.pitch self = Some p -> Sound.instrument self = Some i ->
  gen_custom_freq p (Sound.seconds self) (Sound.vol_factor self) (Sound.fs self)
                  i (Sound.instrument_strength self)
                  Sound.default_cutoff_factor = Ok a ->
  Sound.update_audio self = (Sound.with_audio self a, Ok a).
Proof.
  unfold zeroed, Sound.update_audio. intros Hz -> -> G. simpl. rewrite G.
  destruct (gen_custom_freq_length _ _ _ _ _ _ _ G) as [_ L].
  now rewrite Hz, <- L, store_from_zeros.
Qed.

Lemma resized_zeroed (self : Sound.t) (seconds_ fs_ : R) :
  zeroed (resized self seconds_ fs_).
Proof. reflexivity. Qed.

Lemma sound_prelude_fields (self : Sound.t) (dev : device) :
  let self1 := fst (if Sound.is_playing self dev then Sound.stop self dev
                    else (self, dev)) in
  Sound.pitch self1 = Sound.pitch self /\
  Sound.instrument self1 = Sound.instrument self /\
  Sound.vol_factor self1 = Sound.vol_factor self /\
  Sound.instrument_strength self1 = Sound.instrument_strength self /\
  Sound.cutoff_factor self1 = Sound.cutoff_factor self /\
  Sound.fs self1 = Sound.fs self.
Proof.
  destruct (Sound.is_playing self dev); simpl; [|tauto].
  unfold Sound.stop. destruct (Sound.player self); simpl; tauto.
Qed.

Lemma sound_change_duration_unfold (self : Sound.t) (dev : device)
    (seconds_ : R) (fs_ : option R) :
  let st := if Sound.is_playing self dev then Sound.stop self dev
            else (self, dev) in
  let fs' := match fs_ with None => Sound.fs self | Some f => f end in
  (0 <= py_int (seconds_ * fs') * 2)%Z ->
  Sound.change_duration self dev seconds_ fs_
    = match Sound.update_audio (resized self seconds_ fs') with
      | (self', Ok _) => ((self', snd st), Ok tt)
      | (self', Raise e) => ((self', snd st), Raise e)
      end.
Proof.
  intros st fs' Hn. unfold Sound.change_duration.
  pose proof (sound_prelude_fields self dev) as F. fold st in F. fold st.
  destruct st as [self1 dev1]. cbn [fst snd] in F.
  destruct F as [F1 [F2 [F3 [F4 [F5 F6]]]]].
  cbn [Sound.with_player Sound.pitch Sound.instrument Sound.vol_factor
       Sound.instrument_strength Sound.cutoff_factor Sound.seconds Sound.fs
       Sound.size Sound.audio Sound.player snd].
  replace (match fs_ with Some f => f | None => Sound.fs self1 end) with fs'
    by (unfold fs'; destruct fs_; auto).
  unfold bytearray.
  destruct (Z.ltb_spec (py_int (seconds_ * fs') * 2) 0); [lia|].
  unfold resized. rewrite F1, F2, F3, F4, F5. reflexivity.
Qed.

Lemma sound_change_duration_inv (self : Sound.t) (dev : device)
    (seconds_ : R) (fs_ : option R) (self' : Sound.t) (dev' : device) :
  Sound.change_duration self dev seconds_ fs_ = ((self', dev'), Ok tt) ->
  let fs' := match fs_ with None => Sound.fs self | Some f => f end in
  exists p i a,
    Sound.pitch self = Some p /\ Sound.instrument self = Some i /\
    gen_custom_freq p seconds_ (Sound.vol_factor self) fs' i
                    (Sound.instrument_strength self)
                    Sound.default_cutoff_factor = Ok a /\
    self' = Sound.with_audio (resized self seconds_ fs') a.
Proof.
  intros H fs'.
  destruct (Z_lt_le_dec (py_int (seconds_ * fs') * 2) 0) as [Hneg|Hpos].
  - exfalso. revert H. unfold Sound.change_duration.
    pose proof (sound_prelude_fields self dev) as F.
    destruct (if Sound.is_playing self dev then _ else _) as [self1 dev1].
    cbn [fst snd] in F. destruct F as [_ [_ [_ [_ [_ F6]]]]].
    cbn [Sound.with_player Sound.pitch Sound.instrument Sound.vol_factor
         Sound.instrument_strength Sound.cutoff_factor Sound.seconds Sound.fs
         Sound.size Sound.audio Sound.player snd].
    replace (match fs_ with Some f => f | None => Sound.fs self1 end) with fs'
      by (unfold fs'; destruct fs_; auto).
    unfold bytearray.
    destruct (Z.ltb_spec (py_int (seconds_ * fs') * 2) 0); [|lia]. discriminate.
  - rewrite sound_change_duration_unfold in H by assumption. fold fs' in H.
    destruct (Sound.update_audio (resized self seconds_ fs')) as [s2 [a|e]] eqn:U;
      [|discriminate].
    inversion H; subst.
    apply sound_update_audio_inv in U; [|apply resized_zeroed].
    destruct U as [p [i [Hp [Hi [G ->]]]]]. exists p, i, a. auto.
Qed.

Lemma sound_change_duration_total (self : Sound.t) (dev : device)
    (seconds_ : R) (fs_ : option R) (p i : value) (a : list Z) :
  let fs' := match fs_ with None => Sound.fs self | Some f => f end in
  Sound.pitch self = Some p -> Sound.instrument self = Some i ->
  gen_custom_freq p seconds_ (Sound.vol_factor self) fs' i
                  (Sound.instrument_strength self)
                  Sound.default_cutoff_factor = Ok a ->
  Sound.change_duration self dev seconds_ fs_
    = ((Sound.with_audio (resized self seconds_ fs') a,
        snd (if Sound.is_playing self dev then Sound.stop self dev
             else (self, dev))),
       Ok tt).
Proof.
  intros fs' Hp Hi G.
  destruct (gen_custom_freq_length _ _ _ _ _ _ _ G) as [Hn _].
  rewrite sound_change_duration_unfold by (fold fs'; lia). fold fs'.
  rewrite (@sound_update_audio_total (resized self seconds_ fs') p i a);
    auto using resized_zeroed.
Qed.

(** ** A sound of four samples *)

Lemma gen_quarter_fifth :
  gen_custom_freq (VNum 1) 1 (1 / 5) 4 VNone (VNum 1) (1 / 100)
    = Ok [0; 0; 153; 25; 0; 0; 103; 230]%Z.
Proof.
  unfold gen_custom_freq.
  rewrite (@gen_samples_quarter_up (1 / 5) (VNum 1) 6553) by (simpl; lra || lia).
  reflexivity.
Qed.

Lemma gen_quarter_half :
  gen_custom_freq (VNum 1) 1 (1 / 2) 4 VNone (VNum 1) (1 / 100)
    = Ok [0; 0; 255; 63; 0; 0; 1; 192]%Z.
Proof.
  unfold gen_custom_freq.
  rewrite (@gen_samples_quarter_up (1 / 2) (VNum 1) 16383) by (simpl; lra || lia).
  reflexivity.
Qed.

Lemma sound4_constructed :
  Sound.init (VNum 1) 1 (1 / 5) 4 None VNone (VNum 1) (1 / 100) idle
    = (idle, Ok sound4).
Proof.
  unfold Sound.init.
  match goal with |- context [Sound.change_duration ?s idle 1 (Some 4)] =>
    rewrite (@sound_change_duration_total s idle 1 (Some 4)
               (VNum 1) VNone [0; 0; 153; 25; 0; 0; 103; 230]%Z)
  end.
  - unfold sound4, resized, Sound.with_audio.
    cbn [Sound.set_pitch Sound.set_instrument Sound.set_volume
         Sound.set_instrument_strength Sound.set_cutoff_factor Sound.blank
         Sound.pitch Sound.instrument Sound.vol_factor
         Sound.instrument_strength Sound.cutoff_factor Sound.seconds Sound.fs
         Sound.size Sound.audio Sound.player Sound.is_playing snd].
    replace (1 * 4) with (IZR 4) by lra. rewrite py_int_IZR, Rabs_R1.
    reflexivity.
  - cbn [Sound.set_pitch Sound.set_instrument Sound.set_volume
         Sound.set_instrument_strength Sound.set_cutoff_factor Sound.blank
         Sound.pitch Sound.instrument Sound.vol_factor
         Sound.instrument_strength Sound.cutoff_factor Sound.seconds Sound.fs
         Sound.size Sound.audio Sound.player].
    now rewrite Rabs_R1.
  - reflexivity.
  - exact gen_quarter_fifth.
Qed.

(** C3 as stated fails here: the constructed sound is consistent, and after
    [set_volume(0.5)] it holds the buffer of volume 0.2. *)
Lemma set_volume_leaves_buffer :
  Sound.init (VNum 1) 1 (1 / 5) 4 None VNone (VNum 1) (1 / 100) idle
    = (idle, Ok sound4) /\
  consistent sound4 /\
  ~ consistent (Sound.set_volume sound4 (1 / 2)).
Proof.
  split; [exact sound4_constructed|]. split.
  - exists (VNum 1), VNone. repeat split. exact gen_quarter_fifth.
  - intros [p [i [Hp [Hi G]]]].
    cbn [Sound.set_volume sound4 Sound.pitch Sound.instrument Sound.vol_factor
         Sound.instrument_strength Sound.cutoff_factor Sound.seconds Sound.fs
         Sound.audio] in Hp, Hi, G.
    inversion Hp; subst p. inversion Hi; subst i.
    rewrite gen_quarter_half in G. discriminate.
Qed.

(** C3, amended.  [change_duration] regenerates the buffer before it
    returns: the buffer is then what [gen_custom_freq] returns when called,
    as [update_audio] calls it, with the pitch, duration, volume, sample
    rate, instrument and instrument strength the object holds; and it does
    return whenever [gen_custom_freq] does for those arguments.  The five
    setters store their argument and leave the buffer as it was. *)
Theorem change_duration_regenerates :
  (forall self dev seconds_ fs_ self' dev',
     Sound.change_duration self dev seconds_ fs_ = ((self', dev'), Ok tt) ->
     regenerated self' /\
     Sound.seconds self' = seconds_ /\
     Sound.fs self' = match fs_ with None => Sound.fs self | Some f => f end) /\
  (forall self dev seconds_ fs_ p i a,
     Sound.pitch self = Some p -> Sound.instrument self = Some i ->
     gen_custom_freq p seconds_ (Sound.vol_factor self)
                     (match fs_ with None => Sound.fs self | Some f => f end)
                     i (Sound.instrument_strength self)
                     Sound.default_cutoff_factor = Ok a ->
     exists self' dev',
       Sound.change_duration self dev seconds_ fs_ = ((self', dev'), Ok tt) /\
       Sound.audio self' = a) /\
  (forall self v, Sound.audio (Sound.set_pitch self v) = Sound.audio self) /\
  (forall self v, Sound.audio (Sound.set_volume self v) = Sound.audio self) /\
  (forall self v, Sound.audio (Sound.set_instrument self v) = Sound.audio self) /\
  (forall self v,
     Sound.audio (Sound.set_instrument_strength self v) = Sound.audio self) /\
  (forall self v,
     Sound.audio (Sound.set_cutoff_factor self v) = Sound.audio self).
Proof.
  split; [|split; [|repeat split]].
  - intros self dev seconds_ fs_ self' dev' H.
    apply sound_change_duration_inv in H.
    destruct H as [p [i [a [Hp [Hi [G ->]]]]]].
    split; [|split; reflexivity].
    exists p, i. repeat split; assumption.
  - intros self dev seconds_ fs_ p i a Hp Hi G.
    eexists. eexists. split.
    + apply (@sound_change_duration_total self dev seconds_ fs_ p i a);
        assumption.
    + reflexivity.
  - intros self [|s|r]; unfold Sound.set_pitch; try reflexivity.
    now destruct (NOTE_get s).
  - intros self [|s|r]; unfold Sound.set_instrument; try reflexivity.
    now destruct (NOTE_get s).
Qed.

(** The regeneration on the sound of four samples. *)
Lemma change_duration_regenerates_witness :
  regenerated sound4 /\ Sound.seconds sound4 = 1 /\ Sound.fs sound4 = 4.
Proof.
  destruct change_duration_regenerates as [H _].
  apply (H sound4 idle 1 None sound4 idle).
  rewrite (@sound_change_duration_total sound4 idle 1 None (VNum 1) VNone
             [0; 0; 153; 25; 0; 0; 103; 230]%Z);
    try reflexivity; try exact gen_quarter_fifth.
  unfold sound4, resized, Sound.with_audio.
  cbn [Sound.pitch Sound.instrument Sound.vol_factor
       Sound.instrument_strength Sound.cutoff_factor Sound.seconds Sound.fs
       Sound.size Sound.audio Sound.player Sound.is_playing snd].
  replace (1 * 4) with (IZR 4) by lra. rewrite py_int_IZR. reflexivity.
Defined.

(** ** Appending at another sample rate *)

Lemma seq5_constructed : SoundSeq.init [] 5 idle = (idle, Ok seq5).
Proof. reflexivity. Qed.

(** C4 as stated fails here: appending the sound of rate 4 to the sequence
    of rate 5 returns normally. *)
Lemma append_mismatch_returns :
  Sound.init (VNum 1) 1 (1 / 5) 4 None VNone (VNum 1) (1 / 100) idle
    = (idle, Ok sound4) /\
  SoundSeq.init [] 5 idle = (idle, Ok seq5) /\
  Sound.fs sound4 <> SoundSeq.fs seq5 /\
  SoundSeq.append seq5 sound4 idle = ((seq5, idle), Ok tt).
Proof.
  split; [exact sound4_constructed|]. split; [exact seq5_constructed|].
  assert (N : Sound.fs sound4 <> SoundSeq.fs seq5) by (simpl; lra).
  split; [exact N|].
  unfold SoundSeq.append. now destruct (Req_dec_T _ _).
Qed.

(** C4, amended.  Appending a sound whose sample rate differs from the
    sequence's returns without raising and changes nothing: the sequence
    (members, size, duration, buffer, handle) and the backend are the ones
    before the call. *)
Theorem append_mismatch_ignored (self : SoundSeq.t) (other : Sound.t)
    (dev : device) :
  Sound.fs other <> SoundSeq.fs self ->
  SoundSeq.append self other dev = ((self, dev), Ok tt).
Proof.
  intros H. unfold SoundSeq.append. now destruct (Req_dec_T _ _).
Qed.

Lemma append_mismatch_ignored_witness :
  SoundSeq.append seq5 sound4 idle = ((seq5, idle), Ok tt).
Proof.
  apply (append_mismatch_ignored seq5 sound4 idle). simpl. lra.
Defined.

(** * Further properties *)

(** ** The modulated waveform *)

Lemma fold_Rmax_le (l : list R) (x b : R) :
  x <= b -> Forall (fun y => y <= b) l -> fold_left Rmax l x <= b.
Proof.
  intros Hx Hl. revert x Hx. induction Hl as [|y l Hy Hl IH]; intros x Hx; simpl.
  - assumption.
  - apply IH. now apply Rmax_lub.
Qed.

Lemma py_max_unit_head (l : list R) :
  Forall (fun y => Rabs y <= 1) l -> py_max (map Rabs (1 :: l)) = Ok 1.
Proof.
  intros H. simpl. rewrite Rabs_R1. f_equal. apply Rle_antisym.
  - apply fold_Rmax_le; [lra|]. apply Forall_forall. intros y Hy.
    apply in_map_iff in Hy as [z [<- Hz]]. rewrite Forall_forall in H. now apply H.
  - apply (fold_Rmax_ge (map Rabs l) 1).
Qed.

Lemma cos_abs_le (x : R) : Rabs (cos x) <= 1.
Proof. apply Rabs_le. pose proof (COS_bound x). lra. Qed.

(** The samples of the modulated waveform before the division by the peak. *)
Lemma modulator_res (s mod_ f : R) (x : list R) :
  map (fun cm => cos (fst cm + snd cm))
      (combine (map (fun i => 2 * PI * i * mod_) x)
               (map (fun i => s * sin (2 * PI * i * f)) x))
  = map (fun i => cos (2 * PI * i * mod_ + s * sin (2 * PI * i * f))) x.
Proof. induction x as [|i x IH]; simpl; [reflexivity|]. now rewrite IH. Qed.

Lemma mapM_div_one (l : list R) : mapM (fun r => py_div r 1) l = Ok l.
Proof.
  rewrite (mapM_pure _ (fun r => r)).
  - now rewrite map_id.
  - intros r _. rewrite py_div_nonzero by lra. f_equal. lra.
Qed.

Lemma modulated_peak_is_one_holds (mod_ : R) (k : value) (s f : R) (x : list R) :
  strength_of k = Some s ->
  let res := map (fun i => cos (2 * PI * i * mod_ + s * sin (2 * PI * i * f)))
                 (0 :: x) in
  freq_modulator mod_ k (0 :: x) (VNum f) = Ok res /\
  py_max (map Rabs res) = Ok 1 /\
  Forall (fun r => -1 <= r <= 1) res.
Proof.
  intros Hs res.
  assert (Hhead : res = 1 :: map (fun i => cos (2 * PI * i * mod_
                                                + s * sin (2 * PI * i * f))) x).
  { unfold res. simpl. f_equal.
    replace (2 * PI * 0 * mod_ + s * sin (2 * PI * 0 * f)) with 0.
    - apply cos_0.
    - replace (2 * PI * 0 * f) with 0 by lra. rewrite sin_0. lra. }
  assert (Hmax : py_max (map Rabs res) = Ok 1).
  { rewrite Hhead. apply py_max_unit_head. apply Forall_forall. intros y Hy.
    apply in_map_iff in Hy as [i [<- _]]. apply cos_abs_le. }
  split; [|split; [assumption|]].
  - unfold freq_modulator. rewrite Hs.
    rewrite (mapM_pure _ (fun i => s * sin (2 * PI * i * f)))
      by (intros; reflexivity).
    cbn [bind]. rewrite modulator_res. fold res. rewrite Hmax. cbn [bind].
    apply mapM_div_one.
  - apply Forall_forall. intros r Hr. unfold res in Hr.
    apply in_map_iff in Hr as [i [<- _]]. apply COS_bound.
Qed.

(** The modulated waveform on time points that start at 0: its first sample
    is [cos 0 = 1], so the peak is exactly 1, the division by the peak
    never fails and changes nothing, and every sample lies in [-1, 1]. *)
Theorem modulated_peak_is_one (mod_ : R) (k : value) (s f : R) (x : list R) :
  strength_of k = Some s ->
  let res := map (fun i => cos (2 * PI * i * mod_ + s * sin (2 * PI * i * f)))
                 (0 :: x) in
  freq_modulator mod_ k (0 :: x) (VNum f) = Ok res /\
  py_max (map Rabs res) = Ok 1 /\
  Forall (fun r => -1 <= r <= 1) res.
Proof. exact (@modulated_peak_is_one_holds mod_ k s f x). Qed.

Lemma modulated_peak_is_one_witness :
  py_max (map Rabs (map (fun i => cos (2 * PI * i * 1 + 1 * sin (2 * PI * i * 440)))
                        [0; 1 / 8000]))
    = Ok 1.
Proof.
  apply (@modulated_peak_is_one 1 (VNum 1) 1 440 [1 / 8000]). reflexivity.
Defined.

Lemma modulator_unbound_strength (mod_ : R) (k freq : value) (i : R)
    (x : list R) :
  strength_of k = None ->
  freq_modulator mod_ k (i :: x) freq = Raise NameError.
Proof.
  intros H. unfold freq_modulator. rewrite H. reflexivity.
Qed.

(** ** Runs of [gen_custom_freq] *)

Lemma linspace_head (fs : R) (n : Z) :
  (1 <= n)%Z ->
  exists x, linspace fs n = 0 :: x /\ length x = Z.to_nat (n - 1).
Proof.
  intros H. unfold linspace, range.
  replace (Z.to_nat n) with (S (Z.to_nat (n - 1))) by lia.
  simpl. eexists. split.
  - f_equal. unfold Rdiv. apply Rmult_0_l.
  - now rewrite !length_map, length_seq.
Qed.

Lemma py_int_ge_1 (x : R) : 1 <= x -> (1 <= py_int x)%Z.
Proof.
  intros H. rewrite py_int_floor by lra. apply Zfloor_lub. simpl. lra.
Qed.

Lemma modulated_resolve (instrument k : value) :
  modulated instrument ->
  exists m, resolve_instrument instrument k = freq_modulator m k.
Proof.
  destruct instrument as [|s|r]; simpl; intros H.
  - contradiction.
  - destruct (NOTE_get s) as [q|]; [eauto|contradiction].
  - eauto.
Qed.

Lemma modulated_run_returns_holds (f seconds vol_factor fs : R)
    (instrument k : value) (cutoff_factor s : R) :
  modulated instrument -> strength_of k = Some s ->
  0 <= vol_factor <= 1 -> 1 <= seconds * fs ->
  exists bytes,
    gen_custom_freq (VNum f) seconds vol_factor fs instrument k cutoff_factor
      = Ok bytes /\
    length bytes = Z.to_nat (py_int (seconds * fs) * 2).
Proof.
  intros Hi Hs Hv Hn.
  destruct (@modulated_resolve instrument k Hi) as [m Em].
  destruct (@linspace_head fs (py_int (seconds * fs))) as [x [Ex _]];
    [now apply py_int_ge_1|].
  destruct (@modulated_peak_is_one_holds m k s f x Hs) as [En [Ep _]].
  destruct (@gen_samples_total
              (VNum f) seconds vol_factor fs instrument k cutoff_factor
              (map (fun i => cos (2 * PI * i * m + s * sin (2 * PI * i * f)))
                   (0 :: x)) 1 Hv)
    as [samples [E F]].
  - rewrite Em, Ex. exact En.
  - exact Ep.
  - lra.
  - destruct (gen_custom_freq_cases _ _ _ _ _ _ _ E) as [[_ G]|[N _]];
      [|contradiction].
    eexists. split; [exact G|].
    now apply gen_custom_freq_length in G as [_ L].
Qed.

(** A modulated run whose instrument strength is a number or a note of the
    table, at a volume in [0, 1] and with at least one sample, returns its
    buffer: the peak of the modulated waveform is 1, so nothing divides by
    zero and nothing overflows. *)
Theorem modulated_run_returns (f seconds vol_factor fs : R)
    (instrument k : value) (cutoff_factor s : R) :
  modulated instrument -> strength_of k = Some s ->
  0 <= vol_factor <= 1 -> 1 <= seconds * fs ->
  exists bytes,
    gen_custom_freq (VNum f) seconds vol_factor fs instrument k cutoff_factor
      = Ok bytes /\
    length bytes = Z.to_nat (py_int (seconds * fs) * 2).
Proof. exact (@modulated_run_returns_holds f seconds vol_factor fs instrument k cutoff_factor s). Qed.

Lemma modulated_run_returns_witness :
  exists bytes,
    gen_custom_freq (VNum 440) (1 / 2) (1 / 5) 8000 (VNum 1) (VNum 1) (1 / 100)
      = Ok bytes /\
    length bytes = Z.to_nat (py_int (1 / 2 * 8000) * 2).
Proof.
  apply (@modulated_run_returns 440 (1 / 2) (1 / 5) 8000 (VNum 1) (VNum 1)
                                (1 / 100) 1); simpl; try lra; auto.
Defined.

(** A modulated run whose instrument strength is [None] or a string outside
    the note table raises [NameError] as soon as it has one sample,
    whatever the frequency is: the closure [strength] was never bound. *)
Theorem modulated_run_unbound_strength (frequency : value)
    (seconds vol_factor fs : R) (instrument k : value) (cutoff_factor : R) :
  modulated instrument -> strength_of k = None -> 1 <= seconds * fs ->
  gen_custom_freq frequency seconds vol_factor fs instrument k cutoff_factor
    = Raise NameError.
Proof.
  intros Hi Hs Hn.
  destruct (@modulated_resolve instrument k Hi) as [m Em].
  destruct (@linspace_head fs (py_int (seconds * fs))) as [x [Ex _]];
    [now apply py_int_ge_1|].
  unfold linspace in Ex.
  unfold gen_custom_freq, gen_samples. rewrite Em, Ex.
  now rewrite modulator_unbound_strength.
Qed.

Lemma modulated_run_unbound_strength_witness :
  gen_custom_freq (VNum 440) 1 (1 / 5) 8000 (VStr "A4") (VStr "H2") (1 / 100)
    = Raise NameError.
Proof.
  apply modulated_run_unbound_strength; simpl; try lra; try reflexivity.
  discriminate.
Defined.

(** A returned buffer has two bytes for each of the [int(seconds * fs)]
    samples, and each of its items is a byte. *)
Theorem buffer_shape (frequency : value) (seconds vol_factor fs : R)
    (instrument k : value) (cutoff_factor : R) (bytes : list Z) :
  gen_custom_freq frequency seconds vol_factor fs instrument k cutoff_factor
    = Ok bytes ->
  (0 < py_int (seconds * fs))%Z /\
  length bytes = Z.to_nat (2 * py_int (seconds * fs)) /\
  Forall byte_range bytes.
Proof.
  intros H. destruct (gen_custom_freq_length _ _ _ _ _ _ _ H) as [Hn L].
  split; [assumption|]. split; [rewrite L; f_equal; lia|].
  apply gen_custom_freq_inv in H as [samples [_ [_ ->]]].
  apply Forall_forall. intros b Hb. apply in_concat in Hb as [c [Hc Hb]].
  apply in_map_iff in Hc as [v [<- _]]. unfold le16 in Hb. unfold byte_range.
  destruct Hb as [<-|[<-|[]]]; apply Z.mod_pos_bound; lia.
Qed.

Lemma buffer_shape_witness :
  (0 < py_int (1 * 4))%Z /\
  length [0; 0; 153; 25; 0; 0; 103; 230]%Z = Z.to_nat (2 * py_int (1 * 4)) /\
  Forall byte_range [0; 0; 153; 25; 0; 0; 103; 230]%Z.
Proof.
  apply (@buffer_shape (VNum 1) 1 (1 / 5) 4 VNone (VNum 1) (1 / 100)).
  exact gen_quarter_fifth.
Defined.

(** ** Volume *)

Lemma scaled_cap (vol_factor maximum s : R) :
  0 <= vol_factor -> 0 < maximum -> Rabs s <= maximum ->
  Rabs (scaled vol_factor maximum s) <= vol_factor * 32767.
Proof.
  intros Hv Hm Hs. unfold scaled. rewrite full_scale.
  pose proof (py_int_toward_zero (s * vol_factor * 32767)) as T.
  assert (A : Rabs (s * vol_factor * 32767) <= maximum * (vol_factor * 32767)).
  { rewrite !Rabs_mult, (Rabs_pos_eq vol_factor), (Rabs_pos_eq 32767) by lra.
    pose proof (Rabs_pos s). nra. }
  unfold Rdiv. rewrite Rabs_mult, (Rabs_pos_eq (/ maximum)).
  - apply Rmult_le_reg_r with maximum; [assumption|].
    rewrite Rmult_assoc, Rinv_l by lra. lra.
  - apply Rlt_le, Rinv_0_lt_compat, Hm.
Qed.

Lemma emitted_cap (vol_factor maximum s d : R) :
  0 <= vol_factor -> 0 < maximum -> Rabs s <= maximum -> 0 <= d <= 1 ->
  Rabs (IZR (emitted vol_factor maximum s d)) <= vol_factor * 32767.
Proof.
  intros Hv Hm Hs Hd. unfold emitted.
  pose proof (scaled_cap s Hv Hm Hs) as B.
  pose proof (py_int_toward_zero (scaled vol_factor maximum s * d)) as T.
  assert (A : Rabs (scaled vol_factor maximum s * d) <= vol_factor * 32767).
  { rewrite Rabs_mult, (Rabs_pos_eq d) by lra.
    pose proof (Rabs_pos (scaled vol_factor maximum s)). nra. }
  lra.
Qed.

Lemma volume_caps_amplitude_holds (frequency : value) (seconds vol_factor fs : R)
    (instrument k : value) (cutoff_factor : R) (samples : list Z) :
  0 <= vol_factor ->
  gen_samples frequency seconds vol_factor fs instrument k cutoff_factor
    = Ok samples ->
  Forall (fun v => Rabs (IZR v) <= vol_factor * 32767) samples.
Proof.
  intros Hv H. apply gen_samples_run in H.
  destruct H as [note [maximum [dynamics
    [En [Em [Hm [Ln [Hn [Ee [Ld [Fd ->]]]]]]]]]]].
  assert (Hle : Forall (fun s => Rabs s <= maximum) note).
  { apply py_max_ge in Em. rewrite Forall_forall in *. intros s Hs.
    apply Em. now apply in_map. }
  apply Forall_forall. intros v Hin.
  apply in_map_iff in Hin as [[s d] [<- Hin]]. cbn [fst snd].
  pose proof (in_combine_l _ _ _ _ Hin) as Ha.
  pose proof (in_combine_r _ _ _ _ Hin) as Hd.
  rewrite Forall_forall in Hle, Fd. apply emitted_cap; auto.
Qed.

(** The volume caps the amplitude: with a volume that is not negative, no
    integer a returning run emits exceeds [vol_factor * 32767] in absolute
    value. *)
Theorem volume_caps_amplitude (frequency : value) (seconds vol_factor fs : R)
    (instrument k : value) (cutoff_factor : R) (samples : list Z) :
  0 <= vol_factor ->
  gen_samples frequency seconds vol_factor fs instrument k cutoff_factor
    = Ok samples ->
  Forall (fun v => Rabs (IZR v) <= vol_factor * 32767) samples.
Proof. exact (@volume_caps_amplitude_holds frequency seconds vol_factor fs instrument k cutoff_factor samples). Qed.

Lemma volume_caps_amplitude_witness :
  Forall (fun v => Rabs (IZR v) <= 1 / 5 * 32767) [0; 6553; 0; -6553]%Z.
Proof.
  apply (@volume_caps_amplitude (VNum 1) 1 (1 / 5) 4 VNone (VNum 1) (1 / 100)).
  - lra.
  - apply (@gen_samples_quarter_up (1 / 5) (VNum 1) 6553); simpl; lra || lia.
Defined.

Lemma concat_le16_zeros (m : nat) :
  concat (map le16 (repeat 0%Z m)) = repeat 0%Z (2 * m).
Proof.
  induction m as [|m IH]; [reflexivity|].
  replace (2 * S m)%nat with (S (S (2 * m))) by lia. simpl. now rewrite IH.
Qed.

Lemma all_zero_repeat (l : list Z) :
  Forall (fun v => v = 0%Z) l -> l = repeat 0%Z (length l).
Proof. induction 1 as [|v l Hv Hl IH]; simpl; [reflexivity|]. now rewrite Hv, <- IH. Qed.

(** Volume 0 is silence: a run at volume 0 whose waveform has a peak above 0
    returns a buffer of [2 * int(seconds * fs)] zero bytes. *)
Theorem volume_zero_is_silence (frequency : value) (seconds fs : R)
    (instrument k : value) (cutoff_factor : R) (note : list R) (maximum : R) :
  resolve_instrument instrument k (linspace fs (py_int (seconds * fs))) frequency
    = Ok note ->
  py_max (map Rabs note) = Ok maximum ->
  0 < maximum ->
  gen_custom_freq frequency seconds 0 fs instrument k cutoff_factor
    = Ok (repeat 0%Z (2 * Z.to_nat (py_int (seconds * fs)))).
Proof.
  intros En Em Hm.
  destruct (@gen_samples_total frequency seconds 0 fs instrument k cutoff_factor
                               note maximum ltac:(lra) En Em Hm)
    as [samples [E F]].
  pose proof (@volume_caps_amplitude_holds _ _ _ _ _ _ _ _ (Rle_refl 0) E) as C.
  assert (Z0 : Forall (fun v => v = 0%Z) samples).
  { rewrite Forall_forall in *. intros v Hv. specialize (C v Hv).
    rewrite Rmult_0_l in C. pose proof (Rabs_pos (IZR v)).
    assert (A : Rabs (IZR v) = 0) by lra.
    destruct (Req_dec_T (IZR v) 0) as [Ez|Nz].
    - now apply eq_IZR.
    - apply Rabs_no_R0 in Nz. contradiction. }
  apply gen_samples_length in E as L. destruct L as [_ L].
  destruct (gen_custom_freq_cases _ _ _ _ _ _ _ E) as [[_ G]|[N _]];
    [|contradiction].
  rewrite G, (all_zero_repeat Z0), concat_le16_zeros, L. reflexivity.
Qed.

Lemma volume_zero_is_silence_witness :
  gen_custom_freq (VNum 1) 1 0 4 VNone (VNum 1) (1 / 100)
    = Ok (repeat 0%Z (2 * Z.to_nat (py_int (1 * 4)))).
Proof.
  apply (@volume_zero_is_silence (VNum 1) 1 4 VNone (VNum 1) (1 / 100)
                                 [0; 1; 0; -1] 1).
  - simpl. rewrite quarter_times, BASE_SOUND_num. f_equal. apply quarter_sines_up.
  - apply Rmax_unit_up.
  - lra.
Defined.

(** ** The envelope *)

(** The envelope after the first [m] steps, when the two ramps do not meet. *)
Lemma fade_prefix (n cutoff : Z) (k : R) (m : nat) :
  (0 <= n)%Z -> (Z.of_nat m <= cutoff)%Z -> (2 * cutoff <= n)%Z ->
  exists d,
    fold_left (fade_step n cutoff k) (range (Z.of_nat m))
              (Ok (map (fun _ => 1) (range n))) = Ok d /\
    length d = Z.to_nat n /\
    forall j, (j < Z.to_nat n)%nat ->
      nth j d 1 =
        if (j <? m)%nat then ramp cutoff k (Z.of_nat j)
        else if (Z.to_nat n - 1 - j <? m)%nat
             then ramp cutoff k (Z.of_nat (Z.to_nat n - 1 - j))
             else 1.
Proof.
  intros Hn Hm Hc. induction m as [|m IH].
  - exists (map (fun _ => 1) (range n)). split; [reflexivity|].
    split; [now rewrite length_map, range_length|].
    intros j Hj. apply nth_ones.
  - destruct IH as [d [Ed [Ld Hd]]]; [lia|].
    rewrite range_snoc, fold_left_app, Ed. cbn [fold_left].
    rewrite fade_step_in_range by lia.
    eexists. split; [reflexivity|]. split; [now rewrite !replace_nth_length|].
    intros j Hj. rewrite Ld.
    destruct (Nat.eq_dec j m) as [->|Nm].
    + rewrite nth_replace_nth_eq by (rewrite replace_nth_length; lia).
      destruct (Nat.ltb_spec m (S m)); [reflexivity|lia].
    + rewrite nth_replace_nth_neq by auto.
      destruct (Nat.eq_dec j (Z.to_nat n - 1 - m)) as [->|Nr].
      * rewrite nth_replace_nth_eq by lia.
        destruct (Nat.ltb_spec (Z.to_nat n - 1 - m) (S m)); [lia|].
        replace (Z.to_nat n - 1 - (Z.to_nat n - 1 - m))%nat with m by lia.
        destruct (Nat.ltb_spec m (S m)); [reflexivity|lia].
      * rewrite nth_replace_nth_neq by auto. rewrite Hd by assumption.
        destruct (Nat.ltb_spec j m), (Nat.ltb_spec j (S m)); try lia; auto.
        destruct (Nat.ltb_spec (Z.to_nat n - 1 - j) m),
                 (Nat.ltb_spec (Z.to_nat n - 1 - j) (S m)); try lia; auto.
Qed.

Lemma ramp_start (cutoff : Z) (k : R) : (0 < cutoff)%Z -> ramp cutoff k 0 = 0.
Proof.
  intros H. unfold ramp.
  replace (0 / IZR cutoff * 7 + 1) with 1.
  - rewrite ln_1. lra.
  - unfold Rdiv. lra.
Qed.

Lemma envelope_shape_holds (n cutoff : Z) :
  (0 <= cutoff)%Z -> (2 * cutoff <= n)%Z ->
  exists d,
    envelope n cutoff = Ok d /\
    length d = Z.to_nat n /\
    (forall j, (0 <= j < n)%Z ->
       nth (Z.to_nat j) d 1 =
         if (j <? cutoff)%Z then ramp cutoff fade_constant j
         else if (n - 1 - j <? cutoff)%Z then ramp cutoff fade_constant (n - 1 - j)
              else 1) /\
    (forall j, (0 <= j < n)%Z ->
       nth (Z.to_nat j) d 1 = nth (Z.to_nat (n - 1 - j)) d 1) /\
    ((1 <= cutoff)%Z ->
     nth 0 d 1 = 0 /\ nth (Z.to_nat (n - 1)) d 1 = 0).
Proof.
  intros H0 Hc.
  destruct (@fade_prefix n cutoff fade_constant (Z.to_nat cutoff))
    as [d [Ed [Ld Hd]]]; try lia.
  rewrite Z2Nat.id in Ed by assumption.
  assert (Hshape : forall j, (0 <= j < n)%Z ->
            nth (Z.to_nat j) d 1 =
              if (j <? cutoff)%Z then ramp cutoff fade_constant j
              else if (n - 1 - j <? cutoff)%Z
                   then ramp cutoff fade_constant (n - 1 - j)
                   else 1).
  { intros j Hj. rewrite Hd by lia.
    destruct (Nat.ltb_spec (Z.to_nat j) (Z.to_nat cutoff)),
             (Z.ltb_spec j cutoff); try lia.
    - now rewrite Z2Nat.id by lia.
    - destruct (Nat.ltb_spec (Z.to_nat n - 1 - Z.to_nat j) (Z.to_nat cutoff)),
               (Z.ltb_spec (n - 1 - j) cutoff); try lia; [|reflexivity].
      f_equal. lia. }
  exists d. split; [exact Ed|]. split; [assumption|]. split; [assumption|].
  split.
  - intros j Hj. rewrite !Hshape by lia.
    replace (n - 1 - (n - 1 - j))%Z with j by lia.
    destruct (Z.ltb_spec j cutoff), (Z.ltb_spec (n - 1 - j) cutoff);
      try reflexivity; lia.
  - intros H1. split.
    + change (nth 0 d 1) with (nth (Z.to_nat 0) d 1).
      rewrite (Hshape 0%Z) by lia.
      destruct (Z.ltb_spec 0 cutoff); [|lia]. apply ramp_start. lia.
    + rewrite (Hshape (n - 1)%Z) by lia.
      destruct (Z.ltb_spec (n - 1) cutoff).
      * lia.
      * replace (n - 1 - (n - 1))%Z with 0%Z by lia.
        destruct (Z.ltb_spec 0 cutoff); [|lia]. apply ramp_start. lia.
Qed.

(** The shape of the envelope when the fade in and the fade out do not
    meet ([2 * cutoff <= n]): the ramp [k * ln(7 * i / cutoff + 1)] over the
    first [cutoff] items, the same ramp mirrored over the last [cutoff]
    items, and 1 in between; so the envelope reads the same in both
    directions, and with at least one fade step it is 0 at both ends. *)
Theorem envelope_shape (n cutoff : Z) :
  (0 <= cutoff)%Z -> (2 * cutoff <= n)%Z ->
  exists d,
    envelope n cutoff = Ok d /\
    length d = Z.to_nat n /\
    (forall j, (0 <= j < n)%Z ->
       nth (Z.to_nat j) d 1 =
         if (j <? cutoff)%Z then ramp cutoff fade_constant j
         else if (n - 1 - j <? cutoff)%Z then ramp cutoff fade_constant (n - 1 - j)
              else 1) /\
    (forall j, (0 <= j < n)%Z ->
       nth (Z.to_nat j) d 1 = nth (Z.to_nat (n - 1 - j)) d 1) /\
    ((1 <= cutoff)%Z ->
     nth 0 d 1 = 0 /\ nth (Z.to_nat (n - 1)) d 1 = 0).
Proof. exact (@envelope_shape_holds n cutoff). Qed.

Lemma envelope_shape_witness :
  exists d,
    envelope 8000 80 = Ok d /\ length d = Z.to_nat 8000 /\
    nth 0 d 1 = 0 /\ nth (Z.to_nat (8000 - 1)) d 1 = 0.
Proof.
  destruct (@envelope_shape 8000 80) as [d [E [L [_ [_ Z0]]]]]; try lia.
  exists d. destruct Z0 as [Z1 Z2]; [lia|]. auto.
Defined.

Lemma emitted_muted (vol_factor maximum s : R) :
  emitted vol_factor maximum s 0 = 0%Z.
Proof.
  unfold emitted. rewrite Rmult_0_r. apply (py_int_IZR 0).
Qed.

(** A faded buffer starts and ends in silence: when the fade has at least
    one step and the fade in and the fade out do not meet, the first and
    the last integer of a returning run are 0. *)
Theorem faded_ends_are_silent (frequency : value) (seconds vol_factor fs : R)
    (instrument k : value) (cutoff_factor : R) (samples : list Z) :
  (1 <= py_int (fs * cutoff_factor))%Z ->
  (2 * py_int (fs * cutoff_factor) <= py_int (seconds * fs))%Z ->
  gen_samples frequency seconds vol_factor fs instrument k cutoff_factor
    = Ok samples ->
  nth 0 samples 0%Z = 0%Z /\
  nth (Z.to_nat (py_int (seconds * fs) - 1)) samples 0%Z = 0%Z.
Proof.
  intros H1 H2 H. apply gen_samples_run in H.
  destruct H as [note [maximum [dynamics
    [En [Em [Hm [Ln [Hn [Ee [Ld [Fd ->]]]]]]]]]]].
  set (n := py_int (seconds * fs)) in *.
  assert (Hc : fade_steps seconds fs cutoff_factor = py_int (fs * cutoff_factor)).
  { unfold fade_steps. fold n. lia. }
  rewrite Hc in Ee.
  destruct (@envelope_shape_holds n (py_int (fs * cutoff_factor)))
    as [d [Ed [_ [_ [_ Z0]]]]]; try lia.
  rewrite Ee in Ed. inversion Ed; subst d.
  destruct (Z0 H1) as [Z1 Z2].
  split.
  - rewrite (@nth_map_combine _ _ _ _ note dynamics 0 0 1) by lia.
    cbn [fst snd]. rewrite Z1. apply emitted_muted.
  - rewrite (@nth_map_combine _ _ _ _ note dynamics _ 0 1) by lia.
    cbn [fst snd]. rewrite Z2. apply emitted_muted.
Qed.

(** ** The plain sine *)

Lemma linspace_two (fs : R) (n : Z) :
  (2 <= n)%Z -> exists x, linspace fs n = 0 :: 1 / fs :: x.
Proof.
  intros H. unfold linspace, range.
  replace (Z.to_nat n) with (S (S (Z.to_nat (n - 2)))) by lia.
  simpl. eexists. f_equal. unfold Rdiv. apply Rmult_0_l.
Qed.

Lemma sin_off_zero (x : R) : 0 < x < 2 * PI -> x <> PI -> sin x <> 0.
Proof.
  intros [H0 H2] Hp. destruct (Rlt_dec x PI) as [L|G].
  - pose proof (sin_gt_0 x H0 L). lra.
  - assert (PI < x) by lra. pose proof (sin_lt_0 x H H2). lra.
Qed.

(** A sine below the sample rate and off its half has a sample that is not
    0 right after the first one. *)
Lemma plain_peak_positive (f fs : R) (k : value) (n : Z) :
  0 < f < fs -> 2 * f <> fs -> (2 <= n)%Z ->
  exists note maximum,
    resolve_instrument VNone k (linspace fs n) (VNum f) = Ok note /\
    py_max (map Rabs note) = Ok maximum /\ 0 < maximum.
Proof.
  intros [Hf Hfs] Hh Hn. destruct (linspace_two fs Hn) as [x Ex].
  cbn [resolve_instrument]. rewrite Ex, BASE_SOUND_num.
  eexists. eexists. split; [reflexivity|]. split; [reflexivity|].
  simpl map. cbn [py_max].
  set (s1 := sin (2 * PI * f * (1 / fs))).
  assert (Hs : s1 <> 0).
  { unfold s1. pose proof PI_RGT_0 as Hpi. apply sin_off_zero.
    - replace (2 * PI * f * (1 / fs)) with (2 * PI * (f / fs)) by (field; lra).
      assert (0 < f / fs < 1).
      { split.
        - apply Rdiv_lt_0_compat; lra.
        - apply Rmult_lt_reg_r with fs; [lra|]. unfold Rdiv.
          rewrite Rmult_assoc, Rinv_l by lra. lra. }
      nra.
    - intros E. apply Hh.
      assert (E' : 2 * PI * f * (1 / fs) * fs = PI * fs) by (rewrite E; ring).
      replace (2 * PI * f * (1 / fs) * fs) with (PI * (2 * f)) in E'
        by (field; lra).
      apply Rmult_eq_reg_l in E'; lra. }
  match goal with |- 0 < fold_left Rmax (?a :: ?l) ?x =>
    pose proof (fold_Rmax_ge (a :: l) x) as [_ G] end.
  inversion G as [|? ? G1 _]; subst. fold s1 in G1.
  pose proof (Rabs_pos_lt s1 Hs). lra.
Qed.

Lemma plain_run_returns_holds (f seconds vol_factor fs : R) (k : value)
    (cutoff_factor : R) :
  0 < f < fs -> 2 * f <> fs -> 0 <= vol_factor <= 1 -> 2 <= seconds * fs ->
  exists bytes,
    gen_custom_freq (VNum f) seconds vol_factor fs VNone k cutoff_factor
      = Ok bytes /\
    length bytes = Z.to_nat (py_int (seconds * fs) * 2).
Proof.
  intros Hf Hh Hv Hn.
  assert (Hn2 : (2 <= py_int (seconds * fs))%Z).
  { rewrite py_int_floor by lra. apply Zfloor_lub. simpl. lra. }
  destruct (@plain_peak_positive f fs k _ Hf Hh Hn2) as [note [m [En [Em Hm]]]].
  destruct (@gen_samples_total (VNum f) seconds vol_factor fs VNone k
                               cutoff_factor note m Hv En Em Hm)
    as [samples [E F]].
  destruct (gen_custom_freq_cases _ _ _ _ _ _ _ E) as [[_ G]|[N _]];
    [|contradiction].
  eexists. split; [exact G|].
  now apply gen_custom_freq_length in G as [_ L].
Qed.

(** A plain sine of a frequency below the sample rate and different from
    half of it, at a volume in [0, 1] and with at least two samples, returns
    its buffer. *)
Theorem plain_run_returns (f seconds vol_factor fs : R) (k : value)
    (cutoff_factor : R) :
  0 < f < fs -> 2 * f <> fs -> 0 <= vol_factor <= 1 -> 2 <= seconds * fs ->
  exists bytes,
    gen_custom_freq (VNum f) seconds vol_factor fs VNone k cutoff_factor
      = Ok bytes /\
    length bytes = Z.to_nat (py_int (seconds * fs) * 2).
Proof. exact (@plain_run_returns_holds f seconds vol_factor fs k cutoff_factor). Qed.

Lemma plain_run_returns_witness :
  exists bytes,
    gen_custom_freq (VNum 440) 1 (1 / 5) 8000 VNone (VNum 1) (1 / 100) = Ok bytes /\
    length bytes = Z.to_nat (py_int (1 * 8000) * 2).
Proof.
  apply (@plain_run_returns 440 1 (1 / 5) 8000 (VNum 1) (1 / 100)); lra.
Defined.

Lemma faded_ends_are_silent_witness :
  exists samples,
    gen_samples (VNum 440) 1 (1 / 5) 8000 VNone (VNum 1) (1 / 100) = Ok samples /\
    nth 0 samples 0%Z = 0%Z /\
    nth (Z.to_nat (py_int (1 * 8000) - 1)) samples 0%Z = 0%Z.
Proof.
  assert (N : py_int (1 * 8000) = 8000%Z)
    by (replace (1 * 8000) with (IZR 8000) by lra; apply py_int_IZR).
  assert (C : py_int (8000 * (1 / 100)) = 80%Z)
    by (replace (8000 * (1 / 100)) with (IZR 80) by lra; apply py_int_IZR).
  destruct (@plain_peak_positive 440 8000 (VNum 1) (py_int (1 * 8000)))
    as [note [m [En [Em Hm]]]]; try lra; [rewrite N; lia|].
  destruct (@gen_samples_total (VNum 440) 1 (1 / 5) 8000 VNone (VNum 1)
                               (1 / 100) note m ltac:(lra) En Em Hm)
    as [samples [E _]].
  exists samples. split; [exact E|].
  apply (@faded_ends_are_silent (VNum 440) 1 (1 / 5) 8000 VNone (VNum 1)
                                (1 / 100) samples); [rewrite C; lia| |exact E].
  rewrite C, N. lia.
Defined.

(** ** Constructing a sound *)

Lemma sound_init_unfold (pitch_ : value) (seconds_ vol_factor_ fs_ : R)
    (instrument_ k : value) (cutoff_factor_ : R) (dev : device) :
  Sound.init pitch_ seconds_ vol_factor_ fs_ None instrument_ k cutoff_factor_ dev
  = match Sound.change_duration
            (prepared pitch_ seconds_ vol_factor_ fs_ instrument_ k cutoff_factor_)
            dev seconds_ (Some fs_) with
    | ((_, dev), Raise e) => (dev, Raise e)
    | ((self, dev), Ok _) => (dev, Ok self)
    end.
Proof.
  unfold Sound.init, prepared, pitch_of, instrument_of.
  destruct pitch_ as [|s|r], instrument_ as [|s'|r'];
    unfold Sound.set_pitch, Sound.set_instrument;
    try destruct (NOTE_get s); try destruct (NOTE_get s'); reflexivity.
Qed.

Lemma sound_init_total (pitch_ : value) (seconds_ vol_factor_ fs_ : R)
    (instrument_ k : value) (cutoff_factor_ : R) (dev : device)
    (p i : value) (a : list Z) :
  pitch_of pitch_ = Some p -> instrument_of instrument_ = Some i ->
  gen_custom_freq p seconds_ vol_factor_ fs_ i k Sound.default_cutoff_factor
    = Ok a ->
  Sound.init pitch_ seconds_ vol_factor_ fs_ None instrument_ k cutoff_factor_ dev
  = (dev, Ok (Sound.mk (Some p) (Some i) vol_factor_ k cutoff_factor_ seconds_ fs_
                       (py_int (seconds_ * fs_)) a None)).
Proof.
  intros Hp Hi G. rewrite sound_init_unfold.
  rewrite (@sound_change_duration_total _ dev seconds_ (Some fs_) p i a);
    try assumption.
  unfold prepared, resized, Sound.with_audio.
  cbn [Sound.pitch Sound.instrument Sound.vol_factor Sound.instrument_strength
       Sound.cutoff_factor Sound.seconds Sound.fs Sound.size Sound.audio
       Sound.player Sound.is_playing snd].
  now rewrite Hp, Hi.
Qed.

(** What every constructed sound satisfies (with [bg_play=None]): the
    backend is untouched and the object holds no handle; its attributes are
    the arguments, with the pitch and the instrument as the setters store
    them; [size] is [int(seconds * fs)] and positive; the buffer has two
    bytes per sample and is the one [gen_custom_freq] returns for the
    attributes. *)
Theorem constructed_sound (pitch_ : value) (seconds_ vol_factor_ fs_ : R)
    (instrument_ k : value) (cutoff_factor_ : R) (dev dev' : device)
    (self : Sound.t) :
  Sound.init pitch_ seconds_ vol_factor_ fs_ None instrument_ k cutoff_factor_ dev
    = (dev', Ok self) ->
  dev' = dev /\ Sound.player self = None /\
  Sound.pitch self = pitch_of pitch_ /\
  Sound.instrument self = instrument_of instrument_ /\
  Sound.vol_factor self = vol_factor_ /\
  Sound.instrument_strength self = k /\
  Sound.cutoff_factor self = cutoff_factor_ /\
  Sound.seconds self = seconds_ /\ Sound.fs self = fs_ /\
  Sound.size self = py_int (seconds_ * fs_) /\ (0 < Sound.size self)%Z /\
  buffered self /\ regenerated self.
Proof.
  intros H. rewrite sound_init_unfold in H.
  destruct (Sound.change_duration _ dev seconds_ (Some fs_))
    as [[s1 d1] [[]|e]] eqn:E; [|discriminate].
  inversion H; subst s1 d1. clear H.
  pose proof (sound_change_duration_inv _ _ _ _ E) as [p [i [a [Hp [Hi [G S]]]]]].
  rewrite (@sound_change_duration_total _ dev seconds_ (Some fs_) p i a) in E
    by assumption.
  inversion E as [[Es Ed]]. clear E.
  destruct (gen_custom_freq_length _ _ _ _ _ _ _ G) as [Hn L].
  cbn [prepared Sound.pitch Sound.instrument Sound.vol_factor
       Sound.instrument_strength Sound.fs] in Hp, Hi, G, Hn, L.
  unfold resized, Sound.with_audio, prepared.
  cbn [Sound.pitch Sound.instrument Sound.vol_factor Sound.instrument_strength
       Sound.cutoff_factor Sound.seconds Sound.fs Sound.size Sound.audio
       Sound.player Sound.is_playing snd].
  repeat split;
    cbn [Sound.pitch Sound.instrument Sound.vol_factor Sound.instrument_strength
         Sound.cutoff_factor Sound.seconds Sound.fs Sound.size Sound.audio
         Sound.player];
    try assumption; try lia.
  exists p, i. cbn [Sound.pitch Sound.instrument Sound.vol_factor
                    Sound.instrument_strength Sound.seconds Sound.fs Sound.audio].
  repeat split; assumption.
Qed.

Lemma constructed_sound_witness :
  idle = idle /\ Sound.player sound4 = None /\
  Sound.pitch sound4 = pitch_of (VNum 1) /\
  Sound.instrument sound4 = instrument_of VNone /\
  Sound.vol_factor sound4 = 1 / 5 /\
  Sound.instrument_strength sound4 = VNum 1 /\
  Sound.cutoff_factor sound4 = 1 / 100 /\
  Sound.seconds sound4 = 1 /\ Sound.fs sound4 = 4 /\
  Sound.size sound4 = py_int (1 * 4) /\ (0 < Sound.size sound4)%Z /\
  buffered sound4 /\ regenerated sound4.
Proof.
  apply (@constructed_sound (VNum 1) 1 (1 / 5) 4 VNone (VNum 1) (1 / 100)
                            idle idle sound4).
  exact sound4_constructed.
Defined.

Lemma py_int_above_minus_one (x : R) : -1 < x -> (0 <= py_int x)%Z.
Proof.
  intros H. unfold py_int. destruct (Rle_dec 0 x).
  - apply Zfloor_lub. simpl. lra.
  - assert (E : Zceil x = 0%Z) by (apply Zceil_eq; simpl; lra). lia.
Qed.

(** A note name outside the table, given as the pitch or as the instrument,
    makes the constructor raise [AttributeError]: the setter has assigned
    nothing and [update_audio] reads the attribute.  (A product
    [seconds * fs] of -1 or less raises earlier, in [bytearray].) *)
Theorem constructor_unknown_note (name : string) (p i : value)
    (seconds_ vol_factor_ fs_ : R) (k : value) (cutoff_factor_ : R)
    (dev : device) :
  NOTE_get name = None -> -1 < seconds_ * fs_ ->
  Sound.init (VStr name) seconds_ vol_factor_ fs_ None i k cutoff_factor_ dev
    = (dev, Raise AttributeError) /\
  Sound.init p seconds_ vol_factor_ fs_ None (VStr name) k cutoff_factor_ dev
    = (dev, Raise AttributeError).
Proof.
  intros Hn Hs.
  assert (Hz : (0 <= py_int (seconds_ * fs_) * 2)%Z).
  { pose proof (py_int_above_minus_one Hs). lia. }
  assert (Hp : pitch_of (VStr name) = None).
  { unfold pitch_of, Sound.set_pitch. now rewrite Hn. }
  assert (Hi : instrument_of (VStr name) = None).
  { unfold instrument_of, Sound.set_instrument. now rewrite Hn. }
  split; rewrite sound_init_unfold, sound_change_duration_unfold by exact Hz;
    unfold Sound.update_audio, resized, prepared;
    cbn [Sound.pitch Sound.instrument Sound.is_playing Sound.player snd].
  - rewrite Hp. reflexivity.
  - rewrite Hi. destruct (pitch_of p); reflexivity.
Qed.

Lemma constructor_unknown_note_witness :
  Sound.init (VStr "H2") 1 (1 / 5) 8000 None VNone (VNum 1) (1 / 100) idle
    = (idle, Raise AttributeError) /\
  Sound.init (VNum 440) 1 (1 / 5) 8000 None (VStr "H2") (VNum 1) (1 / 100) idle
    = (idle, Raise AttributeError).
Proof.
  apply (@constructor_unknown_note "H2" (VNum 440) VNone 1 (1 / 5) 8000 (VNum 1)
                                   (1 / 100) idle); [reflexivity|lra].
Defined.

(** ** The note names in pitch order *)

Lemma insert_by_key_perm (kx : string * string) (l : list (string * string)) :
  Permutation (insert_by_key kx l) (kx :: l).
Proof.
  induction l as [|ky l IH]; simpl; [reflexivity|].
  destruct (String.ltb (fst kx) (fst ky)); [reflexivity|].
  rewrite IH. apply perm_swap.
Qed.

Lemma sort_by_key_perm_acc (l acc : list (string * string)) :
  Permutation (fold_left (fun acc kx => insert_by_key kx acc) l acc) (acc ++ l).
Proof.
  revert acc. induction l as [|kx l IH]; intros acc; simpl.
  - now rewrite app_nil_r.
  - rewrite IH, insert_by_key_perm. simpl. apply Permutation_middle.
Qed.

Lemma keyed_items (key : string -> result string) (l : list string)
    (keyed : list (string * string)) :
  mapR (fun x => k <~ key x ;; Return (k, x)) l = Return keyed ->
  map snd keyed = l.
Proof.
  revert keyed. induction l as [|x l IH]; simpl; intros keyed H.
  - now inversion H.
  - destruct (key x) as [k|e]; simpl in H; [|discriminate].
    destruct (mapR _ l) as [ks|e]; simpl in H; [|discriminate].
    inversion H; subst. simpl. f_equal. now apply IH.
Qed.

(** [sorted] returns its items, each as often as it was given. *)
Lemma sorted_by_perm (key : string -> result string) (l names : list string) :
  sorted_by key l = Return names -> Permutation names l.
Proof.
  unfold sorted_by. destruct (mapR _ l) as [keyed|e] eqn:E; simpl; [|discriminate].
  intros H. inversion H; subst. apply keyed_items in E. rewrite <- E.
  apply Permutation_map. unfold sort_by_key.
  now rewrite sort_by_key_perm_acc.
Qed.

Lemma ascending_sorted {A : Type} (r : A -> A -> bool) (l : list A) :
  ascending r l = true -> StronglySorted (fun a b => r a b = true) l.
Proof.
  induction l as [|a l IH]; simpl; intros H; constructor.
  - apply IH. now apply andb_prop in H.
  - apply andb_prop in H as [H _]. rewrite forallb_forall in H.
    now apply Forall_forall.
Qed.

Lemma StronglySorted_weaken {A : Type} (R R' : A -> A -> Prop) (l : list A) :
  (forall a b, R a b -> R' a b) -> StronglySorted R l -> StronglySorted R' l.
Proof.
  intros H. induction 1 as [|a l Hl IH Ha]; constructor; [assumption|].
  eapply Forall_impl; [|exact Ha]. auto.
Qed.

(** [NOTE_NAMES] is computed without an exception; it holds the 153 keys
    of the note table, each once; the sort keys increase strictly along it,
    and the frequencies never decrease along it: the sharp of a letter comes
    right before the flat of the next one, with the same frequency. *)
Theorem note_names_in_pitch_order :
  exists names,
    NOTE_NAMES = Return names /\
    Permutation names (map fst NOTE) /\
    length names = 153%nat /\
    StronglySorted key_lt names /\
    StronglySorted pitch_le names.
Proof.
  destruct NOTE_NAMES as [names|e] eqn:E; [|vm_compute in E; discriminate].
  exists names. split; [reflexivity|].
  pose proof (sorted_by_perm _ _ E) as P. split; [assumption|].
  assert (V : NOTE_NAMES = Return names) by exact E.
  vm_compute in E. inversion E as [En]. clear E V P. subst names.
  split; [reflexivity|]. split.
  - apply StronglySorted_weaken with (R := fun a b => key_ltb a b = true).
    + intros a b H. unfold key_ltb in H. unfold key_lt.
      destruct (note_key a) as [ka|]; [|discriminate].
      destruct (note_key b) as [kb|]; [|discriminate]. eauto.
    + apply ascending_sorted. vm_compute. reflexivity.
  - apply StronglySorted_weaken with (R := fun a b => pitch_leb a b = true).
    + intros a b H. unfold pitch_leb in H. unfold pitch_le.
      destruct (NOTE_get a) as [fa|]; [|discriminate].
      destruct (NOTE_get b) as [fb|]; [|discriminate].
      exists fa, fb. repeat split. now apply Qle_bool_iff.
    + apply ascending_sorted. vm_compute. reflexivity.
Qed.

(** ** The tables of sounds *)

Lemma note_names_in_pitch_order_names :
  exists names, NOTE_NAMES = Return names /\ Permutation names (map fst NOTE).
Proof.
  destruct NOTE_NAMES as [names|e] eqn:E; [|vm_compute in E; discriminate].
  exists names. split; [reflexivity|]. exact (sorted_by_perm _ _ E).
Qed.

Lemma note_table_keys (k : string) (v : Q) : In (k, v) NOTE -> assoc k NOTE = Some v.
Proof.
  apply assoc_In. apply distinct_NoDup. vm_compute. reflexivity.
Qed.

Lemma assoc_found (k : string) (v : Q) (d : list (string * Q)) :
  assoc k d = Some v -> In (k, v) d.
Proof.
  induction d as [|[k' v'] d IH]; simpl; [discriminate|].
  destruct (String.eqb_spec k k') as [->|_].
  - intros H. inversion H. now left.
  - intros H. right. now apply IH.
Qed.

(** Every frequency of the table lies between 0 and 8000 and is not 4000. *)
Lemma table_frequency (name : string) (q : Q) :
  NOTE_get name = Some q -> 0 < Q2R q < 8000 /\ 2 * Q2R q <> 8000.
Proof.
  intros H. apply assoc_found in H.
  assert (A : forallb (fun kv => negb (out_of_band (snd kv))) NOTE = true)
    by (vm_compute; reflexivity).
  rewrite forallb_forall in A. specialize (A _ H). simpl in A.
  unfold out_of_band in A. apply negb_true_iff in A.
  apply orb_false_iff in A as [A A3]. apply orb_false_iff in A as [A1 A2].
  assert (Z0 : Q2R 0 = 0) by (unfold Q2R; simpl; lra).
  assert (Z8 : Q2R 8000 = 8000) by (unfold Q2R; simpl; lra).
  assert (Z4 : Q2R 4000 = 4000) by (unfold Q2R; simpl; lra).
  assert (L0 : (0 < q)%Q).
  { apply Qnot_le_lt. intros C. apply Qle_bool_iff in C. congruence. }
  assert (L8 : (q < 8000)%Q).
  { apply Qnot_le_lt. intros C. apply Qle_bool_iff in C. congruence. }
  apply Qlt_Rlt in L0, L8. rewrite Z0 in L0. rewrite Z8 in L8.
  split; [lra|]. intros E.
  assert (E4 : Q2R q = Q2R 4000) by (rewrite Z4; lra).
  apply eqR_Qeq in E4. apply Qeq_bool_iff in E4. congruence.
Qed.

(** The sound of a note of the table, plain or with the organ instrument. *)
Lemma table_sound (instrument_ : value) (name : string) (q : Q) (dev : device) :
  instrument_ = VNone \/ instrument_ = VNum 1 ->
  NOTE_get name = Some q ->
  exists s,
    Sound.init (VStr name) (1 / 2) (1 / 5) 8000 None instrument_ (VNum 1)
               (1 / 100) dev = (dev, Ok s) /\
    Sound.pitch s = Some (VNum (Q2R q)) /\
    Sound.size s = 4000%Z /\ length (Sound.audio s) = Z.to_nat 8000.
Proof.
  intros Hi Hq. destruct (table_frequency _ Hq) as [Hf Hh].
  assert (N : py_int (1 / 2 * 8000) = 4000%Z)
    by (replace (1 / 2 * 8000) with (IZR 4000) by lra; apply py_int_IZR).
  assert (Hp : pitch_of (VStr name) = Some (VNum (Q2R q))).
  { unfold pitch_of, Sound.set_pitch. now rewrite Hq. }
  assert (G : exists i a,
            instrument_of instrument_ = Some i /\
            gen_custom_freq (VNum (Q2R q)) (1 / 2) (1 / 5) 8000 i (VNum 1)
                            Sound.default_cutoff_factor = Ok a /\
            length a = Z.to_nat (py_int (1 / 2 * 8000) * 2)).
  { destruct Hi as [->| ->].
    - destruct (@plain_run_returns_holds (Q2R q) (1 / 2) (1 / 5) 8000 (VNum 1)
                                   Sound.default_cutoff_factor)
        as [a [Ga La]]; try lra.
      exists VNone, a. auto.
    - destruct (@modulated_run_returns_holds (Q2R q) (1 / 2) (1 / 5) 8000
                                       (VNum (Rabs 1)) (VNum 1)
                                       Sound.default_cutoff_factor 1)
        as [a [Ga La]]; simpl; auto; try lra.
      exists (VNum (Rabs 1)), a. auto. }
  destruct G as [i [a [Ei [Ga La]]]].
  eexists. split.
  - apply (@sound_init_total (VStr name) (1 / 2) (1 / 5) 8000 instrument_
                             (VNum 1) (1 / 100) dev _ _ a Hp Ei Ga).
  - cbn [Sound.pitch Sound.size Sound.audio]. rewrite La, N. repeat split.
Qed.

Lemma sounds_for_total (instrument_ : value) (names : list string) (dev : device) :
  instrument_ = VNone \/ instrument_ = VNum 1 ->
  Forall (fun name => NOTE_get name <> None) names ->
  exists l,
    sounds_for instrument_ names dev = (dev, Ok l) /\
    map fst l = names /\
    Forall (fun ns =>
              Sound.pitch (snd ns) = option_map (fun q => VNum (Q2R q))
                                                (NOTE_get (fst ns)) /\
              Sound.size (snd ns) = 4000%Z /\
              length (Sound.audio (snd ns)) = Z.to_nat 8000) l.
Proof.
  intros Hi. induction 1 as [|name names Hn Hl [l [E [Ek F]]]].
  - exists []. repeat split. constructor.
  - destruct (NOTE_get name) as [q|] eqn:Eq; [|contradiction].
    destruct (@table_sound instrument_ name q dev Hi Eq) as [s [Es [Sp [Ss Sa]]]].
    exists ((name, s) :: l). cbn [sounds_for]. rewrite Es, E.
    split; [reflexivity|]. split; [simpl; now rewrite Ek|].
    constructor; [|assumption]. cbn [fst snd]. rewrite Eq. auto.
Qed.

Lemma getitem_found {A : Type} (l : list (string * A)) (k : string) :
  In k (map fst l) -> exists v, getitem l k = Return v /\ In (k, v) l.
Proof.
  induction l as [|[k' v'] l IH]; simpl; [contradiction|].
  destruct (String.eqb_spec k k') as [->|N].
  - intros _. exists v'. auto.
  - intros [E|H]; [congruence|]. destruct (IH H) as [v [G I]]. eauto.
Qed.

(** [BASIC_SOUNDS] and [ORGAN_SOUNDS] are built without an exception and
    without touching the backend.  Each has one sound for every name of
    [NOTE_NAMES], so [table[name]] succeeds for every key of the note
    table; the sound has the frequency of its note as its pitch, 4000
    samples and a buffer of 8000 bytes. *)
Theorem sound_tables (instrument_ : value) (dev : device) :
  instrument_ = VNone \/ instrument_ = VNum 1 ->
  exists names table,
    NOTE_NAMES = Return names /\
    sound_table instrument_ dev = (dev, Return table) /\
    map fst table = names /\
    (forall name q, NOTE_get name = Some q ->
       exists s, getitem table name = Return s /\
                 Sound.pitch s = Some (VNum (Q2R q)) /\
                 Sound.size s = 4000%Z /\
                 length (Sound.audio s) = Z.to_nat 8000).
Proof.
  intros Hi.
  destruct note_names_in_pitch_order_names as [names [En P]].
  assert (Hin : Forall (fun name => NOTE_get name <> None) names).
  { apply Forall_forall. intros name Hname.
    apply (Permutation_in _ P) in Hname. apply in_map_iff in Hname.
    destruct Hname as [[k v] [<- Hkv]]. simpl.
    pose proof note_table_keys as Hk. unfold NOTE_get.
    rewrite (Hk _ _ Hkv). discriminate. }
  destruct (@sounds_for_total instrument_ names dev Hi Hin) as [l [E [Ek F]]].
  exists names, l. split; [assumption|]. split.
  - unfold sound_table. now rewrite En, E.
  - split; [assumption|]. intros name q Hq.
    assert (Hname : In name (map fst l)).
    { rewrite Ek. apply (Permutation_in _ (Permutation_sym P)).
      apply assoc_found in Hq. change name with (fst (name, q)).
      now apply in_map. }
    destruct (getitem_found _ _ Hname) as [s [G I]].
    exists s. split; [assumption|].
    rewrite Forall_forall in F. specialize (F _ I). cbn [fst snd] in F.
    rewrite Hq in F. exact F.
Qed.

Lemma sound_tables_witness :
  exists names table,
    NOTE_NAMES = Return names /\
    ORGAN_SOUNDS idle = (idle, Return table) /\
    map fst table = names /\
    (forall name q, NOTE_get name = Some q ->
       exists s, getitem table name = Return s /\
                 Sound.pitch s = Some (VNum (Q2R q)) /\
                 Sound.size s = 4000%Z /\
                 length (Sound.audio s) = Z.to_nat 8000).
Proof.
  apply (@sound_tables (VNum 1) idle). now right.
Defined.

(** ** Sequences *)

Lemma total_size_acc (l : list Sound.t) (acc : Z) :
  fold_left (fun acc s => (acc + Sound.size s)%Z) l acc = (acc + total_size l)%Z.
Proof.
  unfold total_size. revert acc. induction l as [|s l IH]; intros acc; simpl.
  - lia.
  - rewrite IH, (IH (Sound.size s)). lia.
Qed.

Lemma total_seconds_acc (l : list Sound.t) (acc : R) :
  fold_left (fun acc s => acc + Sound.seconds s) l acc = acc + total_seconds l.
Proof.
  unfold total_seconds. revert acc. induction l as [|s l IH]; intros acc; simpl.
  - lra.
  - rewrite IH, (IH (0 + Sound.seconds s)). lra.
Qed.

Lemma total_size_cons (s : Sound.t) (l : list Sound.t) :
  total_size (s :: l) = (Sound.size s + total_size l)%Z.
Proof. unfold total_size at 1. simpl. apply total_size_acc. Qed.

Lemma total_size_app (l1 l2 : list Sound.t) :
  total_size (l1 ++ l2) = (total_size l1 + total_size l2)%Z.
Proof.
  induction l1 as [|s l1 IH]; simpl.
  - change (total_size []) with 0%Z. lia.
  - rewrite !total_size_cons, IH. lia.
Qed.

Lemma total_seconds_cons (s : Sound.t) (l : list Sound.t) :
  total_seconds (s :: l) = Sound.seconds s + total_seconds l.
Proof.
  unfold total_seconds at 1. simpl. rewrite total_seconds_acc. lra.
Qed.

Lemma total_seconds_app (l1 l2 : list Sound.t) :
  total_seconds (l1 ++ l2) = total_seconds l1 + total_seconds l2.
Proof.
  induction l1 as [|s l1 IH]; simpl.
  - change (total_seconds []) with 0. lra.
  - rewrite !total_seconds_cons, IH. lra.
Qed.

Lemma buffered_total (l : list Sound.t) :
  Forall buffered l ->
  (0 <= total_size l)%Z /\
  length (concat (map Sound.audio l)) = Z.to_nat (total_size l * 2).
Proof.
  induction 1 as [|s l [Hs Ha] Hl [IH0 IH]]; simpl.
  - split; [unfold total_size; simpl; lia|reflexivity].
  - rewrite total_size_cons, length_app, Ha, IH. split; lia.
Qed.

Lemma seq_collect (l : list Sound.t) (self : SoundSeq.t) :
  fold_left (fun self s =>
               SoundSeq.mk (SoundSeq.sounds self ++ [s]) (SoundSeq.audio self)
                           (SoundSeq.fs self) (SoundSeq.size self)
                           (SoundSeq.seconds self) (SoundSeq.player self))
            l self
  = SoundSeq.mk (SoundSeq.sounds self ++ l) (SoundSeq.audio self)
                (SoundSeq.fs self) (SoundSeq.size self) (SoundSeq.seconds self)
                (SoundSeq.player self).
Proof.
  revert self. induction l as [|s l IH]; intros self; simpl.
  - rewrite app_nil_r. now destruct self.
  - rewrite IH. simpl. now rewrite <- app_assoc.
Qed.

(** [change_duration] on a sequence of buffered sounds. *)
Lemma seq_change_duration_total (self : SoundSeq.t) (dev : device) :
  Forall buffered (SoundSeq.sounds self) ->
  SoundSeq.change_duration self dev
  = ((SoundSeq.mk (SoundSeq.sounds self)
                  (concat (map Sound.audio (SoundSeq.sounds self)))
                  (SoundSeq.fs self) (total_size (SoundSeq.sounds self))
                  (total_seconds (SoundSeq.sounds self))
                  (fst (settle (SoundSeq.player self) dev)),
      snd (settle (SoundSeq.player self) dev)),
     Ok tt).
Proof.
  intros Hb. destruct (buffered_total Hb) as [H0 HL].
  unfold SoundSeq.change_duration.
  destruct (seq_settle self dev) as [Hp Hd].
  assert (Hf : let st := if SoundSeq.is_playing self dev
                         then SoundSeq.stop self dev else (self, dev) in
               SoundSeq.sounds (fst st) = SoundSeq.sounds self /\
               SoundSeq.fs (fst st) = SoundSeq.fs self).
  { destruct (SoundSeq.is_playing self dev); simpl; [|auto].
    unfold SoundSeq.stop. destruct (SoundSeq.player self); simpl; auto. }
  destruct (if SoundSeq.is_playing self dev then _ else _) as [self1 dev1].
  cbn [fst snd] in Hp, Hd, Hf. destruct Hf as [Hs Hfs].
  rewrite Hs. fold (total_size (SoundSeq.sounds self)).
  fold (total_seconds (SoundSeq.sounds self)).
  unfold bytearray.
  destruct (Z.ltb_spec (total_size (SoundSeq.sounds self) * 2) 0); [lia|].
  unfold SoundSeq.update_audio.
  cbn [SoundSeq.sounds SoundSeq.audio SoundSeq.with_audio SoundSeq.fs
       SoundSeq.size SoundSeq.seconds SoundSeq.player].
  rewrite <- HL, store_from_zeros. now rewrite Hp, Hd, Hfs.
Qed.

Lemma seq_init_total (sounds : list Sound.t) (fs : R) (dev : device) :
  Forall buffered sounds ->
  SoundSeq.init sounds fs dev = (dev, Ok (sequence_of sounds fs)).
Proof.
  intros Hb. unfold SoundSeq.init. rewrite seq_collect.
  cbn [SoundSeq.sounds SoundSeq.audio SoundSeq.fs SoundSeq.size
       SoundSeq.seconds SoundSeq.player app].
  rewrite seq_change_duration_total by exact Hb. reflexivity.
Qed.

(** A sequence built from buffered sounds: the constructor returns without
    touching the backend; the members are the sounds given, in order,
    whatever their sample rates are; the size and the duration are the sums
    over the members and the buffer is the members' buffers one after the
    other, two bytes per sample. *)
Theorem sequence_constructed (sounds : list Sound.t) (fs : R) (dev : device) :
  Forall buffered sounds ->
  exists q,
    SoundSeq.init sounds fs dev = (dev, Ok q) /\
    SoundSeq.sounds q = sounds /\ SoundSeq.fs q = fs /\
    SoundSeq.player q = None /\
    SoundSeq.audio q = concat (map Sound.audio sounds) /\
    SoundSeq.size q = fold_right (fun s acc => (Sound.size s + acc)%Z) 0%Z sounds /\
    SoundSeq.seconds q = fold_right (fun s acc => Sound.seconds s + acc) 0 sounds /\
    length (SoundSeq.audio q) = Z.to_nat (SoundSeq.len q * 2).
Proof.
  intros Hb. exists (sequence_of sounds fs).
  split; [now apply seq_init_total|]. unfold sequence_of, SoundSeq.len.
  cbn [SoundSeq.sounds SoundSeq.audio SoundSeq.fs SoundSeq.size
       SoundSeq.seconds SoundSeq.player].
  repeat split.
  - clear Hb. induction sounds as [|s l IH]; [reflexivity|].
    rewrite total_size_cons, IH. reflexivity.
  - clear Hb. induction sounds as [|s l IH]; [reflexivity|].
    rewrite total_seconds_cons, IH. reflexivity.
  - now apply buffered_total.
Qed.

Lemma sound4_buffered : buffered sound4.
Proof. split; [simpl; lia|reflexivity]. Qed.

Lemma sequence_constructed_witness :
  exists q,
    SoundSeq.init [sound4; sound4] 8000 idle = (idle, Ok q) /\
    SoundSeq.sounds q = [sound4; sound4] /\ SoundSeq.fs q = 8000 /\
    SoundSeq.player q = None /\
    SoundSeq.audio q = concat (map Sound.audio [sound4; sound4]) /\
    SoundSeq.size q
      = fold_right (fun s acc => (Sound.size s + acc)%Z) 0%Z [sound4; sound4] /\
    SoundSeq.seconds q
      = fold_right (fun s acc => Sound.seconds s + acc) 0 [sound4; sound4] /\
    length (SoundSeq.audio q) = Z.to_nat (SoundSeq.len q * 2).
Proof.
  apply (@sequence_constructed [sound4; sound4] 8000 idle).
  repeat (apply Forall_cons; [apply sound4_buffered|]). apply Forall_nil.
Defined.

(** ** Where [+] works *)

(** On buffered sounds, [+] returns a flat sequence in every case but a
    sequence plus a sound: the members of the operands in order, at the
    sample rate 8000 whatever the rates of the operands are.  Adding
    sequences is associative, the two results being equal in every
    attribute; and for three sounds [a + (b + c)] is the flat sequence of
    the three. *)
Theorem plus_flattens_and_associates :
  (forall a b dev, buffered a -> buffered b ->
     add (OSound a) (OSound b) dev = (dev, Ok (sequence_of [a; b] 8000))) /\
  (forall a q dev, buffered a -> Forall buffered (SoundSeq.sounds q) ->
     add (OSound a) (OSeq q) dev
       = (dev, Ok (sequence_of (a :: SoundSeq.sounds q) 8000))) /\
  (forall p q dev,
     Forall buffered (SoundSeq.sounds p) -> Forall buffered (SoundSeq.sounds q) ->
     add (OSeq p) (OSeq q) dev
       = (dev, Ok (sequence_of (SoundSeq.sounds p ++ SoundSeq.sounds q) 8000))) /\
  (forall p q r dev,
     Forall buffered (SoundSeq.sounds p) -> Forall buffered (SoundSeq.sounds q) ->
     Forall buffered (SoundSeq.sounds r) ->
     exists pq qr pqr,
       add (OSeq p) (OSeq q) dev = (dev, Ok pq) /\
       add (OSeq pq) (OSeq r) dev = (dev, Ok pqr) /\
       add (OSeq q) (OSeq r) dev = (dev, Ok qr) /\
       add (OSeq p) (OSeq qr) dev = (dev, Ok pqr) /\
       SoundSeq.sounds pqr
         = SoundSeq.sounds p ++ SoundSeq.sounds q ++ SoundSeq.sounds r) /\
  (forall a b c dev, buffered a -> buffered b -> buffered c ->
     exists bc,
       add (OSound b) (OSound c) dev = (dev, Ok bc) /\
       add (OSound a) (OSeq bc) dev = (dev, Ok (sequence_of [a; b; c] 8000))).
Proof.
  assert (A1 : forall a b dev, buffered a -> buffered b ->
             add (OSound a) (OSound b) dev = (dev, Ok (sequence_of [a; b] 8000))).
  { intros a b dev Ha Hb. cbn [add Sound_add].
    apply seq_init_total.
    repeat (apply Forall_cons; [assumption|]). apply Forall_nil. }
  assert (A2 : forall a q dev, buffered a -> Forall buffered (SoundSeq.sounds q) ->
             add (OSound a) (OSeq q) dev
               = (dev, Ok (sequence_of (a :: SoundSeq.sounds q) 8000))).
  { intros a q dev Ha Hq. cbn [add Sound_add app].
    apply seq_init_total. now constructor. }
  assert (A3 : forall p q dev,
             Forall buffered (SoundSeq.sounds p) ->
             Forall buffered (SoundSeq.sounds q) ->
             add (OSeq p) (OSeq q) dev
               = (dev, Ok (sequence_of (SoundSeq.sounds p ++ SoundSeq.sounds q)
                                       8000))).
  { intros p q dev Hp Hq. cbn [add SoundSeq_add list_add].
    apply seq_init_total. apply Forall_app. now split. }
  split; [exact A1|]. split; [exact A2|]. split; [exact A3|]. split.
  - intros p q r dev Hp Hq Hr.
    exists (sequence_of (SoundSeq.sounds p ++ SoundSeq.sounds q) 8000),
           (sequence_of (SoundSeq.sounds q ++ SoundSeq.sounds r) 8000),
           (sequence_of (SoundSeq.sounds p ++ SoundSeq.sounds q ++ SoundSeq.sounds r)
                        8000).
    split; [now apply A3|]. split.
    + rewrite A3; cbn [sequence_of SoundSeq.sounds];
        [now rewrite <- app_assoc|apply Forall_app; now split|assumption].
    + split; [now apply A3|]. split; [|reflexivity].
      rewrite A3; cbn [sequence_of SoundSeq.sounds];
        [reflexivity|assumption|apply Forall_app; now split].
  - intros a b c dev Ha Hb Hc. exists (sequence_of [b; c] 8000).
    split; [now apply A1|].
    rewrite A2; [reflexivity|assumption|].
    cbn [sequence_of SoundSeq.sounds].
    repeat (apply Forall_cons; [assumption|]). apply Forall_nil.
Qed.

(** ** Appending at the same sample rate *)

(** Appending a buffered sound of the sequence's sample rate to a sequence
    of buffered sounds returns; the sound is the new last member, the size
    and the duration are the sums over the members, and the buffer is the
    members' buffers one after the other, so the one before the call
    followed by the buffer of the sound when the sequence was consistent;
    a handle that was playing is stopped and dropped. *)
Theorem append_same_rate (self : SoundSeq.t) (other : Sound.t) (dev : device) :
  Forall buffered (SoundSeq.sounds self) -> buffered other ->
  Sound.fs other = SoundSeq.fs self ->
  exists self' dev',
    SoundSeq.append self other dev = ((self', dev'), Ok tt) /\
    SoundSeq.sounds self' = SoundSeq.sounds self ++ [other] /\
    SoundSeq.fs self' = SoundSeq.fs self /\
    SoundSeq.size self' = (total_size (SoundSeq.sounds self) + Sound.size other)%Z /\
    SoundSeq.seconds self'
      = total_seconds (SoundSeq.sounds self) + Sound.seconds other /\
    SoundSeq.audio self'
      = concat (map Sound.audio (SoundSeq.sounds self)) ++ Sound.audio other /\
    (SoundSeq.player self', dev') = settle (SoundSeq.player self) dev.
Proof.
  intros Hs Ho Hf. unfold SoundSeq.append.
  destruct (Req_dec_T _ _) as [_|N]; [|contradiction].
  rewrite seq_change_duration_total
    by (cbn [SoundSeq.sounds]; apply Forall_app; split;
        [assumption|now constructor]).
  eexists. eexists. split; [reflexivity|].
  cbn [SoundSeq.sounds SoundSeq.audio SoundSeq.fs SoundSeq.size
       SoundSeq.seconds SoundSeq.player].
  rewrite total_size_app, total_seconds_app, total_size_cons,
          total_seconds_cons, map_app, concat_app.
  change (total_size []) with 0%Z. change (total_seconds []) with 0.
  repeat split; try reflexivity.
  - f_equal. lia.
  - f_equal. lra.
  - simpl. now rewrite app_nil_r.
  - now destruct (settle (SoundSeq.player self) dev).
Qed.

Lemma append_same_rate_witness :
  exists self' dev',
    SoundSeq.append (sequence_of [sound4] 4) sound4 idle = ((self', dev'), Ok tt) /\
    SoundSeq.sounds self' = [sound4] ++ [sound4] /\
    SoundSeq.fs self' = 4 /\
    SoundSeq.size self' = (total_size [sound4] + Sound.size sound4)%Z /\
    SoundSeq.seconds self' = total_seconds [sound4] + Sound.seconds sound4 /\
    SoundSeq.audio self'
      = concat (map Sound.audio [sound4]) ++ Sound.audio sound4 /\
    (SoundSeq.player self', dev') = settle None idle.
Proof.
  apply (@append_same_rate (sequence_of [sound4] 4) sound4 idle).
  - apply Forall_cons; [apply sound4_buffered|apply Forall_nil].
  - apply sound4_buffered.
  - reflexivity.
Defined.

(** ** Repetition with [*] *)

Lemma repeat_buffered (s : Sound.t) (m : nat) :
  buffered s -> Forall buffered (repeat s m).
Proof. intros H. induction m; simpl; constructor; assumption. Qed.

Lemma total_size_repeat (s : Sound.t) (m : nat) :
  total_size (repeat s m) = (Z.of_nat m * Sound.size s)%Z.
Proof.
  induction m as [|m IH]; [reflexivity|].
  cbn [repeat]. rewrite total_size_cons, IH. lia.
Qed.

(** A buffered sound times an [int]: the sequence of [abs(factor)] copies of
    the sound, so a negative factor repeats like its absolute value and 0
    gives the empty sequence; the size is [abs(factor)] times the size of
    the sound and the buffer is as many copies of its buffer.  Any other
    factor makes [*] return [None]. *)
Theorem sound_times (self : Sound.t) (z : Z) (dev : device) :
  buffered self ->
  exists q,
    Sound_mul self (FInt z) dev = (dev, Ok (Some q)) /\
    Sound_mul self (FInt (- z)) dev = (dev, Ok (Some q)) /\
    SoundSeq.sounds q = repeat self (Z.to_nat (Z.abs z)) /\
    SoundSeq.size q = (Z.abs z * Sound.size self)%Z /\
    SoundSeq.audio q = concat (repeat (Sound.audio self) (Z.to_nat (Z.abs z))) /\
    Sound_mul self FOther dev = (dev, Ok None).
Proof.
  intros Hb. exists (sequence_of (repeat self (Z.to_nat (Z.abs z))) 8000).
  assert (E : Sound_mul self (FInt z) dev
              = (dev, Ok (Some (sequence_of (repeat self (Z.to_nat (Z.abs z)))
                                            8000)))).
  { unfold Sound_mul. rewrite seq_init_total by now apply repeat_buffered.
    reflexivity. }
  split; [exact E|]. split.
  - unfold Sound_mul. rewrite Z.abs_opp.
    rewrite seq_init_total by now apply repeat_buffered. reflexivity.
  - cbn [sequence_of SoundSeq.sounds SoundSeq.size SoundSeq.audio].
    repeat split.
    + rewrite total_size_repeat. f_equal. lia.
    + f_equal. apply map_repeat.
Qed.

Lemma sound_times_witness :
  exists q,
    Sound_mul sound4 (FInt (-3)) idle = (idle, Ok (Some q)) /\
    Sound_mul sound4 (FInt (- -3)) idle = (idle, Ok (Some q)) /\
    SoundSeq.sounds q = repeat sound4 (Z.to_nat (Z.abs (-3))) /\
    SoundSeq.size q = (Z.abs (-3) * Sound.size sound4)%Z /\
    SoundSeq.audio q
      = concat (repeat (Sound.audio sound4) (Z.to_nat (Z.abs (-3)))) /\
    Sound_mul sound4 FOther idle = (idle, Ok None).
Proof.
  apply (@sound_times sound4 (-3) idle). apply sound4_buffered.
Defined.

Lemma concat_repeat_buffered (l : list Sound.t) (m : nat) :
  Forall buffered l -> Forall buffered (concat (repeat l m)).
Proof.
  intros H. induction m as [|m IH]; simpl; [constructor|].
  apply Forall_app. now split.
Qed.

(** A sequence of buffered sounds times an [int]: the flat sequence of
    [abs(factor)] runs of its members; any other factor gives [None]. *)
Theorem sequence_times (self : SoundSeq.t) (z : Z) (dev : device) :
  Forall buffered (SoundSeq.sounds self) ->
  exists q,
    SoundSeq_mul self (FInt z) dev = (dev, Ok (Some q)) /\
    SoundSeq_mul self (FInt (- z)) dev = (dev, Ok (Some q)) /\
    SoundSeq.sounds q
      = concat (repeat (SoundSeq.sounds self) (Z.to_nat (Z.abs z))) /\
    SoundSeq.audio q
      = concat (repeat (concat (map Sound.audio (SoundSeq.sounds self)))
                       (Z.to_nat (Z.abs z))) /\
    SoundSeq_mul self FOther dev = (dev, Ok None).
Proof.
  intros Hb.
  exists (sequence_of (concat (repeat (SoundSeq.sounds self)
                                      (Z.to_nat (Z.abs z)))) 8000).
  split; [|split].
  - unfold SoundSeq_mul.
    rewrite seq_init_total by now apply concat_repeat_buffered. reflexivity.
  - unfold SoundSeq_mul. rewrite Z.abs_opp.
    rewrite seq_init_total by now apply concat_repeat_buffered. reflexivity.
  - cbn [sequence_of SoundSeq.sounds SoundSeq.audio]. repeat split.
    induction (Z.to_nat (Z.abs z)) as [|m IH]; simpl; [reflexivity|].
    now rewrite map_app, concat_app, IH.
Qed.

Lemma sequence_times_witness :
  exists q,
    SoundSeq_mul (sequence_of [sound4] 4) (FInt 2) idle = (idle, Ok (Some q)) /\
    SoundSeq_mul (sequence_of [sound4] 4) (FInt (- 2)) idle
      = (idle, Ok (Some q)) /\
    SoundSeq.sounds q = concat (repeat [sound4] (Z.to_nat (Z.abs 2))) /\
    SoundSeq.audio q
      = concat (repeat (concat (map Sound.audio [sound4])) (Z.to_nat (Z.abs 2))) /\
    SoundSeq_mul (sequence_of [sound4] 4) FOther idle = (idle, Ok None).
Proof.
  apply (@sequence_times (sequence_of [sound4] 4) 2 idle).
  apply Forall_cons; [apply sound4_buffered|apply Forall_nil].
Defined.

(** ** Playing without an object *)

Lemma fresh_handle (dev : device) :
  device_ok dev -> ~ In (next_handle dev) (playing dev).
Proof.
  unfold device_ok. rewrite Forall_forall. intros H Hin.
  specialize (H _ Hin). lia.
Qed.

Lemma retire_fresh (how : ending) (dev : device) (hist : list event) :
  device_ok dev ->
  playing (retire how (next_handle dev)
                  (mkDevice (next_handle dev :: playing dev)
                            (S (next_handle dev)) false hist))
    = playing dev.
Proof.
  intros H. unfold retire. cbn [playing remove].
  destruct (Nat.eq_dec (next_handle dev) (next_handle dev)); [|contradiction].
  apply notin_remove. now apply fresh_handle.
Qed.

(** [play_freq] on an accepting backend, for parameters that
    [gen_custom_freq] takes: in the background it returns a new handle that
    plays and stops nothing, so the handles that played go on playing (two
    calls leave two handles playing); in the foreground it returns [None]
    once its playback has ended, with the same handles playing as before. *)
Theorem play_freq_runs (frequency : value) (seconds vol_factor fs : R)
    (instrument k : value) (dev : device) (audio : list Z) :
  gen_custom_freq frequency seconds vol_factor fs instrument k
                  Sound.default_cutoff_factor = Ok audio ->
  refusing dev = false -> device_ok dev ->
  let bg := play_freq frequency seconds vol_factor fs true instrument k dev in
  let fg := play_freq frequency seconds vol_factor fs false instrument k dev in
  snd bg = Ok (Some (next_handle dev)) /\
  playing (fst bg) = next_handle dev :: playing dev /\
  ~ In (next_handle dev) (playing dev) /\
  device_ok (fst bg) /\ refusing (fst bg) = false /\
  playing (fst (play_freq frequency seconds vol_factor fs true instrument k
                          (fst bg)))
    = S (next_handle dev) :: next_handle dev :: playing dev /\
  snd fg = Ok None /\ playing (fst fg) = playing dev.
Proof.
  intros G Hr Hd bg fg. subst bg fg. unfold play_freq, play_buffer.
  rewrite G, Hr. cbn [fst snd playing next_handle refusing].
  repeat split.
  - now apply fresh_handle.
  - unfold device_ok in *. cbn [playing next_handle].
    constructor; [lia|]. eapply Forall_impl; [|exact Hd]. simpl. lia.
  - now apply retire_fresh.
Qed.

Lemma play_freq_runs_witness :
  snd (play_freq (VNum 1) 1 (1 / 5) 4 true VNone (VNum 1) idle)
    = Ok (Some (next_handle idle)) /\
  playing (fst (play_freq (VNum 1) 1 (1 / 5) 4 true VNone (VNum 1) idle))
    = [next_handle idle].
Proof.
  pose proof (@play_freq_runs (VNum 1) 1 (1 / 5) 4 VNone (VNum 1) idle
                              [0; 0; 153; 25; 0; 0; 103; 230]%Z
                              gen_quarter_fifth eq_refl (Forall_nil _)) as H.
  cbv zeta in H. destruct H as [H1 [H2 _]]. split; assumption.
Defined.

(** [play_freq] leaves the backend as it was when it raises: with the
    exception of [gen_custom_freq] when that raises, and with
    [SimpleaudioError] when the backend refuses the buffer. *)
Lemma play_freq_raises (frequency : value) (seconds vol_factor fs : R)
    (bg_play : bool) (instrument k : value) (dev : device) :
  (forall e,
     gen_custom_freq frequency seconds vol_factor fs instrument k
                     Sound.default_cutoff_factor = Raise e ->
     play_freq frequency seconds vol_factor fs bg_play instrument k dev
       = (dev, Raise e)) /\
  (forall audio,
     gen_custom_freq frequency seconds vol_factor fs instrument k
                     Sound.default_cutoff_factor = Ok audio ->
     refusing dev = true ->
     play_freq frequency seconds vol_factor fs bg_play instrument k dev
       = (dev, Raise SimpleaudioError)).
Proof.
  split.
  - intros e G. unfold play_freq. now rewrite G.
  - intros audio G Hr. unfold play_freq, play_buffer. now rewrite G, Hr.
Qed.

Lemma getitem_assoc (d : list (string * Q)) (k : string) :
  getitem d k = match assoc k d with
                | Some v => Return v
                | None => Throw KeyError
                end.
Proof.
  induction d as [|[k' v] d IH]; simpl; [reflexivity|].
  destruct (String.eqb k k'); [reflexivity|assumption].
Qed.

(** [play_note] raises [KeyError] for a name that is no key of the note
    table, before anything is synthesized or played; for a key it does what
    [play_freq] does at the frequency of the note, in the background and in
    the foreground. *)
Theorem play_note_by_name (note_name : string) (seconds vol_factor fs : R)
    (bg_play : bool) (instrument k : value) (dev : device) :
  (NOTE_get note_name = None ->
   play_note note_name seconds vol_factor fs bg_play instrument k dev
     = (dev, Throw KeyError)) /\
  (forall q, NOTE_get note_name = Some q ->
     let r := play_freq (VNum (Q2R q)) seconds vol_factor fs bg_play
                        instrument k dev in
     play_note note_name seconds vol_factor fs bg_play instrument k dev
       = (fst r, lift (snd r))).
Proof.
  unfold play_note. rewrite getitem_assoc. fold (NOTE_get note_name). split.
  - intros ->. reflexivity.
  - intros q ->. unfold play_freq.
    destruct (gen_custom_freq _ _ _ _ _ _ _) as [audio|e]; [|reflexivity].
    destruct (play_buffer dev) as [dev1 [h|e]]; [|reflexivity].
    destruct bg_play; reflexivity.
Qed.

Lemma play_note_by_name_witness :
  play_note "H2" 1 (1 / 5) 8000 false VNone (VNum 1) idle = (idle, Throw KeyError).
Proof.
  apply (@play_note_by_name "H2" 1 (1 / 5) 8000 false VNone (VNum 1) idle).
  reflexivity.
Defined.

Lemma mapM_app {A B : Type} (f : A -> outcome B) (l1 l2 : list A)
    (r1 r2 : list B) :
  mapM f l1 = Ok r1 -> mapM f l2 = Ok r2 -> mapM f (l1 ++ l2) = Ok (r1 ++ r2).
Proof.
  revert r1. induction l1 as [|a l1 IH]; simpl; intros r1 H1 H2.
  - inversion H1. assumption.
  - destruct (f a) as [b|e]; simpl in *; [|discriminate].
    destruct (mapM f l1) as [bs|e]; simpl in *; [|discriminate].
    inversion H1; subst. now rewrite (IH bs eq_refl H2).
Qed.

(** The buffer of [play_many_freq]: when it is built it has two bytes for
    every sample of every item; the buffer of two lists one after the other
    is the buffer of the first followed by the buffer of the second; the
    empty list gives the empty buffer. *)
Theorem many_freq_audio_composes (fs : R) (instrument k : value) :
  (forall frequencies audio,
     many_freq_audio frequencies fs instrument k = Ok audio ->
     length audio = Z.to_nat (2 * many_samples frequencies fs) /\
     (0 <= many_samples frequencies fs)%Z) /\
  (forall l1 l2 a1 a2,
     many_freq_audio l1 fs instrument k = Ok a1 ->
     many_freq_audio l2 fs instrument k = Ok a2 ->
     many_freq_audio (l1 ++ l2) fs instrument k = Ok (a1 ++ a2)) /\
  many_freq_audio [] fs instrument k = Ok [].
Proof.
  split; [|split; [|reflexivity]].
  - induction frequencies as [|[[f s] v] l IH]; intros audio H.
    + inversion H. split; [reflexivity|simpl; lia].
    + unfold many_freq_audio in H. cbn [mapM fst snd] in H.
      destruct (gen_custom_freq f s v fs instrument k _) as [c|e] eqn:G;
        [|discriminate].
      cbn [bind] in H.
      destruct (mapM _ l) as [cs|e] eqn:M; [|discriminate].
      cbn [bind] in H. inversion H; subst audio. clear H.
      destruct (IH (concat cs)) as [L P].
      { unfold many_freq_audio. now rewrite M. }
      destruct (gen_custom_freq_length _ _ _ _ _ _ _ G) as [Hn Lc].
      cbn [concat many_samples fold_right fst snd].
      fold (many_samples l fs). rewrite length_app, Lc, L. split; lia.
  - intros l1 l2 a1 a2 H1 H2. unfold many_freq_audio in *.
    destruct (mapM _ l1) as [c1|e] eqn:M1; [|discriminate].
    destruct (mapM _ l2) as [c2|e] eqn:M2; [|discriminate].
    cbn [bind] in *. inversion H1. inversion H2.
    rewrite (mapM_app _ _ _ M1 M2). cbn [bind]. now rewrite concat_app.
Qed.

Lemma mapR_lift {A B : Type} (f : A -> outcome B) (l : list A) :
  mapR (fun a => lift (f a)) l = lift (mapM f l).
Proof.
  induction l as [|a l IH]; simpl; [reflexivity|].
  destruct (f a) as [b|e]; simpl; [|reflexivity].
  rewrite IH. now destruct (mapM f l).
Qed.

(** [play_many_notes] plays what [play_many_freq] plays for the frequencies
    of the notes when every name is a key of the note table; a list whose
    first name is no key raises [KeyError] and leaves the backend as it
    was. *)
Theorem play_many_notes_by_name (fs : R) (bg_play : bool) (instrument k : value)
    (dev : device) :
  (forall notes frequencies,
     notes_as_freqs notes = Some frequencies ->
     let r := play_many_freq frequencies fs bg_play instrument k dev in
     play_many_notes notes fs bg_play instrument k dev = (fst r, lift (snd r))) /\
  (forall n s v rest,
     NOTE_get n = None ->
     play_many_notes ((n, s, v) :: rest) fs bg_play instrument k dev
       = (dev, Throw KeyError)).
Proof.
  split.
  - intros notes frequencies H.
    assert (E : many_notes_audio notes fs instrument k
                = lift (many_freq_audio frequencies fs instrument k)).
    { unfold many_notes_audio, many_freq_audio.
      assert (M : mapR (fun nsv =>
                    q <~ getitem NOTE (fst (fst nsv)) ;;
                    lift (gen_custom_freq (VNum (Q2R q)) (snd (fst nsv)) (snd nsv)
                                          fs instrument k
                                          Sound.default_cutoff_factor)) notes
                  = lift (mapM (fun fsv =>
                            gen_custom_freq (fst (fst fsv)) (snd (fst fsv))
                                            (snd fsv) fs instrument k
                                            Sound.default_cutoff_factor)
                          frequencies)).
      { revert frequencies H.
        induction notes as [|[[n s] v] rest IH]; intros frequencies H.
        - inversion H. reflexivity.
        - cbn [notes_as_freqs] in H.
          destruct (NOTE_get n) as [q|] eqn:Eq; [|discriminate].
          destruct (notes_as_freqs rest) as [l|]; [|discriminate].
          inversion H; subst frequencies. clear H.
          cbn [mapR mapM fst snd]. rewrite getitem_assoc.
          fold (NOTE_get n). rewrite Eq. cbn [bindR].
          destruct (gen_custom_freq _ _ _ _ _ _ _) as [c|e]; [|reflexivity].
          cbn [lift bindR bind]. rewrite (IH l eq_refl).
          now destruct (mapM _ l). }
      rewrite M. now destruct (mapM _ frequencies). }
    unfold play_many_notes, play_many_freq. rewrite E.
    destruct (many_freq_audio frequencies fs instrument k) as [audio|e];
      [|reflexivity].
    cbn [lift]. destruct (play_buffer dev) as [dev1 [h|e]]; [|reflexivity].
    destruct bg_play; reflexivity.
  - intros n s v rest Hn. unfold play_many_notes, many_notes_audio.
    cbn [mapR fst snd]. rewrite getitem_assoc. fold (NOTE_get n).
    now rewrite Hn.
Qed.

(** ** The instrument *)

(** One reading of the distance sensor plays at most one note: E4 from 2.5
    up to 6.5, G4 up to 14, A4 up to 21, B4 up to 28.25 (each bound
    belonging to the range above it) and nothing below 2.5 or from 28.25
    on; every note it can play is a key of the note table. *)
Theorem one_note_per_reading (us_data : R) :
  (length (triggered_notes us_data) <= 1)%nat /\
  (2.5 <= us_data < 6.5 -> triggered_notes us_data = ["E4"%string]) /\
  (6.5 <= us_data < 14 -> triggered_notes us_data = ["G4"%string]) /\
  (14 <= us_data < 21 -> triggered_notes us_data = ["A4"%string]) /\
  (21 <= us_data < 28.25 -> triggered_notes us_data = ["B4"%string]) /\
  (us_data < 2.5 \/ 28.25 <= us_data -> triggered_notes us_data = []) /\
  Forall (fun name => NOTE_get name <> None) (triggered_notes us_data).
Proof.
  unfold triggered_notes, Rltb, Rgeb.
  destruct (Rlt_dec us_data 6.5), (Rge_dec us_data 2.5),
           (Rlt_dec us_data 14), (Rge_dec us_data 6.5),
           (Rlt_dec us_data 21), (Rge_dec us_data 14),
           (Rlt_dec us_data 28.25), (Rge_dec us_data 21);
    cbn [andb app length]; try lra;
    (repeat split;
     [ lia | intros; first [reflexivity | lra] ..
     | repeat constructor; discriminate ]).
Qed.

(** ** The ramp of the fade *)

(** Over the steps of the fade the ramp rises strictly, from 0 at the first
    step, and stays below 1, the value of the samples that are not faded. *)
Theorem ramp_rises (cutoff i j : Z) :
  (0 <= i < j)%Z -> (j < cutoff)%Z ->
  ramp cutoff fade_constant 0 = 0 /\
  0 <= ramp cutoff fade_constant i < ramp cutoff fade_constant j /\
  ramp cutoff fade_constant j < 1.
Proof.
  intros [H0 Hij] Hj.
  assert (C : 0 < IZR cutoff) by (apply IZR_lt; lia).
  assert (L2 : 0 < ln 2) by (pose proof ln_lt_2; lra).
  assert (K : 0 < fade_constant).
  { unfold fade_constant. apply Rmult_lt_0_compat; [lra|].
    apply Rdiv_lt_0_compat; lra. }
  assert (A : forall a b : Z, (0 <= a < b)%Z -> (b <= cutoff)%Z ->
              1 <= IZR a / IZR cutoff * 7 + 1 < IZR b / IZR cutoff * 7 + 1 /\
              IZR b / IZR cutoff * 7 + 1 <= 8).
  { intros a b [Ha Hab] Hb.
    assert (0 <= IZR a) by (apply IZR_le; assumption).
    assert (IZR a < IZR b) by (apply IZR_lt; assumption).
    assert (IZR b <= IZR cutoff) by (apply IZR_le; assumption).
    assert (Ia : 0 <= IZR a / IZR cutoff).
    { apply Rmult_le_pos; [assumption|]. apply Rlt_le, Rinv_0_lt_compat, C. }
    assert (Iab : IZR a / IZR cutoff < IZR b / IZR cutoff).
    { unfold Rdiv. apply Rmult_lt_compat_r; [apply Rinv_0_lt_compat, C|assumption]. }
    assert (Ib : IZR b / IZR cutoff <= 1).
    { apply Rmult_le_reg_r with (IZR cutoff); [assumption|].
      unfold Rdiv. rewrite Rmult_assoc, Rinv_l by lra. lra. }
    lra. }
  split; [apply ramp_start; lia|].
  destruct (A i j) as [[Ai Aij] _]; [lia|lia|].
  pose proof (@ramp_bounds cutoff i ltac:(lia)) as Bi.
  pose proof (@ramp_bounds cutoff j ltac:(lia)) as Bj.
  fold fade_constant in Bi, Bj.
  assert (Lij : ln (IZR i / IZR cutoff * 7 + 1) < ln (IZR j / IZR cutoff * 7 + 1))
    by (apply ln_increasing; lra).
  split.
  - split; [apply Bi|]. unfold ramp. apply Rmult_lt_compat_r; assumption.
  - destruct (A j cutoff) as [[_ Ajc] _]; [lia|lia|].
    assert (E : IZR cutoff / IZR cutoff * 7 + 1 = 8) by (field; lra).
    rewrite E in Ajc.
    assert (L8 : ln 8 = 3 * ln 2).
    { replace 8 with (2 ^ 3) by lra. rewrite ln_pow by lra. simpl. lra. }
    assert (Lj : ln (IZR j / IZR cutoff * 7 + 1) < 3 * ln 2).
    { rewrite <- L8. apply ln_increasing; lra. }
    unfold ramp, fade_constant.
    replace (1 / 3 * (1 / ln 2)) with (/ (3 * ln 2)) by (field; lra).
    apply Rmult_lt_reg_r with (3 * ln 2); [lra|].
    rewrite Rmult_assoc, Rinv_l by lra. lra.
Qed.

Lemma ramp_rises_witness :
  ramp 80 fade_constant 0 = 0 /\
  0 <= ramp 80 fade_constant 1 < ramp 80 fade_constant 79 /\
  ramp 80 fade_constant 79 < 1.
Proof. apply (@ramp_rises 80 1 79); lia. Defined.

(** ** The sign of the frequency *)

Lemma py_int_opp (x : R) : py_int (- x) = (- py_int x)%Z.
Proof.
  unfold py_int. destruct (Rle_dec 0 (- x)), (Rle_dec 0 x).
  - assert (x = 0) by lra. subst x. rewrite Ropp_0.
    assert (E : Zfloor 0 = 0%Z) by (apply Zfloor_eq; simpl; lra).
    rewrite E. reflexivity.
  - apply ZfloorN.
  - apply ZceilN.
  - lra.
Qed.

Lemma mapM_div_odd (g : R -> R) (l : list R) (m : R) :
  (forall r, g (- r) = - g r) ->
  mapM (fun r => py_div (g r) m) (map Ropp l)
  = match mapM (fun r => py_div (g r) m) l with
    | Ok a => Ok (map Ropp a)
    | Raise e => Raise e
    end.
Proof.
  intros Hg. induction l as [|r l IH]; cbn [map mapM]; [reflexivity|].
  unfold py_div at 1 3. destruct (Req_dec_T m 0); [reflexivity|].
  cbn [bind]. rewrite IH.
  destruct (mapM _ l) as [a|e]; cbn [bind map]; [|reflexivity].
  do 2 f_equal. rewrite Hg. unfold Rdiv. ring.
Qed.

(** The plain sine of the negated frequency is the inverted waveform: a run
    at [-f] raises what the run at [f] raises, and emits the negated
    integers where that one returns. *)
Theorem negated_frequency_inverts (f seconds vol_factor fs : R) (k : value)
    (cutoff_factor : R) :
  gen_samples (VNum (- f)) seconds vol_factor fs VNone k cutoff_factor
  = match gen_samples (VNum f) seconds vol_factor fs VNone k cutoff_factor with
    | Ok samples => Ok (map Z.opp samples)
    | Raise e => Raise e
    end.
Proof.
  unfold gen_samples. cbn [resolve_instrument]. rewrite !BASE_SOUND_num.
  cbn [bind].
  set (t := map (fun i => IZR i / fs) (range (py_int (seconds * fs)))).
  assert (En : map (fun i => sin (2 * PI * - f * i)) t
               = map Ropp (map (fun i => sin (2 * PI * f * i)) t)).
  { rewrite map_map. apply map_ext. intros i.
    replace (2 * PI * - f * i) with (- (2 * PI * f * i)) by ring. apply sin_neg. }
  rewrite En. set (note := map (fun i => sin (2 * PI * f * i)) t).
  assert (Ea : map Rabs (map Ropp note) = map Rabs note).
  { rewrite map_map. apply map_ext. intros r. apply Rabs_Ropp. }
  rewrite Ea. destruct (py_max (map Rabs note)) as [maximum|e]; [|reflexivity].
  cbn [bind].
  assert (Ed : mapM (fun i => py_div (IZR (py_int (i * vol_factor * (2 ^ 15 - 1))))
                                     maximum) (map Ropp note)
               = match mapM (fun i => py_div (IZR (py_int (i * vol_factor
                                                             * (2 ^ 15 - 1))))
                                             maximum) note with
                 | Ok a => Ok (map Ropp a)
                 | Raise e => Raise e
                 end).
  { apply (@mapM_div_odd (fun i => IZR (py_int (i * vol_factor * (2 ^ 15 - 1))))).
    intros r.
    replace (- r * vol_factor * (2 ^ 15 - 1))
      with (- (r * vol_factor * (2 ^ 15 - 1))) by ring.
    now rewrite py_int_opp, opp_IZR. }
  rewrite Ed.
  destruct (mapM _ note) as [audio|e]; [|reflexivity].
  cbn [bind]. rewrite length_map.
  destruct (fold_left _ _ _) as [dynamics|e]; [|reflexivity].
  cbn [bind]. f_equal. clear. revert dynamics.
  induction audio as [|a audio IH]; intros [|d dynamics]; simpl; try reflexivity.
  rewrite IH. f_equal.
  replace (- a * d) with (- (a * d)) by ring. apply py_int_opp.
Qed.
